(** * Itoyori: memory mapper, virtual-memory reservation, checkout spans
      and the release/acquire discipline of the parallel reduction.

    A shallow embedding of
    - [include/ityr/ori/mem_mapper.hpp]      (module [mem_mapper]),
    - the virtual-memory header of [ityr::common] ([virtual_mem],
      [reserve_same_vm_coll])                (module [vm]),
    - [include/ityr/container/checkout_span.hpp] (module [span]),
    - [parallel_reduce_generic] of the parallel reduction header
                                             (module [reduce]),
    followed by the properties proved about them. *)

From Stdlib Require Import ZArith List Lia Bool.
From stdpp Require Import base option list.
Import ListNotations.
Local Open Scope Z_scope.

(** ** Machine integers

    [std::size_t] and [uintptr_t] are 64-bit unsigned: every arithmetic
    result is reduced modulo [2^64].  [int] is 32-bit two's complement. *)
Module machine.

Definition SIZE_MOD : Z := 2 ^ 64.
Definition INT_MAX : Z := 2 ^ 31 - 1.

Definition wrap (x : Z) : Z := x mod SIZE_MOD.

Definition addu (a b : Z) : Z := wrap (a + b).
Definition subu (a b : Z) : Z := wrap (a - b).
Definition mulu (a b : Z) : Z := wrap (a * b).
(** unsigned division and remainder never leave the range; a zero divisor
    is undefined behaviour in the source and is never reached under the
    preconditions used below. *)
Definition divu (a b : Z) : Z := a / b.
Definition modu (a b : Z) : Z := a mod b.

(** conversion [int -> std::size_t] *)
Definition of_int (i : Z) : Z := wrap i.
(** conversion [std::size_t -> int] (modular) *)
Definition to_int (x : Z) : Z := (x + 2 ^ 31) mod 2 ^ 32 - 2 ^ 31.
(** [int] arithmetic *)
Definition addi (a b : Z) : Z := to_int (a + b).
Definition subi (a b : Z) : Z := to_int (a - b).

End machine.

(** ** Assertions

    [ITYR_CHECK(c)] is evaluated, and a failed assertion ends the
    computation: each result type says what its failed computation is. *)
Class CheckFail (T : Type) : Type := check_fail : T.

#[export] Instance option_check_fail (A : Type) : CheckFail (option A) := None.

Notation "'ITYR_CHECK' c ';;' k" := (if c then k else check_fail)
  (at level 10, c at level 0, k at level 200, only parsing).

(** ** The memory mapper *)
Module mem_mapper.
Import machine.

Record segment : Type := mk_segment
  { owner : Z; offset_b : Z; offset_e : Z; pm_offset : Z }.

Record block : Type := mk_block
  { size_ : Z; n_inter_ranks_ : Z; n_intra_ranks_ : Z; n_blk_ : Z }.

Record cyclic : Type := mk_cyclic
  { c_size_ : Z; c_n_inter_ranks_ : Z; c_n_intra_ranks_ : Z; seg_size_ : Z }.

Section policies.
Variable BlockSize : Z.

(** *** [block<BlockSize>] *)
Definition block_new (size n_inter_ranks n_intra_ranks : Z) : block :=
  mk_block size n_inter_ranks n_intra_ranks
           (divu (subu (addu size BlockSize) 1) BlockSize).

Definition block_get_seg_range (m : block) (seg_id : Z) : Z * Z :=
  let R := of_int (n_inter_ranks_ m) in
  let blk_id_b :=
    divu (subu (addu (mulu (of_int seg_id) (n_blk_ m)) R) 1) R in
  let blk_id_e :=
    divu (subu (addu (mulu (of_int (addi seg_id 1)) (n_blk_ m)) R) 1) R in
  (blk_id_b, blk_id_e).

Definition block_local_size (m : block) (inter_rank : Z) : Z :=
  let seg_id := inter_rank in
  let '(blk_id_b, blk_id_e) := block_get_seg_range m seg_id in
  mulu (Z.max 1 (subu blk_id_e blk_id_b)) BlockSize.

Definition block_effective_size (m : block) : Z :=
  mulu (n_blk_ m) BlockSize.

Definition block_get_segment (m : block) (offset : Z) : option segment :=
  ITYR_CHECK (offset <? block_effective_size m) ;;
  let blk_id := divu offset BlockSize in
  let seg_id :=
    to_int (divu (mulu blk_id (of_int (n_inter_ranks_ m))) (n_blk_ m)) in
  let '(blk_id_b, blk_id_e) := block_get_seg_range m seg_id in
  ITYR_CHECK (blk_id_b <=? blk_id) ;;
  ITYR_CHECK (blk_id <? blk_id_e) ;;
  Some (mk_segment seg_id
                   (mulu blk_id_b BlockSize)
                   (mulu blk_id_e BlockSize)
                   0).

(** *** [cyclic<BlockSize>] *)
Definition cyclic_new (size n_inter_ranks n_intra_ranks seg_size : Z)
  : option cyclic :=
  ITYR_CHECK (BlockSize <=? seg_size) ;;
  ITYR_CHECK (modu seg_size BlockSize =? 0) ;;
  Some (mk_cyclic size n_inter_ranks n_intra_ranks seg_size).

Definition cyclic_local_size_impl (m : cyclic) : Z :=
  let R := of_int (c_n_inter_ranks_ m) in
  let n_blk_g :=
    divu (subu (addu (c_size_ m) (seg_size_ m)) 1) (seg_size_ m) in
  let n_blk_l := divu (subu (addu n_blk_g R) 1) R in
  mulu n_blk_l (seg_size_ m).

Definition cyclic_local_size (m : cyclic) (inter_rank : Z) : Z :=
  cyclic_local_size_impl m.

Definition cyclic_effective_size (m : cyclic) : Z :=
  mulu (cyclic_local_size_impl m) (of_int (c_n_inter_ranks_ m)).

Definition cyclic_get_segment (m : cyclic) (offset : Z) : option segment :=
  ITYR_CHECK (offset <? cyclic_effective_size m) ;;
  let R := of_int (c_n_inter_ranks_ m) in
  let blk_id_g := divu offset (seg_size_ m) in
  let blk_id_l := divu blk_id_g R in
  Some (mk_segment (to_int (modu blk_id_g R))
                   (mulu blk_id_g (seg_size_ m))
                   (mulu (addu blk_id_g 1) (seg_size_ m))
                   (mulu blk_id_l (seg_size_ m))).

(** *** [block_adws<BlockSize>] (the reverse-block policy); it has the
    same fields as [block]. *)
Definition block_adws_new (size n_inter_ranks n_intra_ranks : Z) : block :=
  mk_block size n_inter_ranks n_intra_ranks
           (divu (subu (addu size BlockSize) 1) BlockSize).

Definition block_adws_get_seg_range (m : block) (seg_id : Z) : Z * Z :=
  let R := of_int (n_inter_ranks_ m) in
  let blk_id_b := divu (mulu (of_int seg_id) (n_blk_ m)) R in
  let blk_id_e := divu (mulu (of_int (addi seg_id 1)) (n_blk_ m)) R in
  (blk_id_b, blk_id_e).

Definition block_adws_local_size (m : block) (inter_rank : Z) : Z :=
  let seg_id := subi (subi (n_inter_ranks_ m) inter_rank) 1 in
  let '(blk_id_b, blk_id_e) := block_adws_get_seg_range m seg_id in
  mulu (Z.max 1 (subu blk_id_e blk_id_b)) BlockSize.

Definition block_adws_effective_size (m : block) : Z :=
  mulu (n_blk_ m) BlockSize.

Definition block_adws_get_segment (m : block) (offset : Z) : option segment :=
  ITYR_CHECK (offset <? block_adws_effective_size m) ;;
  let blk_id := divu offset BlockSize in
  let seg_id :=
    to_int (subu (divu (subu (addu (mulu (addu blk_id 1)
                                         (of_int (n_inter_ranks_ m)))
                                   (n_blk_ m)) 1)
                       (n_blk_ m)) 1) in
  let '(blk_id_b, blk_id_e) := block_adws_get_seg_range m seg_id in
  ITYR_CHECK (blk_id_b <=? blk_id) ;;
  ITYR_CHECK (blk_id <? blk_id_e) ;;
  Some (mk_segment (subi (subi (n_inter_ranks_ m) seg_id) 1)
                   (mulu blk_id_b BlockSize)
                   (mulu blk_id_e BlockSize)
                   0).

End policies.
End mem_mapper.

(** ** Virtual-memory reservation *)
Module vm.
Import machine.

(** How a call ends: it returns, it throws [mmap_noreplace_exception], or
    the process is gone ([die], or a failed [ITYR_CHECK]). *)
Inductive outcome (A : Type) : Type :=
| Ok (a : A)
| Throw
| Fatal.
Arguments Ok {A} a.
Arguments Throw {A}.
Arguments Fatal {A}.

#[export] Instance outcome_check_fail (A : Type) : CheckFail (outcome A) := Fatal.

Definition and_then {A B : Type} (c : outcome A) (k : A -> outcome B)
  : outcome B :=
  match c with
  | Ok a => k a
  | Throw => Throw
  | Fatal => Fatal
  end.

Notation "'call' x ':=' c 'in' k" := (and_then c (fun x => k))
  (at level 10, x name, c at level 100, k at level 200, only parsing).
Notation "'call' ' p ':=' c 'in' k" :=
  (and_then c (fun z => match z with p => k end))
  (at level 10, p pattern, c at level 100, k at level 200, only parsing).

(** *** The address space of one process

    The mapped intervals [[b, e)] of a process.  [mmap] and [munmap] work
    on whole pages. *)
Definition aspace : Type := list (Z * Z).

Definition overlaps (b e : Z) (r : Z * Z) : bool :=
  (fst r <? e) && (b <? snd r).

Definition is_free (sp : aspace) (b e : Z) : bool :=
  forallb (fun r => negb (overlaps b e r)) sp.

(** what is left of a mapping when [[b, e)] is unmapped *)
Definition cut (b e : Z) (r : Z * Z) : list (Z * Z) :=
  (if fst r <? Z.min (snd r) b then [(fst r, Z.min (snd r) b)] else []) ++
  (if Z.max (fst r) e <? snd r then [(Z.max (fst r) e, snd r)] else []).

Definition unmap (sp : aspace) (b e : Z) : aspace := flat_map (cut b e) sp.

Inductive mmap_result : Type :=
| Mapped (p : Z) (sp : aspace)
| EEXIST
| EOTHER.

Record virtual_mem : Type := mk_virtual_mem { addr_ : Z; size_ : Z }.

(** one process of the job: its address space and the local variables
    [vm] and [prev_vms] of [reserve_same_vm_coll] *)
Record proc : Type := mk_proc
  { sp : aspace; vm : virtual_mem; prev_vms : list virtual_mem }.

(** the variables every rank holds with the same value *)
Record job : Type := mk_job
  { procs : list proc; leader_rank : Z; alloc_size : Z; alloc_size_max : Z }.

Inductive round_result : Type :=
| RSuccess (ps : list proc)
| RRetry (g : job)
| RFatal.

(** run [f me p] on every rank, in rank order from [me]; the job is gone as
    soon as one process is *)
Fixpoint all_ranks {A B : Type} (f : Z -> A -> outcome B) (me : Z)
         (ps : list A) : outcome (list B) :=
  match ps with
  | [] => Ok []
  | p :: ps' =>
      call q := f me p in
      call qs := all_ranks f (me + 1) ps' in
      Ok (q :: qs)
  end.

(** [mpi_allreduce_value(failed_rank, comm, MPI_MAX)] *)
Definition allreduce_max (xs : list Z) : Z := fold_right Z.max (-1) xs.

Section process.
(** [get_page_size()] *)
Variable pagesize : Z.

(** [round_up_pow2] is declared in [ityr/common/util.hpp], which is not
    among the sources: modelled as rounding [x] up to the next multiple of
    the power of two [a], in [std::size_t]. *)
Definition round_up_pow2 (x a : Z) : Z := mulu (divu (subu (addu x a) 1) a) a.

(** *** The kernel *)

(** [mmap(nullptr, len, ...)]: the kernel picks the address; [pick] is its
    choice, granted when it is a free page-aligned range. *)
Definition sys_mmap_anywhere (pick len : Z) (s : aspace) : mmap_result :=
  if (0 <? pick) && (pick mod pagesize =? 0) && (0 <? len) &&
     is_free s pick (pick + round_up_pow2 len pagesize)
  then Mapped pick ((pick, pick + round_up_pow2 len pagesize) :: s)
  else EOTHER.

(** [mmap(addr, len, ..., MAP_FIXED_NOREPLACE)] *)
Definition sys_mmap_fixed_noreplace (addr len : Z) (s : aspace)
  : mmap_result :=
  if (addr mod pagesize =? 0) && (0 <? len) then
    if is_free s addr (addr + round_up_pow2 len pagesize)
    then Mapped addr ((addr, addr + round_up_pow2 len pagesize) :: s)
    else EEXIST
  else EOTHER.

(** [mmap(addr, len, ..., MAP_FIXED)] *)
Definition sys_mmap_fixed (addr len : Z) (s : aspace) : mmap_result :=
  if (addr mod pagesize =? 0) && (0 <? len) then
    Mapped addr ((addr, addr + round_up_pow2 len pagesize)
                 :: unmap s addr (addr + round_up_pow2 len pagesize))
  else EOTHER.

(** [::munmap(addr, len)]; [None] is the return value -1 *)
Definition sys_munmap (addr len : Z) (s : aspace) : option aspace :=
  if (addr mod pagesize =? 0) && (0 <? len)
  then Some (unmap s addr (addr + round_up_pow2 len pagesize))
  else None.

(** *** [munmap] and [mmap_no_physical_mem] *)
Definition munmap (addr size : Z) (s : aspace) : outcome aspace :=
  ITYR_CHECK (0 <? size) ;;
  ITYR_CHECK (addr mod pagesize =? 0) ;;
  match sys_munmap addr size s with
  | Some s' => Ok s'
  | None => Fatal
  end.

Definition mmap_no_physical_mem (pick : Z) (addr size : Z) (replace : bool)
           (alignment : Z) (s : aspace) : outcome (Z * aspace) :=
  if addr =? 0 then
    let alloc_size := addu size alignment in
    match sys_mmap_anywhere pick alloc_size s with
    | EEXIST => Throw
    | EOTHER => Fatal
    | Mapped allocated_p s1 =>
        let allocated_addr := allocated_p in
        ITYR_CHECK (allocated_addr mod pagesize =? 0) ;;
        let ret_addr := round_up_pow2 allocated_addr alignment in
        ITYR_CHECK (ret_addr mod pagesize =? 0) ;;
        ITYR_CHECK (allocated_addr <=? ret_addr) ;;
        call s2 := (if 0 <? subu ret_addr allocated_addr
                    then munmap allocated_p (subu ret_addr allocated_addr) s1
                    else Ok s1) in
        let allocated_addr_end := addu allocated_addr alloc_size in
        let ret_page_end := round_up_pow2 (addu ret_addr size) pagesize in
        ITYR_CHECK (ret_page_end <=? allocated_addr_end) ;;
        call s3 := (if 0 <? subu allocated_addr_end ret_page_end
                    then munmap ret_page_end
                                (subu allocated_addr_end ret_page_end) s2
                    else Ok s2) in
        Ok (ret_addr, s3)
    end
  else
    ITYR_CHECK (addr mod alignment =? 0) ;;
    let alloc_size := size in
    match (if replace then sys_mmap_fixed addr alloc_size s
           else sys_mmap_fixed_noreplace addr alloc_size s) with
    | EEXIST => Throw
    | EOTHER => Fatal
    | Mapped allocated_p s1 =>
        ITYR_CHECK (addr =? allocated_p) ;;
        Ok (allocated_p, s1)
    end.

(** *** [virtual_mem] *)

(** [virtual_mem()]: [addr_] is null; [size_] has no initialiser and is
    never read while [addr_] is null, so any value models it. *)
Definition vm_empty : virtual_mem := mk_virtual_mem 0 0.

(** [virtual_mem(size, alignment)] *)
Definition vm_anywhere (pick size alignment : Z) (s : aspace)
  : outcome (virtual_mem * aspace) :=
  call '(a, s') := mmap_no_physical_mem pick 0 size false alignment s in
  Ok (mk_virtual_mem a size, s').

(** [virtual_mem(addr, size, alignment)] *)
Definition vm_at (addr size alignment : Z) (s : aspace)
  : outcome (virtual_mem * aspace) :=
  call '(a, s') := mmap_no_physical_mem 0 addr size false alignment s in
  Ok (mk_virtual_mem a size, s').

Definition vm_destroy (v : virtual_mem) (s : aspace) : outcome aspace :=
  if addr_ v =? 0 then Ok s else munmap (addr_ v) (size_ v) s.

(** [this = std::move(from)]; the moved-from temporary is left null *)
Definition vm_move_assign (this from : virtual_mem) (s : aspace)
  : outcome (virtual_mem * aspace) :=
  call s' := vm_destroy this s in
  Ok (mk_virtual_mem (addr_ from) (size_ from), s').

Definition vm_shrink (to_size : Z) (v : virtual_mem) (s : aspace)
  : outcome (virtual_mem * aspace) :=
  ITYR_CHECK (negb (addr_ v =? 0)) ;;
  ITYR_CHECK (to_size <=? size_ v) ;;
  let curr_page_end := round_up_pow2 (size_ v) pagesize in
  let next_page_end := round_up_pow2 to_size pagesize in
  call s' := (if next_page_end <? curr_page_end
              then munmap (addu (addr_ v) next_page_end)
                          (subu curr_page_end next_page_end) s
              else Ok s) in
  Ok (mk_virtual_mem (addr_ v) to_size, s').

(** *** One round of [reserve_same_vm_coll] *)
Section round.
Variables (size alignment : Z).

(** the leader: [vm = virtual_mem(alloc_size, alignment)] *)
Definition leader_part (pick asz : Z) (p : proc) : outcome proc :=
  call '(tmp, s1) := vm_anywhere pick asz alignment (sp p) in
  call '(v, s2) := vm_move_assign (vm p) tmp s1 in
  Ok (mk_proc s2 v (prev_vms p)).

(** a follower unmaps the earlier reservations that overlap the range
    the leader broadcast *)
Definition overlaps_range (vm_addr asz : Z) (prev_vm : virtual_mem) : bool :=
  (addr_ prev_vm <? addu vm_addr asz) &&
  (vm_addr <? addu (addr_ prev_vm) (size_ prev_vm)).

Fixpoint unmap_overlapping (vm_addr asz : Z) (prev : list virtual_mem)
         (s : aspace) : outcome (list virtual_mem * aspace) :=
  match prev with
  | [] => Ok ([], s)
  | prev_vm :: rest =>
      call '(prev_vm', s1) :=
        (if overlaps_range vm_addr asz prev_vm
         then vm_move_assign prev_vm vm_empty s
         else Ok (prev_vm, s)) in
      call '(rest', s2) := unmap_overlapping vm_addr asz rest s1 in
      Ok (prev_vm' :: rest', s2)
  end.

(** a follower; the second component is its [failed_rank] *)
Definition follower_part (vm_addr asz me : Z) (p : proc)
  : outcome (proc * Z) :=
  call '(prev', s1) := unmap_overlapping vm_addr asz (prev_vms p) (sp p) in
  match vm_at vm_addr asz alignment s1 with
  | Ok (tmp, s2) =>
      call '(v, s3) := vm_move_assign (vm p) tmp s2 in
      Ok (mk_proc s3 v prev', -1)
  | Throw => Ok (mk_proc s1 (vm p) prev', me)
  | Fatal => Fatal
  end.

(** success: [vm.shrink(size); return vm;], and [prev_vms] goes out of
    scope *)
Fixpoint destroy_all (prev : list virtual_mem) (s : aspace)
  : outcome aspace :=
  match prev with
  | [] => Ok s
  | v :: rest => call s1 := vm_destroy v s in destroy_all rest s1
  end.

Definition finish (p : proc) : outcome proc :=
  call '(v, s1) := vm_shrink size (vm p) (sp p) in
  call s2 := destroy_all (prev_vms p) s1 in
  Ok (mk_proc s2 v []).

(** failure of the round: a process that did not fail keeps its
    reservation, [prev_vms.push_back(std::move(vm))] *)
Definition keep (pf : proc * Z) : proc :=
  let '(p, failed_rank) := pf in
  if failed_rank =? -1
  then mk_proc (sp p) (mk_virtual_mem 0 (size_ (vm p)))
               (prev_vms p ++ [vm p])
  else p.

(** the first half of an iteration, up to the [try]: the address the
    leader broadcasts, and every rank's state with its [failed_rank] *)
Definition attempts (pick : Z) (g : job) : outcome (Z * list (proc * Z)) :=
  match procs g !! Z.to_nat (leader_rank g) with
  | None => Fatal
  | Some pl =>
      call pl' := leader_part pick (alloc_size g) pl in
      let vm_addr := addr_ (vm pl') in
      call rs := all_ranks
                   (fun me p =>
                      if me =? leader_rank g then Ok (pl', -1)
                      else follower_part vm_addr (alloc_size g) me p)
                   0 (procs g) in
      Ok (vm_addr, rs)
  end.

Definition round (pick : Z) (g : job) : round_result :=
  match attempts pick g with
  | Ok (vm_addr, rs) =>
      let failed_rank_max := allreduce_max (map snd rs) in
      if failed_rank_max =? -1 then
        match all_ranks (fun _ pf => finish (fst pf)) 0 rs with
        | Ok ps => RSuccess ps
        | _ => RFatal
        end
      else
        RRetry (mk_job (map keep rs) failed_rank_max
                       (Z.min (alloc_size_max g) (mulu 2 (alloc_size g)))
                       (alloc_size_max g))
  | _ => RFatal
  end.

(** the loop [for (n_trial = 0; n_trial <= max_trial; n_trial++)]: [n] is
    the number of iterations left; [picks n_trial] is what the kernel
    offers the leader of that iteration.  Leaving the loop is [die]. *)
Fixpoint trials (picks : Z -> Z) (n : nat) (n_trial : Z) (g : job)
  : outcome (list proc) :=
  match n with
  | O => Fatal
  | S n' =>
      match round (picks n_trial) g with
      | RSuccess ps => Ok ps
      | RRetry g' => trials picks n' (n_trial + 1) g'
      | RFatal => Fatal
      end
  end.

(** the job after [k] iterations that all failed, if they did *)
Fixpoint retries (picks : Z -> Z) (k : nat) (n_trial : Z) (g : job)
  : option job :=
  match k with
  | O => Some g
  | S k' =>
      match round (picks n_trial) g with
      | RRetry g' => retries picks k' (n_trial + 1) g'
      | _ => None
      end
  end.

Definition max_trial : Z := 100.

Definition initial_job (ps : list proc) : job :=
  let alloc_size := round_up_pow2 size pagesize in
  mk_job ps 0 alloc_size (Z.max alloc_size (Z.shiftl 1 40)).

(** every process enters with empty [vm] and [prev_vms] *)
Definition enter (s : aspace) : proc := mk_proc s vm_empty [].

Definition reserve_same_vm_coll (picks : Z -> Z) (spaces : list aspace)
  : outcome (list proc) :=
  ITYR_CHECK (0 <? size) ;;
  trials picks (Z.to_nat (max_trial + 1)) 0 (initial_job (map enter spaces)).

End round.
End process.
End vm.

(** ** Checkout spans *)
Module span.

(** The calls into [ityr::ori] that a span makes, in program order.  The
    checkout mode is the class's template parameter and is the same for all
    calls of one span type.  [ev_checkout gptr n ptr]: [ori::checkout(gptr,
    n, Mode{})] returned [ptr]. *)
Inductive ori_event : Type :=
| ev_checkout (gptr n ptr : Z)
| ev_checkout_nb (gptr n ptr : Z)
| ev_checkin (ptr n : Z).

Definition trace : Type := list ori_event.

(** the two data members; the null pointer is 0 *)
Record checkout_span : Type := mk_span { ptr_ : Z; n_ : Z }.

Definition data (cs : checkout_span) : Z := ptr_ cs.
Definition size (cs : checkout_span) : Z := n_ cs.
Definition empty (cs : checkout_span) : bool := n_ cs =? 0.

Section spans.
(** [ityr/ori/ori.hpp] is not among the sources: the pointers that
    [ori::checkout] and [ori::checkout_nb(...).first] return are
    parameters. *)
Variables (ori_checkout ori_checkout_nb : Z -> Z -> Z).

(** [checkout_span() {}] *)
Definition span_default : checkout_span := mk_span 0 0.

(** the member initialisers of [checkout_span(gptr, n, Mode)] *)
Definition span_init (gptr n : Z) (tr : trace) : checkout_span * trace :=
  if negb (gptr =? 0) && (0 <? n)
  then (mk_span (ori_checkout gptr n) n,
        tr ++ [ev_checkout gptr n (ori_checkout gptr n)])
  else (mk_span 0 n, tr).

(** [checkout_span(gptr, n, Mode)]: the initialisers, then the body's
    [ITYR_CHECK] *)
Definition span_new (gptr n : Z) (tr : trace) : option checkout_span * trace :=
  let '(cs, tr') := span_init gptr n tr in
  (ITYR_CHECK ((negb (ptr_ cs =? 0) && (0 <? n_ cs)) ||
               ((ptr_ cs =? 0) && (n =? 0))) ;;
   Some cs,
   tr').

(** [destroy()], the body of the destructor *)
Definition destroy (cs : checkout_span) (tr : trace) : trace :=
  if negb (ptr_ cs =? 0) then tr ++ [ev_checkin (ptr_ cs) (n_ cs)] else tr.

(** [checkout_span(checkout_span&& cs)]: the new span, and [cs] afterwards *)
Definition span_move (cs : checkout_span) : checkout_span * checkout_span :=
  (mk_span (ptr_ cs) (n_ cs), mk_span 0 0).

(** [checkin()] *)
Definition checkin (cs : checkout_span) (tr : trace) : checkout_span * trace :=
  if negb (ptr_ cs =? 0)
  then (mk_span 0 0, tr ++ [ev_checkin (ptr_ cs) (n_ cs)])
  else (cs, tr).

(** [checkout(gptr, n, Mode)] *)
Definition checkout (cs : checkout_span) (gptr n : Z) (tr : trace)
  : checkout_span * trace :=
  let '(_, tr1) := checkin cs tr in
  (mk_span (ori_checkout gptr n) n,
   tr1 ++ [ev_checkout gptr n (ori_checkout gptr n)]).

(** [checkout_nb(gptr, n, Mode)] *)
Definition checkout_nb (cs : checkout_span) (gptr n : Z) (tr : trace)
  : checkout_span * trace :=
  let '(_, tr1) := checkin cs tr in
  (mk_span (ori_checkout_nb gptr n) n,
   tr1 ++ [ev_checkout_nb gptr n (ori_checkout_nb gptr n)]).

(** *** Spans as objects

    The span objects of a scope, by slot; [None] is a slot whose object
    does not exist (not yet constructed, or destroyed).  Operations go
    through the store, so that [x = std::move(x)] acts on one object. *)
Definition store : Type := list (option checkout_span).

(** [operator=(checkout_span&& cs)] on the objects [x] and [y] *)
Definition move_assign (x y : nat) (st : store) (tr : trace)
  : option (store * trace) :=
  match st !! x with
  | Some (Some this) =>
      let tr1 := destroy this tr in
      match st !! y with
      | Some (Some cs) =>
          (* ptr_ = cs.ptr_; n_ = cs.n_; *)
          let st1 := <[x := Some (mk_span (ptr_ cs) (n_ cs))]> st in
          (* cs.ptr_ = nullptr; cs.n_ = 0; *)
          let st2 := <[y := Some (mk_span 0 0)]> st1 in
          Some (st2, tr1)
      | _ => None
      end
  | _ => None
  end.

(** what client code can do with spans: there is no copy, the copy
    constructor and the copy assignment being deleted *)
Inductive op : Type :=
| Construct (x : nat) (gptr n : Z)
| Default (x : nat)
| MoveConstruct (x y : nat)
| MoveAssign (x y : nat)
| Checkin (x : nat)
| Checkout (x : nat) (gptr n : Z)
| CheckoutNb (x : nat) (gptr n : Z)
| Destroy (x : nat).

(** one operation; [None] when it names an object that does not exist, or
    a slot that is taken, or when an [ITYR_CHECK] fails *)
Definition step (o : op) (st : store) (tr : trace) : option (store * trace) :=
  match o with
  | Construct x gptr n =>
      match st !! x with
      | Some None =>
          match span_new gptr n tr with
          | (Some cs, tr') => Some (<[x := Some cs]> st, tr')
          | (None, _) => None
          end
      | _ => None
      end
  | Default x =>
      match st !! x with
      | Some None => Some (<[x := Some span_default]> st, tr)
      | _ => None
      end
  | MoveConstruct x y =>
      match st !! x, st !! y with
      | Some None, Some (Some cs) =>
          let '(new, cs') := span_move cs in
          Some (<[x := Some new]> (<[y := Some cs']> st), tr)
      | _, _ => None
      end
  | MoveAssign x y => move_assign x y st tr
  | Checkin x =>
      match st !! x with
      | Some (Some cs) =>
          let '(cs', tr') := checkin cs tr in
          Some (<[x := Some cs']> st, tr')
      | _ => None
      end
  | Checkout x gptr n =>
      match st !! x with
      | Some (Some cs) =>
          let '(cs', tr') := checkout cs gptr n tr in
          Some (<[x := Some cs']> st, tr')
      | _ => None
      end
  | CheckoutNb x gptr n =>
      match st !! x with
      | Some (Some cs) =>
          let '(cs', tr') := checkout_nb cs gptr n tr in
          Some (<[x := Some cs']> st, tr')
      | _ => None
      end
  | Destroy x =>
      match st !! x with
      | Some (Some cs) => Some (<[x := None]> st, destroy cs tr)
      | _ => None
      end
  end.

Fixpoint run (prog : list op) (st : store) (tr : trace)
  : option (store * trace) :=
  match prog with
  | [] => Some (st, tr)
  | o :: rest =>
      match step o st tr with
      | Some (st', tr') => run rest st' tr'
      | None => None
      end
  end.

End spans.

(** *** Counting regions *)

Definition region_eqb (a b : Z * Z) : bool :=
  (fst a =? fst b) && (snd a =? snd b).

Definition count (k : Z * Z) (l : list (Z * Z)) : nat :=
  length (filter (fun r => region_eqb k r = true) l).

(** the region a span holds *)
Definition holding (cs : checkout_span) : list (Z * Z) :=
  if negb (ptr_ cs =? 0) then [(ptr_ cs, n_ cs)] else [].

Definition hold (o : option checkout_span) : list (Z * Z) :=
  match o with Some cs => holding cs | None => [] end.

Definition held (st : store) : list (Z * Z) := flat_map hold st.

(** the regions checked out (those with a non-null pointer), and the
    regions checked in *)
Definition checked_out (tr : trace) : list (Z * Z) :=
  flat_map (fun e => match e with
                     | ev_checkout _ n p | ev_checkout_nb _ n p =>
                         if negb (p =? 0) then [(p, n)] else []
                     | ev_checkin _ _ => []
                     end) tr.

Definition checked_in (tr : trace) : list (Z * Z) :=
  flat_map (fun e => match e with
                     | ev_checkin p n => [(p, n)]
                     | _ => []
                     end) tr.

(** every region checked out so far is either held by a live span or has
    been checked in, once *)
Definition balanced (st : store) (tr : trace) : Prop :=
  forall k, count k (checked_out tr)
            = (count k (checked_in tr) + count k (held st))%nat.

End span.

(** ** The parallel reduction *)
Module reduce.
Import machine.

(** a release handle, as [ori::release_lazy()] returns it: tokens are
    numbered in the order in which they are made *)
Definition handle : Type := nat.

(** the callbacks that [parallel_reduce_generic] hands to the scheduler *)
Inductive callback : Type :=
| cb_acquire_handle (rh : handle)   (* [=] { ori::acquire(rh); } *)
| cb_release                        (* [] { ori::release(); } *)
| cb_acquire.                       (* [] { ori::acquire(); } *)

(** what one invocation does, in program order.  [thread] is the
    construction of [ito::thread th] with its callbacks, its body and the
    answer of [th.serialized()]; [call] is a direct recursive call. *)
Inductive event : Type :=
| ori_poll
| ito_poll (rh : handle)
| for_each_aux (first last : Z)
| task_group_begin
| thread (on_enter on_exit : callback) (body : list event) (serialized : bool)
| join
| call (rh : handle) (first last : Z) (body : list event)
| release_lazy (h : handle)
| release
| acquire
| task_group_end (on_release on_acquire : callback)
| combine_op (first mid last : Z).

Section reduction.
(** [th.serialized()] is the scheduler's answer; [serialized path] is the
    answer for the thread of the invocation reached from the root by
    [path] ([false]: the child, [true]: the right half). *)
Variable serialized : list bool -> bool.
(** [policy.cutoff_count] *)
Variable cutoff_count : Z.

(** [parallel_reduce_generic(policy, ..., acc, rh, first, last)], the
    overload that returns the accumulator.  [fresh] is the next token
    [ori::release_lazy()] returns; the result is the events of the
    invocation and the next token afterwards.  [None]: out of fuel. *)
Fixpoint parallel_reduce_generic (fuel : nat) (path : list bool)
         (rh : handle) (first last : Z) (fresh : handle)
  : option (list event * handle) :=
  match fuel with
  | O => None
  | S fuel' =>
      let d := last - first in
      if wrap d <=? cutoff_count then
        Some ([ori_poll; ito_poll rh; for_each_aux first last], fresh)
      else
        let mid := first + Z.quot d 2 in
        match parallel_reduce_generic fuel' (false :: path) rh first mid
                                      fresh with
        | None => None
        | Some (child, fresh1) =>
            let th := thread (cb_acquire_handle rh) cb_release
                             [call rh first mid child] (serialized path) in
            if serialized path then
              match parallel_reduce_generic fuel' (true :: path) rh mid last
                                            fresh1 with
              | None => None
              | Some (rhalf, fresh2) =>
                  Some ([ori_poll; ito_poll rh; task_group_begin; th;
                         join; call rh mid last rhalf;
                         task_group_end cb_release cb_acquire],
                        fresh2)
              end
            else
              let rh' := fresh1 in
              match parallel_reduce_generic fuel' (true :: path) rh' mid last
                                            (S fresh1) with
              | None => None
              | Some (rhalf, fresh2) =>
                  Some ([ori_poll; ito_poll rh; task_group_begin; th;
                         release_lazy rh'; call rh' mid last rhalf;
                         release; join;
                         task_group_end cb_release cb_acquire;
                         acquire; combine_op first mid last],
                        fresh2)
              end
        end
  end.

End reduction.

(** every event of a trace, at every depth *)
Fixpoint all_events (e : event) : list event :=
  e :: match e with
       | thread _ _ body _ => flat_map all_events body
       | call _ _ _ body => flat_map all_events body
       | _ => []
       end.

(** *** The release/acquire discipline

    [disciplined rh lo evs hi]: [evs] is the trace of an invocation that
    was given the handle [rh], made while the tokens from [lo] up to [hi]
    were handed out.  The child is spawned with the callbacks
    [acquire(rh)] and [release()] and is called with [rh]; when it is not
    serialized, the next event is [release_lazy], the right half is
    called with the new token, and [release] comes right before [join]. *)
Inductive disciplined : handle -> handle -> list event -> handle -> Prop :=
| disc_leaf (rh lo : handle) (first last : Z) :
    disciplined rh lo [ori_poll; ito_poll rh; for_each_aux first last] lo
| disc_serialized (rh lo h1 h2 : handle) (first mid last : Z)
                  (child rhalf : list event) :
    disciplined rh lo child h1 ->
    disciplined rh h1 rhalf h2 ->
    disciplined rh lo
      [ori_poll; ito_poll rh; task_group_begin;
       thread (cb_acquire_handle rh) cb_release [call rh first mid child] true;
       join; call rh mid last rhalf;
       task_group_end cb_release cb_acquire]
      h2
| disc_migrated (rh lo h1 h2 : handle) (first mid last : Z)
                (child rhalf : list event) :
    disciplined rh lo child h1 ->
    disciplined h1 (S h1) rhalf h2 ->
    disciplined rh lo
      [ori_poll; ito_poll rh; task_group_begin;
       thread (cb_acquire_handle rh) cb_release [call rh first mid child] false;
       release_lazy h1; call h1 mid last rhalf;
       release; join;
       task_group_end cb_release cb_acquire;
       acquire; combine_op first mid last]
      h2.

(** the callbacks of a thread are [acquire] on some handle and [release] *)
Definition thread_callbacks_ok (e : event) : Prop :=
  match e with
  | thread on_enter on_exit _ _ =>
      on_exit = cb_release /\ exists h, on_enter = cb_acquire_handle h
  | _ => True
  end.

(** the handles that [release_lazy] returned, and the threads that
    migrated *)
Definition is_release_lazy (e : event) : bool :=
  match e with release_lazy _ => true | _ => false end.

Definition is_migrated_thread (e : event) : bool :=
  match e with thread _ _ _ false => true | _ => false end.

Fixpoint count_if (f : event -> bool) (l : list event) : nat :=
  match l with
  | [] => O
  | e :: l' => ((if f e then 1 else 0) + count_if f l')%nat
  end.

End reduce.

(** ** The NUMA level of the memory mapper

    [get_numa_segment] and [should_map_all_home] of the three policies of
    [include/ityr/ori/mem_mapper.hpp]. *)
Module mem_mapper_numa.
Import machine mem_mapper.

Record numa_segment : Type := mk_numa_segment
  { owner : Z; pm_offset_b : Z; pm_offset_e : Z }.

Section policies.
Variable BlockSize : Z.

(** *** [block<BlockSize>] *)
Definition block_get_numa_segment (m : block) (inter_rank pm_offset : Z)
  : option numa_segment :=
  ITYR_CHECK (pm_offset <? block_local_size BlockSize m inter_rank) ;;
  let n_numa_blk :=
    divu (subu (addu (block_local_size BlockSize m inter_rank) BlockSize) 1)
         BlockSize in
  let blk_id := divu pm_offset BlockSize in
  let seg_id :=
    to_int (divu (mulu blk_id (of_int (n_intra_ranks_ m))) n_numa_blk) in
  let blk_id_b :=
    divu (subu (addu (mulu (of_int seg_id) n_numa_blk)
                     (of_int (n_intra_ranks_ m))) 1)
         (of_int (n_intra_ranks_ m)) in
  let blk_id_e :=
    divu (subu (addu (mulu (of_int (addi seg_id 1)) n_numa_blk)
                     (of_int (n_intra_ranks_ m))) 1)
         (of_int (n_intra_ranks_ m)) in
  ITYR_CHECK (blk_id_b <=? blk_id) ;;
  ITYR_CHECK (blk_id <? blk_id_e) ;;
  Some (mk_numa_segment seg_id
                        (mulu blk_id_b BlockSize)
                        (mulu blk_id_e BlockSize)).

Definition block_should_map_all_home (m : block) : bool := true.

(** *** [cyclic<BlockSize>]: interleave all *)
Definition cyclic_get_numa_segment (m : cyclic) (inter_rank pm_offset : Z)
  : option numa_segment :=
  Some (mk_numa_segment (-1) 0 (cyclic_local_size m inter_rank)).

Definition cyclic_should_map_all_home (m : cyclic) : bool := false.

(** *** [block_adws<BlockSize>] *)
Definition block_adws_get_numa_segment (m : block) (inter_rank pm_offset : Z)
  : option numa_segment :=
  ITYR_CHECK (pm_offset <? block_adws_local_size BlockSize m inter_rank) ;;
  let n_numa_blk :=
    divu (subu (addu (block_adws_local_size BlockSize m inter_rank)
                     BlockSize) 1)
         BlockSize in
  let blk_id := divu pm_offset BlockSize in
  let seg_id :=
    to_int (subu (divu (subu (addu (mulu (addu blk_id 1)
                                         (of_int (n_intra_ranks_ m)))
                                   n_numa_blk) 1)
                       n_numa_blk) 1) in
  let blk_id_b :=
    divu (mulu (of_int seg_id) n_numa_blk) (of_int (n_intra_ranks_ m)) in
  let blk_id_e :=
    divu (mulu (of_int (addi seg_id 1)) n_numa_blk)
         (of_int (n_intra_ranks_ m)) in
  ITYR_CHECK (blk_id_b <=? blk_id) ;;
  ITYR_CHECK (blk_id <? blk_id_e) ;;
  Some (mk_numa_segment (subi (subi (n_intra_ranks_ m) seg_id) 1)
                        (mulu blk_id_b BlockSize)
                        (mulu blk_id_e BlockSize)).

Definition block_adws_should_map_all_home (m : block) : bool := true.

End policies.
End mem_mapper_numa.

(** ** Execution policies and the serial loop

    [include/ityr/pattern/serial_loop.hpp]. *)
Module serial_loop.
Import machine.

Module sequenced_policy.
Record t : Type := mk { checkout_count : Z }.
(** [sequenced_policy()] *)
Definition default : t := mk 1.
End sequenced_policy.

Module parallel_policy.
Record t : Type := mk { cutoff_count : Z; checkout_count : Z }.
(** [parallel_policy()] *)
Definition default : t := mk 1 1.
(** [parallel_policy(cutoff_count)] *)
Definition of_cutoff (cutoff_count : Z) : t := mk cutoff_count cutoff_count.
End parallel_policy.

(** [to_sequenced_policy(const parallel_policy&)] *)
Definition to_sequenced_policy (opts : parallel_policy.t)
  : sequenced_policy.t :=
  sequenced_policy.mk (parallel_policy.checkout_count opts).

(** how a loop ends: it is left, an [ITYR_CHECK] fails, or it is still
    running when the fuel is used up *)
Inductive loop_result (A : Type) : Type :=
| Done (a : A)
| CheckFailed
| OutOfFuel.
Arguments Done {A} a.
Arguments CheckFailed {A}.
Arguments OutOfFuel {A}.

#[export] Instance loop_result_check_fail (A : Type)
  : CheckFail (loop_result A) := CheckFailed.

(** [assert_policy(const sequenced_policy&)] and
    [assert_policy(const parallel_policy&)] *)
Definition assert_policy_seq {A : Type} (opts : sequenced_policy.t)
           (k : loop_result A) : loop_result A :=
  ITYR_CHECK (0 <? sequenced_policy.checkout_count opts) ;; k.

Definition assert_policy_par {A : Type} (opts : parallel_policy.t)
           (k : loop_result A) : loop_result A :=
  ITYR_CHECK (0 <? parallel_policy.checkout_count opts) ;;
  ITYR_CHECK (parallel_policy.checkout_count opts
              <=? parallel_policy.cutoff_count opts) ;;
  k.

Section loops.
(** the state the closure [op] works on, and the elements of the range;
    [op] is run on the elements in turn *)
Context {Acc Elem : Type}.
Variable op : Acc -> Elem -> Acc.
(** the elements of [[first, last)] *)
Variable xs : list Elem.

(** [apply_iterators(op, n, its...)] on the [n] elements from position
    [first] *)
Definition apply_iterators (n first : Z) (acc : Acc) : Acc :=
  fold_left op (firstn (Z.to_nat n) (skipn (Z.to_nat first) xs)) acc.

(** the loop [for (d = 0; d < n; d += c)] of [for_each_aux] over global
    iterators.  [first] is the position of the iterator, [cos] the
    checkouts made so far, each with its position and length; the
    [ITYR_CHECK(n > 0)] is that of [checkout_global_iterators_aux]. *)
Fixpoint for_each_aux_loop (fuel : nat) (n c d first : Z) (acc : Acc)
         (cos : list (Z * Z)) : loop_result (Acc * list (Z * Z)) :=
  match fuel with
  | O => OutOfFuel
  | S fuel' =>
      if d <? n then
        let n_ := Z.min (subu n d) c in
        ITYR_CHECK (0 <? n_) ;;
        for_each_aux_loop fuel' n c (addu d c) (first + n_)
                          (apply_iterators n_ first acc)
                          (cos ++ [(first, n_)])
      else Done (acc, cos)
  end.

(** [for_each_aux(policy, op, first, last)]; [global] says whether one of
    the iterators is a global iterator *)
Definition for_each_aux (fuel : nat) (global : bool)
           (policy : sequenced_policy.t) (acc : Acc)
  : loop_result (Acc * list (Z * Z)) :=
  if global then
    for_each_aux_loop fuel (Z.of_nat (length xs))
                      (sequenced_policy.checkout_count policy) 0 0 acc []
  else Done (fold_left op xs acc, []).

End loops.
End serial_loop.

(** ** The values of the parallel reduction

    The accumulator that [parallel_reduce_generic] returns (the overload
    that returns it), and [reduce_generic], [transform_reduce] and [reduce]
    on top of it.  Closures are taken to act on the accumulator only. *)
Module reduce_values.
Import machine serial_loop.

Section reduction.
Context {Acc Elem : Type}.
(** [th.serialized()], as in [reduce.parallel_reduce_generic] *)
Variable serialized : list bool -> bool.
(** [accumulate_op(acc, *it)] *)
Variable accumulate_op : Acc -> Elem -> Acc.
(** [combine_op(acc, acc_r, first, mid, last)]: the iterators give it the
    elements of [[first, mid)] and [[mid, last)] *)
Variable combine_op : Acc -> Acc -> list Elem -> list Elem -> Acc.
(** [reducer.identity()] *)
Variable identity : Acc.
(** whether the iterators are global iterators *)
Variable global : bool.

Definition leaf (r : loop_result (Acc * list (Z * Z))) : loop_result Acc :=
  match r with
  | Done (acc, _) => Done acc
  | CheckFailed => CheckFailed
  | OutOfFuel => OutOfFuel
  end.

Fixpoint parallel_reduce_generic (policy : parallel_policy.t) (fuel : nat)
         (path : list bool) (acc : Acc) (xs : list Elem) : loop_result Acc :=
  match fuel with
  | O => OutOfFuel
  | S fuel' =>
      let d := Z.of_nat (length xs) in
      if wrap d <=? parallel_policy.cutoff_count policy then
        leaf (for_each_aux accumulate_op xs fuel global
                           (to_sequenced_policy policy) acc)
      else
        let mid := Z.to_nat (Z.quot d 2) in
        (* the body of [th] *)
        match parallel_reduce_generic policy fuel' (false :: path) acc
                                      (firstn mid xs) with
        | Done th =>
            if serialized path then
              parallel_reduce_generic policy fuel' (true :: path) th
                                      (skipn mid xs)
            else
              match parallel_reduce_generic policy fuel' (true :: path)
                                            identity (skipn mid xs) with
              | Done acc_r =>
                  Done (combine_op th acc_r (firstn mid xs) (skipn mid xs))
              | CheckFailed => CheckFailed
              | OutOfFuel => OutOfFuel
              end
        | CheckFailed => CheckFailed
        | OutOfFuel => OutOfFuel
        end
  end.

(** [reduce_generic(const sequenced_policy&, ...)] *)
Definition reduce_generic_seq (policy : sequenced_policy.t) (fuel : nat)
           (acc : Acc) (xs : list Elem) : loop_result Acc :=
  assert_policy_seq policy
    (leaf (for_each_aux accumulate_op xs fuel global policy acc)).

(** [reduce_generic(const parallel_policy&, ...)] *)
Definition reduce_generic_par (policy : parallel_policy.t) (fuel : nat)
           (acc : Acc) (xs : list Elem) : loop_result Acc :=
  assert_policy_par policy
    (parallel_reduce_generic policy fuel [] acc xs).

End reduction.

Section transform_reduce.
Context {Acc Elem T : Type}.
Variable serialized : list bool -> bool.
(** [reducer.foldl(acc, x)] and [reducer.identity()] *)
Variable foldl : Acc -> T -> Acc.
Variable foldl_acc : Acc -> Acc -> Acc.
Variable identity : Acc.
Variable unary_transform_op : Elem -> T.
Variable global : bool.

(** the two lambdas of [transform_reduce] *)
Definition accumulate_op (acc : Acc) (r : Elem) : Acc :=
  foldl acc (unary_transform_op r).

Definition combine_op (acc1 acc2 : Acc) (_ _ : list Elem) : Acc :=
  foldl_acc acc1 acc2.

Definition transform_reduce_seq (policy : sequenced_policy.t) (fuel : nat)
           (xs : list Elem) : loop_result Acc :=
  reduce_generic_seq accumulate_op global policy fuel identity xs.

Definition transform_reduce_par (policy : parallel_policy.t) (fuel : nat)
           (xs : list Elem) : loop_result Acc :=
  reduce_generic_par serialized accumulate_op combine_op identity global
                     policy fuel identity xs.

End transform_reduce.

End reduce_values.

(** ** The topology of the processes

    [include/ityr/common/topology.hpp].  The communicators and the process
    map come from MPI: the ranks and sizes of the three groups and the
    result of the [MPI_Allgather] of [create_process_map] are the
    arguments of the constructor. *)
Module topology.
Import machine.

Module process_map_entry.
Record t : Type := mk { intra_rank : Z; inter_rank : Z }.
End process_map_entry.

Record topology : Type := mk_topology
  { n_ranks : Z;
    intra_my_rank : Z; intra_n_ranks : Z;
    inter_my_rank : Z; inter_n_ranks : Z;
    process_map_ : list process_map_entry.t;
    intra2global_rank_ : list Z;
    inter2global_rank_ : list Z }.

Section create.
Variables (intra_my intra_n inter_my inter_n : Z).
Variable process_map : list process_map_entry.t.

(** the loop of [create_intra2global_rank], from rank [i] on *)
Fixpoint intra2global_loop (pm : list process_map_entry.t) (i : Z)
         (ret : list Z) : list Z :=
  match pm with
  | [] => ret
  | e :: rest =>
      intra2global_loop rest (i + 1)
                        (if process_map_entry.inter_rank e =? inter_my
                         then ret ++ [i]
                         else ret)
  end.

Definition create_intra2global_rank : option (list Z) :=
  let ret := intra2global_loop process_map 0 [] in
  ITYR_CHECK (Z.of_nat (length ret) =? of_int intra_n) ;;
  Some ret.

(** the loop of [create_inter2global_rank]; the assertion compares an
    [int] with [ret.size()] *)
Fixpoint inter2global_loop (pm : list process_map_entry.t) (i : Z)
         (ret : list Z) : option (list Z) :=
  match pm with
  | [] => Some ret
  | e :: rest =>
      if process_map_entry.intra_rank e =? intra_my then
        ITYR_CHECK (of_int (process_map_entry.inter_rank e)
                    =? Z.of_nat (length ret)) ;;
        inter2global_loop rest (i + 1) (ret ++ [i])
      else inter2global_loop rest (i + 1) ret
  end.

Definition create_inter2global_rank : option (list Z) :=
  match inter2global_loop process_map 0 [] with
  | Some ret =>
      ITYR_CHECK (Z.of_nat (length ret) =? of_int inter_n) ;;
      Some ret
  | None => None
  end.

(** the constructor: [process_map_] has [n_ranks()] entries *)
Definition topology_new : option topology :=
  match create_intra2global_rank with
  | Some i2g =>
      match create_inter2global_rank with
      | Some e2g =>
          Some (mk_topology (Z.of_nat (length process_map))
                            intra_my intra_n inter_my inter_n
                            process_map i2g e2g)
      | None => None
      end
  | None => None
  end.

End create.

(** [process_map_[i]], [intra2global_rank_[i]]: an index outside the
    vector is undefined behaviour, [None] here *)
Definition at_ {A : Type} (l : list A) (i : Z) : option A :=
  if i <? 0 then None else l !! Z.to_nat i.

Definition intra_rank (t : topology) (global_rank : Z) : option Z :=
  ITYR_CHECK (0 <=? global_rank) ;;
  ITYR_CHECK (global_rank <? n_ranks t) ;;
  option_map process_map_entry.intra_rank (at_ (process_map_ t) global_rank).

Definition inter_rank (t : topology) (global_rank : Z) : option Z :=
  ITYR_CHECK (0 <=? global_rank) ;;
  ITYR_CHECK (global_rank <? n_ranks t) ;;
  option_map process_map_entry.inter_rank (at_ (process_map_ t) global_rank).

Definition intra2global_rank (t : topology) (intra_rank : Z) : option Z :=
  ITYR_CHECK (0 <=? intra_rank) ;;
  ITYR_CHECK (intra_rank <? intra_n_ranks t) ;;
  at_ (intra2global_rank_ t) intra_rank.

Definition inter2global_rank (t : topology) (inter_rank : Z) : option Z :=
  ITYR_CHECK (0 <=? inter_rank) ;;
  ITYR_CHECK (inter_rank <? inter_n_ranks t) ;;
  ITYR_CHECK (inter_rank <? inter_n_ranks t) ;;
  at_ (inter2global_rank_ t) inter_rank.

Definition is_locally_accessible (t : topology) (target_global_rank : Z)
  : option bool :=
  option_map (fun r => r =? inter_my_rank t) (inter_rank t target_global_rank).

End topology.

(** ** Global spans

    [global_span] of [include/ityr/container/global_span.hpp].  A
    [global_ptr<T>] is an address; [ityr/ori/global_ptr.hpp] is not among
    the sources, and the pointer [p + k] is the parameter [ptr_add p k]. *)
Module global_span.
Import machine.

Record global_span : Type := mk_global_span { ptr_ : Z; n_ : Z }.

Definition data (s : global_span) : Z := ptr_ s.
Definition size (s : global_span) : Z := n_ s.
Definition empty (s : global_span) : bool := n_ s =? 0.

Section pointers.
Variable ptr_add : Z -> Z -> Z.

Definition begin_ (s : global_span) : Z := ptr_ s.
Definition end_ (s : global_span) : Z := ptr_add (ptr_ s) (n_ s).

(** [subspan(offset, count)]; the [assert] is evaluated, in
    [std::size_t] *)
Definition subspan (s : global_span) (offset count : Z)
  : option global_span :=
  ITYR_CHECK (addu offset count <=? n_ s) ;;
  Some (mk_global_span (ptr_add (ptr_ s) offset) count).

End pointers.

(** [global_span(global_span<U> s)] for a [global_span<T>], with
    [sizeof(U)] and [sizeof(T)] *)
Definition convert (sizeof_U sizeof_T : Z) (s : global_span) : global_span :=
  mk_global_span (ptr_ s) (divu (mulu (n_ s) sizeof_U) sizeof_T).

End global_span.

(** ** Making checkout spans

    [make_checkout] and [make_checkouts] of
    [include/ityr/container/checkout_span.hpp]. *)
Module checkouts.

(** a checkout request: [<global_ptr>, <num_elems>, <checkout_mode>] or
    [<global_span>, <checkout_mode>] *)
Inductive request : Type :=
| by_pointer (gptr n : Z)
| by_span (gspan : global_span.global_span).

(** the calls into [ityr::ori] of [make_checkouts] *)
Inductive ori_call : Type :=
| span_call (e : span.ori_event)
| checkout_complete.

Section making.
Variables (ori_checkout ori_checkout_nb : Z -> Z -> Z).

(** [make_checkout(gptr, n, mode)] and [make_checkout(gspan, mode)] *)
Definition make_checkout (gptr n : Z) (tr : span.trace)
  : option span.checkout_span * span.trace :=
  span.span_new ori_checkout gptr n tr.

Definition make_checkout_of_span (gspan : global_span.global_span)
           (tr : span.trace) : option span.checkout_span * span.trace :=
  span.span_new ori_checkout (global_span.data gspan)
                (global_span.size gspan) tr.

(** [make_checkouts_aux]: a default span, [checkout_nb] on it, then the
    rest of the requests *)
Fixpoint make_checkouts_aux (reqs : list request) (tr : span.trace)
  : list span.checkout_span * span.trace :=
  match reqs with
  | [] => ([], tr)
  | by_pointer gptr n :: rest =>
      let cs := span.span_default in
      let '(cs', tr1) := span.checkout_nb ori_checkout_nb cs gptr n tr in
      let '(css, tr2) := make_checkouts_aux rest tr1 in
      (cs' :: css, tr2)
  | by_span gspan :: rest =>
      let cs := span.span_default in
      let '(cs', tr1) :=
        span.checkout_nb ori_checkout_nb cs (global_span.data gspan)
                         (global_span.size gspan) tr in
      let '(css, tr2) := make_checkouts_aux rest tr1 in
      (cs' :: css, tr2)
  end.

(** [make_checkouts(args...)] *)
Definition make_checkouts (reqs : list request)
  : list span.checkout_span * list ori_call :=
  let '(css, tr) := make_checkouts_aux reqs [] in
  (css, map span_call tr ++ [checkout_complete]).

(** the destructors of the spans [css], run in the order of the list *)
Definition destroy_all (css : list span.checkout_span) (tr : span.trace)
  : span.trace :=
  fold_left (fun t cs => span.destroy cs t) css tr.

End making.
End checkouts.

(** ** Parallel search

    [include/ityr/pattern/parallel_search.hpp].  A range is the list of
    its elements, an iterator a position; elements are trivially
    copyable, so that the searches carry values with the iterators. *)
Module parallel_search.
Import machine serial_loop.

Section search.
Context {A : Type}.
(** [comp(a, b)] *)
Variable comp : A -> A -> bool.

(** *** The algorithms of the standard library

    A scan keeps the best element so far with its position; [replace y
    best] says whether the element [y] takes its place. *)
Fixpoint scan_from (replace : A -> A -> bool) (best : A * Z) (k : Z)
         (rest : list A) : A * Z :=
  match rest with
  | [] => best
  | y :: rest' =>
      scan_from replace (if replace y (fst best) then (y, k) else best)
                (k + 1) rest'
  end.

(** [std::min_element(f, l, comp)] on a range that is not empty: the
    first smallest element *)
Definition std_min_element (x : A) (rest : list A) : A * Z :=
  scan_from (fun y best => comp y best) (x, 0) 1 rest.

(** [std::max_element(f, l, comp)]: the first largest element *)
Definition std_max_element (x : A) (rest : list A) : A * Z :=
  scan_from (fun y best => comp best y) (x, 0) 1 rest.

(** [std::minmax_element(f, l, comp)]: the first smallest and the last
    largest element *)
Definition std_minmax_element (x : A) (rest : list A) : (A * Z) * (A * Z) :=
  (scan_from (fun y best => comp y best) (x, 0) 1 rest,
   scan_from (fun y best => negb (comp y best)) (x, 0) 1 rest).

(** *** [search_aux]

    [leaf_op] gets a range that is not empty, as its first element and
    the rest, and answers with positions inside this range, which [shift]
    turns into positions of the whole range.  [parallel_invoke] runs its
    two closures and returns their results. *)
Context {R : Type}.
Variable leaf_op : A -> list A -> R.
Variable shift : Z -> R -> R.
Variable select_op : R -> R -> R.

Fixpoint search_aux (cutoff_count : Z) (fuel : nat) (first : Z)
         (xs : list A) : loop_result R :=
  match fuel with
  | O => OutOfFuel
  | S fuel' =>
      let d := Z.of_nat (length xs) in
      if d <=? cutoff_count then
        (* [checkout_global_iterators(d, first)] *)
        ITYR_CHECK (0 <? d) ;;
        match xs with
        | x :: rest => Done (shift first (leaf_op x rest))
        | [] => CheckFailed
        end
      else
        let mid := divu d 2 in
        match search_aux cutoff_count fuel' first (firstn (Z.to_nat mid) xs),
              search_aux cutoff_count fuel' (first + mid)
                         (skipn (Z.to_nat mid) xs) with
        | Done r1, Done r2 => Done (select_op r1 r2)
        | CheckFailed, _ => CheckFailed
        | _, CheckFailed => CheckFailed
        | _, _ => OutOfFuel
        end
  end.

End search.

Section elements.
Context {A : Type}.
Variable comp : A -> A -> bool.

Definition shift1 (first : Z) (r : A * Z) : A * Z :=
  (fst r, first + snd r).

Definition shift2 (first : Z) (r : (A * Z) * (A * Z))
  : (A * Z) * (A * Z) :=
  (shift1 first (fst r), shift1 first (snd r)).

(** [min_element(policy, first, last, comp)]; the result is the position
    of the iterator returned *)
Definition min_element (cutoff_count : Z) (fuel : nat) (xs : list A)
  : loop_result Z :=
  if Z.of_nat (length xs) <=? 1 then Done 0
  else
    let leaf_op := std_min_element comp in
    let select_op := fun l r : A * Z => if comp (fst r) (fst l) then r else l in
    match search_aux leaf_op shift1 select_op cutoff_count fuel 0 xs with
    | Done (val, it) => Done it
    | CheckFailed => CheckFailed
    | OutOfFuel => OutOfFuel
    end.

(** [max_element(policy, first, last, comp)] *)
Definition max_element (cutoff_count : Z) (fuel : nat) (xs : list A)
  : loop_result Z :=
  if Z.of_nat (length xs) <=? 1 then Done 0
  else
    let leaf_op := std_max_element comp in
    let select_op := fun l r : A * Z => if comp (fst l) (fst r) then r else l in
    match search_aux leaf_op shift1 select_op cutoff_count fuel 0 xs with
    | Done (val, it) => Done it
    | CheckFailed => CheckFailed
    | OutOfFuel => OutOfFuel
    end.

(** [minmax_element(policy, first, last, comp)] *)
Definition minmax_element (cutoff_count : Z) (fuel : nat) (xs : list A)
  : loop_result (Z * Z) :=
  if Z.of_nat (length xs) <=? 1 then Done (0, 0)
  else
    let leaf_op := std_minmax_element comp in
    let select_op :=
      fun l r : (A * Z) * (A * Z) =>
        (if comp (fst (fst r)) (fst (fst l)) then fst r else fst l,
         if comp (fst (snd l)) (fst (snd r)) then snd r else snd l) in
    match search_aux leaf_op shift2 select_op cutoff_count fuel 0 xs with
    | Done ((min_val, min_it), (max_val, max_it)) => Done (min_it, max_it)
    | CheckFailed => CheckFailed
    | OutOfFuel => OutOfFuel
    end.

End elements.
End parallel_search.

(** * The vocabulary of the specification *)
Module spec.
Import machine mem_mapper.

(** [cdiv a b] is the mathematical ceiling of [a / b]; the floor is [a / b]
    itself. *)
Definition cdiv (a b : Z) : Z := - ((- a) / b).

(** The sizes are values of their types, the rank count is positive, and
    the two intermediate sums that could leave [std::size_t] do not:
    [size + BlockSize] in the constructor and [(seg_id + 1) * n_blk_ +
    n_inter_ranks_] in [get_seg_range]. *)
Definition block_fits (BS size R : Z) : Prop :=
  0 < BS < SIZE_MOD /\ 0 <= size /\ size + BS <= SIZE_MOD /\
  1 <= R <= INT_MAX /\ (cdiv size BS + 1) * R <= SIZE_MOD.

(** The segment size is a positive multiple of the block size (what the
    constructor checks), and the sums and products of [local_size_impl]
    and [effective_size] stay inside [std::size_t]. *)
Definition cyclic_fits (BS S size R : Z) : Prop :=
  0 < BS /\ BS <= S < SIZE_MOD /\ S mod BS = 0 /\
  0 <= size /\ size + S <= SIZE_MOD /\ 1 <= R <= INT_MAX /\
  cdiv size S + R <= SIZE_MOD /\
  cdiv (cdiv size S) R * S * R < SIZE_MOD.

(** As [block_fits]; here the sum that must not wrap is
    [(blk_id + 1) * n_inter_ranks_ + n_blk_] in [get_segment]. *)
Definition block_adws_fits (BS size R : Z) : Prop :=
  0 < BS < SIZE_MOD /\ 0 <= size /\ size + BS <= SIZE_MOD /\
  1 <= R <= INT_MAX /\ (R + 1) * cdiv size BS <= SIZE_MOD.

(** what the specification asks of the segment returned for [o] *)
Definition segment_ok (BS o : Z) (res : option segment) : Prop :=
  exists seg, res = Some seg /\
              offset_b seg <= o < offset_e seg /\
              (offset_e seg - offset_b seg) mod BS = 0.

(** [range seg_id = (blk_id_b, blk_id_e)] for [seg_id = 0 .. R - 1]: every
    range lies inside [[0, eff)], ranges of different ids do not overlap, and
    every offset below [eff] lies in the range of exactly one id. *)
Definition partitions (BS R eff : Z) (range : Z -> Z * Z) : Prop :=
  (forall r, 0 <= r < R ->
     0 <= fst (range r) <= snd (range r) /\ snd (range r) * BS <= eff)
  /\ (forall r1 r2, 0 <= r1 < r2 -> r2 < R -> snd (range r1) <= fst (range r2))
  /\ (forall o, 0 <= o < eff ->
        exists r, 0 <= r < R /\
                  fst (range r) * BS <= o < snd (range r) * BS /\
                  forall r', 0 <= r' < R ->
                    fst (range r') * BS <= o < snd (range r') * BS -> r' = r).

(** what the sweep of a follower leaves of its earlier reservations *)
Definition swept (a asz : Z) (prev : list vm.virtual_mem)
  : list vm.virtual_mem :=
  map (fun v => if vm.overlaps_range a asz v then vm.vm_empty else v) prev.

End spec.

(** * Further vocabulary for the properties of the remaining code *)
Module props.
Import machine mem_mapper spec.

(** a segment of the inter-node level read as a NUMA segment *)
Definition as_numa (seg : segment) : mem_mapper_numa.numa_segment :=
  mem_mapper_numa.mk_numa_segment (owner seg) (offset_b seg) (offset_e seg).

(** the length of the home block of a segment *)
Definition seg_len (seg : segment) : Z := offset_e seg - offset_b seg.

(** the sum of [f r] over the ranks [r = 0 .. R - 1] *)
Definition sum_ranks (f : Z -> Z) (R : Z) : Z :=
  fold_right Z.add 0 (map (fun i => f (Z.of_nat i)) (seq 0 (Z.to_nat R))).

(** whether the address [x] is mapped in the address space [s] *)
Definition mapped (s : vm.aspace) (x : Z) : bool :=
  existsb (fun r => (fst r <=? x) && (x <? snd r)) s.

(** whether [x] lies in [[b, e)] *)
Definition within (b e x : Z) : bool := (b <=? x) && (x <? e).

(** whether the reservation [v] holds the address [x]: a reservation holds
    the pages of [[addr, addr + size)] *)
Definition covers (P : Z) (v : vm.virtual_mem) (x : Z) : bool :=
  negb (vm.addr_ v =? 0) &&
  within (vm.addr_ v) (vm.addr_ v + cdiv (vm.size_ v) P * P) x.

(** how many of the reservations [vs] hold the address [x] *)
Definition holders (P : Z) (vs : list vm.virtual_mem) (x : Z) : Z :=
  fold_right (fun v n => Z.b2z (covers P v x) + n) 0 vs.

(** a reservation is null, or a page-aligned range of the address space *)
Definition reservation_ok (P : Z) (v : vm.virtual_mem) : Prop :=
  vm.addr_ v = 0 \/
  (0 < vm.addr_ v < 2 ^ 61 /\ vm.addr_ v mod P = 0 /\ 0 < vm.size_ v < 2 ^ 60).

(** the address space of [p] is made of [s0] and of the reservations [p]
    holds: every address is mapped as often as [s0] and the reservations
    together hold it, so that no reservation meets [s0] or another one *)
Definition accounted (P : Z) (s0 : vm.aspace) (p : vm.proc) : Prop :=
  Forall (reservation_ok P) (vm.vm p :: vm.prev_vms p) /\
  forall x, Z.b2z (mapped (vm.sp p) x)
            = Z.b2z (mapped s0 x) + holders P (vm.vm p :: vm.prev_vms p) x.

(** the state of the job at the beginning of an iteration of
    [reserve_same_vm_coll]: on every rank [vm] is null and the address space
    is accounted for, and the allocation size is positive and below its
    cap *)
Definition job_ok (P : Z) (spaces : list vm.aspace) (g : vm.job) : Prop :=
  length (vm.procs g) = length spaces /\
  (forall i s0 p, spaces !! i = Some s0 -> vm.procs g !! i = Some p ->
     accounted P s0 p /\ vm.addr_ (vm.vm p) = 0) /\
  0 < vm.alloc_size g <= vm.alloc_size_max g /\
  vm.alloc_size_max g < 2 ^ 60.

(** [tiles d n cos]: the checkouts [cos], each a position and a length,
    follow one another from [d] and end at [n], and none is empty *)
Inductive tiles : Z -> Z -> list (Z * Z) -> Prop :=
| tiles_done (n : Z) : tiles n n []
| tiles_next (d n len : Z) (rest : list (Z * Z)) :
    0 < len -> tiles (d + len) n rest -> tiles d n ((d, len) :: rest).

(** the global ranks, counted from [i], of the entries of a process map
    that satisfy [q], in increasing order *)
Fixpoint positions (q : topology.process_map_entry.t -> bool)
         (pm : list topology.process_map_entry.t) (i : Z) : list Z :=
  match pm with
  | [] => []
  | e :: rest => (if q e then [i] else []) ++ positions q rest (i + 1)
  end.

(** how many of the first [j] entries satisfy [q] *)
Definition count_before (q : topology.process_map_entry.t -> bool)
           (pm : list topology.process_map_entry.t) (j : nat) : nat :=
  length (List.filter q (firstn j pm)).

(** the entries of the processes of my node, and of the processes that
    have my rank within their node *)
Definition local_entry (inter_my : Z) (e : topology.process_map_entry.t)
  : bool :=
  topology.process_map_entry.inter_rank e =? inter_my.

Definition peer_entry (intra_my : Z) (e : topology.process_map_entry.t)
  : bool :=
  topology.process_map_entry.intra_rank e =? intra_my.

(** the ranks of a process map are values of [int] *)
Definition int_entry (e : topology.process_map_entry.t) : Prop :=
  - 2 ^ 31 <= topology.process_map_entry.intra_rank e <= INT_MAX /\
  - 2 ^ 31 <= topology.process_map_entry.inter_rank e <= INT_MAX.

(** the pointer and the length of a checkout request *)
Definition req_ptr (r : checkouts.request) : Z :=
  match r with
  | checkouts.by_pointer gptr _ => gptr
  | checkouts.by_span gspan => global_span.data gspan
  end.

Definition req_n (r : checkouts.request) : Z :=
  match r with
  | checkouts.by_pointer _ n => n
  | checkouts.by_span gspan => global_span.size gspan
  end.

Section extrema.
Context {A : Type}.
Variable comp : A -> A -> bool.

(** [x], at position [p], is the first smallest element of [xs]: no
    element is less than [x], and [x] is less than every element before
    it *)
Definition first_min (xs : list A) (p : nat) (x : A) : Prop :=
  xs !! p = Some x /\
  (forall j y, xs !! j = Some y -> comp y x = false) /\
  (forall i y, (i < p)%nat -> xs !! i = Some y -> comp x y = true).

(** [x], at position [p], is a largest, the first largest, the last
    largest element of [xs] *)
Definition is_max (xs : list A) (p : nat) (x : A) : Prop :=
  xs !! p = Some x /\ forall j y, xs !! j = Some y -> comp x y = false.

Definition first_max (xs : list A) (p : nat) (x : A) : Prop :=
  is_max xs p x /\
  forall i y, (i < p)%nat -> xs !! i = Some y -> comp y x = true.

Definition last_max (xs : list A) (p : nat) (x : A) : Prop :=
  is_max xs p x /\
  forall i y, (p < i)%nat -> xs !! i = Some y -> comp y x = true.

(** [comp] is a strict weak ordering *)
Definition strict_weak : Prop :=
  (forall a b, comp a b = true -> comp b a = false) /\
  (forall a b c, comp a b = false -> comp b c = false -> comp a c = false).

End extrema.

End props.

(** * Properties of the memory mapper *)
Import spec.

(** ** Floors and ceilings, as the specification writes them *)


Lemma div_interval (a b : Z) : 0 < b -> b * (a / b) <= a < b * (a / b) + b.
Proof.
  intros Hb. pose proof (Z.mul_div_le a b Hb).
  pose proof (Z.mul_succ_div_gt a b Hb). lia.
Qed.

Lemma div_from_interval (a b q : Z) :
  0 < b -> b * q <= a < b * q + b -> a / b = q.
Proof.
  intros Hb Hq. pose proof (div_interval a b Hb). nia.
Qed.

Lemma cdiv_interval (a b : Z) :
  0 < b -> (cdiv a b - 1) * b < a <= cdiv a b * b.
Proof.
  intros Hb. unfold cdiv. pose proof (div_interval (- a) b Hb). nia.
Qed.

Lemma cdiv_from_interval (a b q : Z) :
  0 < b -> (q - 1) * b < a <= q * b -> cdiv a b = q.
Proof.
  intros Hb Hq. pose proof (cdiv_interval a b Hb). nia.
Qed.

(** the way the source computes a ceiling *)
Lemma cdiv_code (a b : Z) : 0 < b -> (a + b - 1) / b = cdiv a b.
Proof.
  intros Hb. apply div_from_interval; [assumption|].
  pose proof (cdiv_interval a b Hb). nia.
Qed.

Lemma cdiv_least (a b k : Z) : 0 < b -> a <= k * b -> cdiv a b <= k.
Proof. intros Hb Hk. pose proof (cdiv_interval a b Hb). nia. Qed.

Lemma cdiv_above (a b k : Z) : 0 < b -> k * b < a -> k < cdiv a b.
Proof. intros Hb Hk. pose proof (cdiv_interval a b Hb). nia. Qed.

Lemma cdiv_mono (a a' b : Z) : 0 < b -> a <= a' -> cdiv a b <= cdiv a' b.
Proof.
  intros Hb Ha. apply cdiv_least; [assumption|].
  pose proof (cdiv_interval a' b Hb). lia.
Qed.

Lemma cdiv_nonneg (a b : Z) : 0 < b -> 0 <= a -> 0 <= cdiv a b.
Proof. intros Hb Ha. pose proof (cdiv_interval a b Hb). nia. Qed.

Lemma cdiv_0 (b : Z) : cdiv 0 b = 0.
Proof. unfold cdiv. simpl. rewrite Zdiv_0_l. reflexivity. Qed.

Lemma cdiv_mul (k b : Z) : 0 < b -> cdiv (k * b) b = k.
Proof. intros Hb. apply cdiv_from_interval; [assumption|]. nia. Qed.



Lemma floor_le (a b k : Z) : 0 < b -> k * b <= a -> k <= a / b.
Proof. intros Hb Hk. pose proof (div_interval a b Hb). nia. Qed.

Lemma floor_lt (a b k : Z) : 0 < b -> a < k * b -> a / b < k.
Proof. intros Hb Hk. pose proof (div_interval a b Hb). nia. Qed.

(** ** Machine arithmetic inside its range *)
Import machine.

Lemma SIZE_MOD_val : SIZE_MOD = 18446744073709551616.
Proof. reflexivity. Qed.

Lemma wrap_small (x : Z) : 0 <= x < SIZE_MOD -> wrap x = x.
Proof. intros H. unfold wrap. apply Z.mod_small. exact H. Qed.

Lemma to_int_small (x : Z) : - 2 ^ 31 <= x <= INT_MAX -> to_int x = x.
Proof.
  unfold to_int, INT_MAX. intros H.
  rewrite Z.mod_small by lia. lia.
Qed.

Lemma of_int_small (x : Z) : 0 <= x <= INT_MAX -> of_int x = x.
Proof.
  unfold of_int, INT_MAX. intros H. apply wrap_small.
  rewrite SIZE_MOD_val. lia.
Qed.

Lemma addi_small (a b : Z) : - 2 ^ 31 <= a + b <= INT_MAX -> addi a b = a + b.
Proof. apply to_int_small. Qed.

Lemma subi_small (a b : Z) : - 2 ^ 31 <= a - b <= INT_MAX -> subi a b = a - b.
Proof. apply to_int_small. Qed.

Lemma addu_small (a b : Z) : 0 <= a + b < SIZE_MOD -> addu a b = a + b.
Proof. apply wrap_small. Qed.

Lemma subu_small (a b : Z) : 0 <= a - b < SIZE_MOD -> subu a b = a - b.
Proof. apply wrap_small. Qed.

Lemma mulu_small (a b : Z) : 0 <= a * b < SIZE_MOD -> mulu a b = a * b.
Proof. apply wrap_small. Qed.

Lemma mulu_below (c n b : Z) :
  0 <= c <= n -> 0 <= b -> n * b < SIZE_MOD -> mulu c b = c * b.
Proof.
  intros Hc Hb Hn. apply mulu_small.
  assert (c * b <= n * b) by (apply Z.mul_le_mono_nonneg_r; lia).
  assert (0 <= c * b) by (apply Z.mul_nonneg_nonneg; lia). lia.
Qed.

(** the ceiling [(a + b - 1) / b] as the source evaluates it *)
Lemma ceil_code_small (a b : Z) :
  0 < b -> 0 <= a -> a + b <= SIZE_MOD ->
  divu (subu (addu a b) 1) b = cdiv a b.
Proof.
  intros Hb Ha Hab. unfold divu.
  destruct (Z.eq_dec (a + b) SIZE_MOD) as [He|Hne].
  - (* the sum itself wraps to 0, and 0 - 1 wraps to the right value *)
    unfold addu, subu, wrap. rewrite He, Z.mod_same by (rewrite SIZE_MOD_val; lia).
    replace (0 - 1) with (-1) by lia.
    replace (-1 mod SIZE_MOD) with (a + b - 1)
      by (rewrite He; reflexivity).
    apply cdiv_code; assumption.
  - rewrite addu_small, subu_small by lia. apply cdiv_code; assumption.
Qed.

Lemma ceil_code_small_div (a b : Z) :
  0 < b -> 0 <= a -> a + b <= SIZE_MOD ->
  subu (addu a b) 1 / b = cdiv a b.
Proof. apply ceil_code_small. Qed.

(** ** The block policy *)
Import mem_mapper.

(** the unit tests of [mem_mapper.hpp] ([bs = 65536], one intra-node rank) *)
Example block_local_size_tests :
  let bs := 65536 in
  let local_block_size := fun size n_inter_ranks inter_rank =>
    block_local_size bs (block_new bs size n_inter_ranks 1) inter_rank in
  local_block_size (bs * 4) 4 0 = bs /\
  local_block_size (bs * 12) 4 0 = bs * 3 /\
  local_block_size (bs * 14) 4 0 = bs * 4 /\
  local_block_size (bs * 14) 4 1 = bs * 3 /\
  local_block_size (bs * 14) 4 2 = bs * 4 /\
  local_block_size (bs * 14) 4 3 = bs * 3 /\
  local_block_size 1 4 0 = bs /\
  local_block_size 1 4 1 = bs /\
  local_block_size 1 1 0 = bs /\
  local_block_size (bs * 3) 1 0 = bs * 3.
Proof. vm_compute. repeat split; reflexivity. Qed.

Example block_get_segment_tests :
  let bs := 65536 in
  let get_segment := fun size n_inter_ranks offset =>
    block_get_segment bs (block_new bs size n_inter_ranks 1) offset in
  get_segment (bs * 4) 4 0 = Some (mk_segment 0 0 bs 0) /\
  get_segment (bs * 4) 4 bs = Some (mk_segment 1 bs (bs * 2) 0) /\
  get_segment (bs * 4) 4 (bs * 2) = Some (mk_segment 2 (bs * 2) (bs * 3) 0) /\
  get_segment (bs * 4) 4 (bs * 3) = Some (mk_segment 3 (bs * 3) (bs * 4) 0) /\
  get_segment (bs * 4) 4 (bs * 4 - 1)
    = Some (mk_segment 3 (bs * 3) (bs * 4) 0) /\
  get_segment (bs * 14) 4 0 = Some (mk_segment 0 0 (bs * 4) 0) /\
  get_segment (bs * 14) 4 bs = Some (mk_segment 0 0 (bs * 4) 0) /\
  get_segment (bs * 14) 4 (bs * 5) = Some (mk_segment 1 (bs * 4) (bs * 7) 0) /\
  get_segment (bs * 14 - 1) 4 (bs * 14 - 1)
    = Some (mk_segment 3 (bs * 11) (bs * 14) 0).
Proof. vm_compute. repeat split; reflexivity. Qed.

Example cyclic_tests :
  let bs := 65536 in
  let ss := bs * 2 in
  let local_block_size := fun size n_inter_ranks inter_rank =>
    match cyclic_new bs size n_inter_ranks 1 ss with
    | Some m => Some (cyclic_local_size m inter_rank)
    | None => None
    end in
  let get_segment := fun size n_inter_ranks offset =>
    match cyclic_new bs size n_inter_ranks 1 ss with
    | Some m => cyclic_get_segment m offset
    | None => None
    end in
  local_block_size (ss * 4) 4 0 = Some ss /\
  local_block_size (ss * 12) 4 0 = Some (ss * 3) /\
  local_block_size (ss * 13) 4 0 = Some (ss * 4) /\
  local_block_size (ss * 12 + 1) 4 0 = Some (ss * 4) /\
  local_block_size (ss * 12 - 1) 4 0 = Some (ss * 3) /\
  local_block_size 1 4 0 = Some ss /\
  local_block_size 1 1 0 = Some ss /\
  local_block_size (ss * 3) 1 0 = Some (ss * 3) /\
  get_segment (ss * 4) 4 0 = Some (mk_segment 0 0 ss 0) /\
  get_segment (ss * 4) 4 (ss * 4 - 1)
    = Some (mk_segment 3 (ss * 3) (ss * 4) 0) /\
  get_segment (ss * 12) 4 (ss * 3) = Some (mk_segment 3 (ss * 3) (ss * 4) 0) /\
  get_segment (ss * 12) 4 (ss * 5 + 2)
    = Some (mk_segment 1 (ss * 5) (ss * 6) ss) /\
  get_segment (ss * 12 - 1) 4 (ss * 11)
    = Some (mk_segment 3 (ss * 11) (ss * 12) (ss * 2)).
Proof. vm_compute. repeat split; reflexivity. Qed.


Lemma INT_MAX_val : INT_MAX = 2147483647.
Proof. reflexivity. Qed.

Lemma n_blk_bounds (BS size : Z) :
  0 < BS -> 0 <= size -> size + BS <= SIZE_MOD ->
  0 <= cdiv size BS /\ cdiv size BS * BS < SIZE_MOD.
Proof.
  intros HB Hs Hsum. pose proof (cdiv_interval size BS HB).
  pose proof (cdiv_nonneg size BS HB Hs). nia.
Qed.

Lemma block_n_blk (BS size R Ri : Z) :
  block_fits BS size R ->
  n_blk_ (block_new BS size R Ri) = cdiv size BS.
Proof.
  intros (HB & Hs & Hsum & HR & HNR). simpl.
  apply ceil_code_small; lia.
Qed.

Lemma block_effective_size_eq (BS size R Ri : Z) :
  block_fits BS size R ->
  block_effective_size BS (block_new BS size R Ri) = cdiv size BS * BS.
Proof.
  intros Hf. unfold block_effective_size. rewrite block_n_blk by assumption.
  destruct Hf as (HB & Hs & Hsum & HR & HNR).
  apply mulu_small. pose proof (n_blk_bounds BS size). nia.
Qed.

Lemma block_seg_range_eq (BS size R Ri s : Z) :
  block_fits BS size R -> 0 <= s < R ->
  block_get_seg_range (block_new BS size R Ri) s =
  (cdiv (s * cdiv size BS) R, cdiv ((s + 1) * cdiv size BS) R).
Proof.
  intros Hf Hs. unfold block_get_seg_range.
  rewrite block_n_blk by assumption.
  destruct Hf as (HB & Hsz & Hsum & HR & HNR).
  destruct (n_blk_bounds BS size) as [HN0 HNB]; try lia.
  set (N := cdiv size BS) in *. cbn [n_inter_ranks_ block_new].
  rewrite (of_int_small R), (of_int_small s) by lia.
  rewrite addi_small by (rewrite INT_MAX_val in *; lia).
  rewrite (of_int_small (s + 1)) by lia.
  rewrite !mulu_small by nia.
  rewrite !ceil_code_small by nia. reflexivity.
Qed.

(** the owner computed by [get_segment] and the block range around a block *)
Lemma block_owner_range (N R blk : Z) :
  0 < R -> 0 <= blk < N ->
  let s := blk * R / N in
  0 <= s < R /\ cdiv (s * N) R <= blk < cdiv ((s + 1) * N) R.
Proof.
  intros HR Hblk s. assert (HN : 0 < N) by lia.
  pose proof (div_interval (blk * R) N HN) as Hd. fold s in Hd.
  assert (Hs : 0 <= s < R) by (split; [apply floor_le | apply floor_lt]; nia).
  split; [exact Hs|]. split.
  - apply cdiv_least; nia.
  - apply cdiv_above; nia.
Qed.

Lemma block_get_segment_eq (BS size R Ri o : Z) :
  block_fits BS size R -> 0 <= o < cdiv size BS * BS ->
  let N := cdiv size BS in
  let r := (o / BS) * R / N in
  block_get_segment BS (block_new BS size R Ri) o =
  Some (mk_segment r (cdiv (r * N) R * BS) (cdiv ((r + 1) * N) R * BS) 0).
Proof.
  intros Hf Ho N r. unfold block_get_segment.
  rewrite block_effective_size_eq by assumption.
  destruct (Z.ltb_spec o (cdiv size BS * BS)) as [_|]; [|lia].
  rewrite block_n_blk by assumption. fold N. cbn [n_inter_ranks_ block_new].
  pose proof Hf as (HB & Hsz & Hsum & HR & HNR). fold N in HNR.
  destruct (n_blk_bounds BS size) as [HN0 HNB]; try lia. fold N in HN0, HNB.
  assert (Hblk : 0 <= o / BS < N)
    by (split; [apply floor_le | apply floor_lt]; lia).
  destruct (block_owner_range N R (o / BS)) as [Hr Hrange]; try lia.
  fold r in Hr, Hrange.
  cbv zeta. unfold divu. rewrite (of_int_small R) by lia.
  rewrite (mulu_small (o / BS) R) by nia. fold r.
  rewrite (to_int_small r) by (rewrite INT_MAX_val in *; lia).
  rewrite block_seg_range_eq by assumption. fold N.
  destruct (Z.leb_spec (cdiv (r * N) R) (o / BS)) as [_|]; [|lia].
  destruct (Z.ltb_spec (o / BS) (cdiv ((r + 1) * N) R)) as [_|]; [|lia].
  assert (Hb : 0 <= cdiv (r * N) R <= N).
  { split; [apply cdiv_nonneg; nia | apply cdiv_least; nia]. }
  assert (He : 0 <= cdiv ((r + 1) * N) R <= N).
  { split; [apply cdiv_nonneg; nia | apply cdiv_least; nia]. }
  rewrite !(mulu_below _ N) by lia. reflexivity.
Qed.

Lemma block_local_size_eq (BS size R Ri rank : Z) :
  block_fits BS size R -> 0 <= rank < R ->
  let N := cdiv size BS in
  block_local_size BS (block_new BS size R Ri) rank =
  Z.max 1 (cdiv ((rank + 1) * N) R - cdiv (rank * N) R) * BS.
Proof.
  intros Hf Hr N. unfold block_local_size.
  rewrite block_seg_range_eq by assumption. fold N.
  pose proof Hf as (HB & Hsz & Hsum & HR & HNR). fold N in HNR.
  destruct (n_blk_bounds BS size) as [HN0 HNB]; try lia. fold N in HN0, HNB.
  assert (Hb : 0 <= cdiv (rank * N) R <= cdiv ((rank + 1) * N) R).
  { split; [apply cdiv_nonneg; nia | apply cdiv_mono; nia]. }
  assert (He : cdiv ((rank + 1) * N) R <= N) by (apply cdiv_least; nia).
  assert (HNlt : N < SIZE_MOD) by nia.
  cbv beta iota zeta. rewrite subu_small by lia.
  destruct (Z.max_spec 1 (cdiv ((rank + 1) * N) R - cdiv (rank * N) R))
    as [[Hlt ->]|[Hge ->]].
  - apply (mulu_below _ N); lia.
  - apply (mulu_below _ 1); lia.
Qed.

(** C1.  Block policy: with [N = ceil(size / B)] blocks and [R] ranks, the
    segment of an offset [o < N * B] has owner [r = floor((o / B) * R / N)],
    range [[ceil(r N / R) * B, ceil((r + 1) N / R) * B)] and physical offset
    0; the local share of rank [r] is
    [max 1 (ceil((r + 1) N / R) - ceil(r N / R)) * B]; and for
    [size = 14 * B], [R = 4] the segments at [0], [5 B], [14 B - 1] and the
    four local shares are the ones the scenario lists.  The sizes are
    assumed to stay inside [std::size_t] ([block_fits]). *)
Theorem block_policy_mapping (BS size R Ri : Z) :
  block_fits BS size R ->
  let N := cdiv size BS in
  let m := block_new BS size R Ri in
  (forall o, 0 <= o < N * BS ->
     let r := (o / BS) * R / N in
     block_get_segment BS m o =
     Some (mk_segment r (cdiv (r * N) R * BS) (cdiv ((r + 1) * N) R * BS) 0))
  /\ (forall r, 0 <= r < R ->
        block_local_size BS m r =
        Z.max 1 (cdiv ((r + 1) * N) R - cdiv (r * N) R) * BS)
  /\ (size = 14 * BS -> R = 4 ->
        block_get_segment BS m 0 = Some (mk_segment 0 0 (4 * BS) 0) /\
        block_get_segment BS m (5 * BS) =
          Some (mk_segment 1 (4 * BS) (7 * BS) 0) /\
        block_get_segment BS m (14 * BS - 1) =
          Some (mk_segment 3 (11 * BS) (14 * BS) 0) /\
        block_local_size BS m 0 = 4 * BS /\
        block_local_size BS m 1 = 3 * BS /\
        block_local_size BS m 2 = 4 * BS /\
        block_local_size BS m 3 = 3 * BS).
Proof.
  intros Hf N m. split; [|split].
  - intros o Ho. apply block_get_segment_eq; assumption.
  - intros r Hr. apply block_local_size_eq; assumption.
  - intros -> ->. subst m.
    assert (HB : 0 < BS) by (destruct Hf as ((? & _) & _); assumption).
    assert (HN : N = 14) by (apply cdiv_mul; assumption).
    assert (H0 : 0 / BS = 0) by apply Zdiv_0_l.
    assert (H5 : 5 * BS / BS = 5) by (apply Z.div_mul; lia).
    assert (H13 : (14 * BS - 1) / BS = 13)
      by (apply div_from_interval; lia).
    rewrite !block_get_segment_eq
      by (try assumption; fold N; rewrite HN; lia).
    rewrite !block_local_size_eq by (assumption || lia).
    fold N. rewrite HN, H0, H5, H13.
    change (0 * 4 / 14) with 0. change (5 * 4 / 14) with 1.
    change (13 * 4 / 14) with 3.
    change (cdiv (0 * 14) 4) with 0. change (cdiv ((0 + 1) * 14) 4) with 4.
    change (cdiv (1 * 14) 4) with 4. change (cdiv ((1 + 1) * 14) 4) with 7.
    change (cdiv (2 * 14) 4) with 7. change (cdiv ((2 + 1) * 14) 4) with 11.
    change (cdiv (3 * 14) 4) with 11. change (cdiv ((3 + 1) * 14) 4) with 14.
    repeat split; reflexivity.
Qed.

Ltac closed_arith :=
  repeat match goal with
         | |- _ /\ _ => split
         end;
  vm_compute; first [reflexivity | congruence].

Lemma block_policy_mapping_witness :
  block_fits 65536 (14 * 65536) 4 /\
  block_get_segment 65536 (block_new 65536 (14 * 65536) 4 1) (5 * 65536)
  = Some (mk_segment 1 (4 * 65536) (7 * 65536) 0).
Proof.
  assert (Hf : block_fits 65536 (14 * 65536) 4) by (unfold block_fits; closed_arith).
  split; [exact Hf|].
  exact (proj1 (proj2 (proj2 (proj2
           (block_policy_mapping 65536 (14 * 65536) 4 1 Hf)) eq_refl eq_refl))).
Defined.

(** ** The cyclic policy *)


Lemma cyclic_new_ok (BS S size R Ri : Z) :
  cyclic_fits BS S size R ->
  cyclic_new BS size R Ri S = Some (mk_cyclic size R Ri S).
Proof.
  intros (HB & HS & Hmod & _). unfold cyclic_new, modu.
  destruct (Z.leb_spec BS S); [|lia].
  rewrite Hmod. reflexivity.
Qed.

Lemma cyclic_local_size_impl_eq (BS S size R Ri : Z) :
  cyclic_fits BS S size R ->
  cyclic_local_size_impl (mk_cyclic size R Ri S) = cdiv (cdiv size S) R * S.
Proof.
  intros (HB & HS & Hmod & Hsz & Hsum & HR & HgR & Heff).
  unfold cyclic_local_size_impl. cbn [c_size_ c_n_inter_ranks_ seg_size_].
  rewrite (of_int_small R) by lia.
  rewrite (ceil_code_small size S) by lia.
  assert (Hg : 0 <= cdiv size S) by (apply cdiv_nonneg; lia).
  rewrite (ceil_code_small (cdiv size S) R) by lia.
  assert (Hl : 0 <= cdiv (cdiv size S) R) by (apply cdiv_nonneg; lia).
  apply mulu_small.
  assert (0 <= cdiv (cdiv size S) R * S) by (apply Z.mul_nonneg_nonneg; lia).
  assert (cdiv (cdiv size S) R * S * 1 <= cdiv (cdiv size S) R * S * R)
    by (apply Z.mul_le_mono_nonneg_l; lia).
  lia.
Qed.

Lemma cyclic_effective_size_eq (BS S size R Ri : Z) :
  cyclic_fits BS S size R ->
  cyclic_effective_size (mk_cyclic size R Ri S) =
  cdiv (cdiv size S) R * S * R.
Proof.
  intros Hf. unfold cyclic_effective_size.
  rewrite (cyclic_local_size_impl_eq BS) by assumption.
  destruct Hf as (HB & HS & Hmod & Hsz & Hsum & HR & HgR & Heff).
  cbn [c_n_inter_ranks_]. rewrite (of_int_small R) by lia.
  assert (Hg : 0 <= cdiv size S) by (apply cdiv_nonneg; lia).
  assert (Hl : 0 <= cdiv (cdiv size S) R) by (apply cdiv_nonneg; lia).
  apply mulu_small.
  assert (0 <= cdiv (cdiv size S) R * S * R)
    by (repeat apply Z.mul_nonneg_nonneg; lia).
  lia.
Qed.

Lemma cyclic_get_segment_eq (BS S size R Ri o : Z) :
  cyclic_fits BS S size R ->
  0 <= o < cyclic_effective_size (mk_cyclic size R Ri S) ->
  let g := o / S in
  cyclic_get_segment (mk_cyclic size R Ri S) o =
  Some (mk_segment (g mod R) (g * S) ((g + 1) * S) (g / R * S)).
Proof.
  intros Hf Ho g. unfold cyclic_get_segment.
  destruct (Z.ltb_spec o (cyclic_effective_size (mk_cyclic size R Ri S)))
    as [_|]; [|lia].
  rewrite (cyclic_effective_size_eq BS) in Ho by assumption.
  destruct Hf as (HB & HS & Hmod & Hsz & Hsum & HR & HgR & Heff).
  set (L := cdiv (cdiv size S) R) in *.
  cbv zeta. unfold divu, modu. cbn [c_n_inter_ranks_ seg_size_].
  rewrite (of_int_small R) by lia. fold g.
  assert (HS0 : 0 < S) by lia.
  pose proof (div_interval o S HS0) as Hg. fold g in Hg.
  assert (Hg0 : 0 <= g) by (apply floor_le; lia).
  assert (HgL : g < L * R) by (apply floor_lt; lia).
  assert (HR0 : 0 < R) by lia.
  pose proof (Z.mod_pos_bound g R HR0) as Hm.
  pose proof (div_interval g R HR0) as Hq.
  assert (Hq0 : 0 <= g / R) by (apply floor_le; lia).
  rewrite to_int_small by (rewrite INT_MAX_val in *; lia).
  rewrite (addu_small g 1) by nia.
  rewrite !mulu_small by nia. reflexivity.
Qed.

(** C2.  Cyclic policy with segment size [S]: the segment of an offset
    [o < effective_size()] has owner [g mod R], range [[g S, (g + 1) S)] and
    physical offset [(g / R) S] for [g = o / S]; every rank's local size is
    [ceil(ceil(size / S) / R) * S]; and with 4 ranks and [size = 12 S] the
    segment of [5 S + 2] is [{1, [5 S, 6 S), S}] and every local size is
    [3 S] (the offset [5 S + 2] lies in segment 5 as soon as [2 < S]). *)
Theorem cyclic_policy_mapping (BS S size R Ri : Z) :
  cyclic_fits BS S size R ->
  exists m, cyclic_new BS size R Ri S = Some m /\
  (forall o, 0 <= o < cyclic_effective_size m ->
     let g := o / S in
     cyclic_get_segment m o =
     Some (mk_segment (g mod R) (g * S) ((g + 1) * S) (g / R * S)))
  /\ (forall r, cyclic_local_size m r = cdiv (cdiv size S) R * S)
  /\ (R = 4 -> size = 12 * S -> 2 < S ->
        cyclic_get_segment m (5 * S + 2) =
          Some (mk_segment 1 (5 * S) (6 * S) S) /\
        forall r, cyclic_local_size m r = 3 * S).
Proof.
  intros Hf. exists (mk_cyclic size R Ri S).
  split; [apply cyclic_new_ok; assumption|].
  split; [|split].
  - intros o Ho. apply (cyclic_get_segment_eq BS); assumption.
  - intros r. apply (cyclic_local_size_impl_eq BS); assumption.
  - intros -> -> HS.
    assert (HN : cdiv (12 * S) S = 12) by (apply cdiv_mul; lia).
    assert (Hg : (5 * S + 2) / S = 5) by (apply div_from_interval; lia).
    split.
    + rewrite (cyclic_get_segment_eq BS) by
        (try assumption; rewrite (cyclic_effective_size_eq BS) by assumption;
         rewrite HN; change (cdiv 12 4) with 3; lia).
      rewrite Hg. change (5 mod 4) with 1. change (5 / 4) with 1.
      change (5 + 1) with 6. rewrite Z.mul_1_l. reflexivity.
    + intros r. unfold cyclic_local_size.
      rewrite (cyclic_local_size_impl_eq BS) by assumption.
      rewrite HN. reflexivity.
Qed.

Lemma cyclic_policy_mapping_witness :
  cyclic_fits 65536 131072 (12 * 131072) 4 /\
  exists m, cyclic_new 65536 (12 * 131072) 4 1 131072 = Some m /\
            cyclic_get_segment m (5 * 131072 + 2) =
            Some (mk_segment 1 (5 * 131072) (6 * 131072) 131072).
Proof.
  assert (Hf : cyclic_fits 65536 131072 (12 * 131072) 4)
    by (unfold cyclic_fits; closed_arith).
  split; [exact Hf|].
  destruct (cyclic_policy_mapping 65536 131072 (12 * 131072) 4 1 Hf)
    as (m & Hnew & _ & _ & Hex).
  exists m. split; [exact Hnew|].
  apply Hex; [reflexivity | reflexivity | reflexivity].
Defined.

(** ** The reverse-block policy *)


Lemma block_adws_n_blk (BS size R Ri : Z) :
  block_adws_fits BS size R ->
  n_blk_ (block_adws_new BS size R Ri) = cdiv size BS.
Proof.
  intros (HB & Hs & Hsum & HR & HNR). simpl.
  apply ceil_code_small; lia.
Qed.

Lemma block_adws_effective_size_eq (BS size R Ri : Z) :
  block_adws_fits BS size R ->
  block_adws_effective_size BS (block_adws_new BS size R Ri) =
  cdiv size BS * BS.
Proof.
  intros Hf. unfold block_adws_effective_size.
  rewrite block_adws_n_blk by assumption.
  destruct Hf as (HB & Hs & Hsum & HR & HNR).
  apply mulu_small. pose proof (n_blk_bounds BS size). nia.
Qed.

Lemma block_adws_seg_range_eq (BS size R Ri s : Z) :
  block_adws_fits BS size R -> 0 <= s < R ->
  block_adws_get_seg_range (block_adws_new BS size R Ri) s =
  (s * cdiv size BS / R, (s + 1) * cdiv size BS / R).
Proof.
  intros Hf Hs. unfold block_adws_get_seg_range.
  rewrite block_adws_n_blk by assumption.
  destruct Hf as (HB & Hsz & Hsum & HR & HNR).
  destruct (n_blk_bounds BS size) as [HN0 HNB]; try lia.
  set (N := cdiv size BS) in *. cbn [n_inter_ranks_ block_adws_new].
  rewrite (of_int_small R), (of_int_small s) by lia.
  rewrite addi_small by (rewrite INT_MAX_val in *; lia).
  rewrite (of_int_small (s + 1)) by lia.
  rewrite !mulu_small by nia. reflexivity.
Qed.

Lemma block_adws_owner_range (N R blk : Z) :
  0 < R -> 0 <= blk < N ->
  let s := cdiv ((blk + 1) * R) N - 1 in
  0 <= s < R /\ s * N / R <= blk < (s + 1) * N / R.
Proof.
  intros HR Hblk s. assert (HN : 0 < N) by lia.
  pose proof (cdiv_interval ((blk + 1) * R) N HN) as Hc.
  replace (cdiv ((blk + 1) * R) N) with (s + 1) in Hc by (unfold s; ring).
  assert (Hs : 0 <= s < R).
  { split.
    - assert (0 < s + 1) by (apply (cdiv_above ((blk + 1) * R) N 0) in HN;
                               [unfold s; lia | nia]). lia.
    - assert (s + 1 <= R)
        by (unfold s; ring_simplify; apply cdiv_least; nia). lia. }
  split; [exact Hs|]. split.
  - assert (s * N / R < blk + 1) by (apply floor_lt; nia). lia.
  - assert (blk + 1 <= (s + 1) * N / R) by (apply floor_le; nia). lia.
Qed.

Lemma block_adws_get_segment_eq (BS size R Ri o : Z) :
  block_adws_fits BS size R -> 0 <= o < cdiv size BS * BS ->
  let N := cdiv size BS in
  let s := cdiv ((o / BS + 1) * R) N - 1 in
  block_adws_get_segment BS (block_adws_new BS size R Ri) o =
  Some (mk_segment (R - s - 1) (s * N / R * BS) ((s + 1) * N / R * BS) 0).
Proof.
  intros Hf Ho N s. unfold block_adws_get_segment.
  rewrite block_adws_effective_size_eq by assumption.
  destruct (Z.ltb_spec o (cdiv size BS * BS)) as [_|]; [|lia].
  rewrite block_adws_n_blk by assumption. fold N.
  cbn [n_inter_ranks_ block_adws_new].
  pose proof Hf as (HB & Hsz & Hsum & HR & HNR). fold N in HNR.
  destruct (n_blk_bounds BS size) as [HN0 HNB]; try lia. fold N in HN0, HNB.
  assert (Hblk : 0 <= o / BS < N)
    by (split; [apply floor_le | apply floor_lt]; lia).
  destruct (block_adws_owner_range N R (o / BS)) as [Hs Hrange]; try lia.
  fold s in Hs, Hrange.
  cbv zeta. unfold divu. rewrite (of_int_small R) by lia.
  rewrite (addu_small (o / BS) 1) by nia.
  rewrite (mulu_small (o / BS + 1) R) by nia.
  rewrite ceil_code_small_div by nia.
  rewrite subu_small by (fold N; fold s; nia). fold N. fold s.
  rewrite (to_int_small s) by (rewrite INT_MAX_val in *; lia).
  rewrite block_adws_seg_range_eq by assumption. fold N.
  destruct (Z.leb_spec (s * N / R) (o / BS)) as [_|]; [|lia].
  destruct (Z.ltb_spec (o / BS) ((s + 1) * N / R)) as [_|]; [|lia].
  assert (Hb : 0 <= s * N / R <= N).
  { split; [apply floor_le; nia|].
    assert (s * N / R < N + 1) by (apply floor_lt; nia). lia. }
  assert (He : 0 <= (s + 1) * N / R <= N).
  { split; [apply floor_le; nia|].
    assert ((s + 1) * N / R < N + 1) by (apply floor_lt; nia). lia. }
  rewrite !(mulu_below _ N) by lia.
  rewrite (subi_small R s) by (rewrite INT_MAX_val in *; lia).
  rewrite subi_small by (rewrite INT_MAX_val in *; lia).
  reflexivity.
Qed.

Lemma block_adws_local_size_eq (BS size R Ri rank : Z) :
  block_adws_fits BS size R -> 0 <= rank < R ->
  let N := cdiv size BS in
  block_adws_local_size BS (block_adws_new BS size R Ri) rank =
  Z.max 1 ((R - rank) * N / R - (R - rank - 1) * N / R) * BS.
Proof.
  intros Hf Hr N. unfold block_adws_local_size.
  cbn [n_inter_ranks_ block_adws_new].
  pose proof Hf as (HB & Hsz & Hsum & HR & HNR). fold N in HNR.
  rewrite (subi_small R rank) by (rewrite INT_MAX_val in *; lia).
  rewrite subi_small by (rewrite INT_MAX_val in *; lia).
  rewrite block_adws_seg_range_eq by (assumption || lia). fold N.
  replace (R - rank - 1 + 1) with (R - rank) by ring.
  destruct (n_blk_bounds BS size) as [HN0 HNB]; try lia. fold N in HN0, HNB.
  assert (HNlt : N < SIZE_MOD) by nia.
  assert (Hb : 0 <= (R - rank - 1) * N / R) by (apply floor_le; nia).
  assert (Hbe : (R - rank - 1) * N / R <= (R - rank) * N / R)
    by (apply Z.div_le_mono; nia).
  assert (He : (R - rank) * N / R <= N).
  { assert ((R - rank) * N / R < N + 1) by (apply floor_lt; nia). lia. }
  cbv beta iota zeta. rewrite subu_small by lia.
  destruct (Z.max_spec 1 ((R - rank) * N / R - (R - rank - 1) * N / R))
    as [[Hlt ->]|[Hge ->]].
  - apply (mulu_below _ N); lia.
  - apply (mulu_below _ 1); lia.
Qed.

(** ** The segment invariant *)


Lemma blocks_around (BS o b e : Z) :
  0 < BS -> b <= o / BS < e ->
  b * BS <= o < e * BS /\ (e * BS - b * BS) mod BS = 0.
Proof.
  intros HB Hbe. pose proof (div_interval o BS HB). split; [nia|].
  replace (e * BS - b * BS) with ((e - b) * BS) by ring.
  apply Z.mod_mul. lia.
Qed.

Lemma block_segment_ok (BS size R Ri o : Z) :
  block_fits BS size R ->
  0 <= o < block_effective_size BS (block_new BS size R Ri) ->
  segment_ok BS o (block_get_segment BS (block_new BS size R Ri) o).
Proof.
  intros Hf Ho. rewrite block_effective_size_eq in Ho by assumption.
  rewrite block_get_segment_eq by assumption.
  eexists. split; [reflexivity|]. cbn [offset_b offset_e].
  pose proof Hf as (HB & Hsz & Hsum & HR & HNR).
  assert (Hblk : 0 <= o / BS < cdiv size BS)
    by (split; [apply floor_le | apply floor_lt]; lia).
  destruct (block_owner_range (cdiv size BS) R (o / BS)) as [_ Hrange];
    try lia.
  apply blocks_around; [lia | exact Hrange].
Qed.

Lemma block_adws_segment_ok (BS size R Ri o : Z) :
  block_adws_fits BS size R ->
  0 <= o < block_adws_effective_size BS (block_adws_new BS size R Ri) ->
  segment_ok BS o (block_adws_get_segment BS (block_adws_new BS size R Ri) o).
Proof.
  intros Hf Ho. rewrite block_adws_effective_size_eq in Ho by assumption.
  rewrite block_adws_get_segment_eq by assumption.
  eexists. split; [reflexivity|]. cbn [offset_b offset_e].
  pose proof Hf as (HB & Hsz & Hsum & HR & HNR).
  assert (Hblk : 0 <= o / BS < cdiv size BS)
    by (split; [apply floor_le | apply floor_lt]; lia).
  destruct (block_adws_owner_range (cdiv size BS) R (o / BS)) as [_ Hrange];
    try lia.
  apply blocks_around; [lia | exact Hrange].
Qed.

Lemma cyclic_segment_ok (BS S size R Ri o : Z) :
  cyclic_fits BS S size R ->
  0 <= o < cyclic_effective_size (mk_cyclic size R Ri S) ->
  segment_ok BS o (cyclic_get_segment (mk_cyclic size R Ri S) o).
Proof.
  intros Hf Ho. rewrite (cyclic_get_segment_eq BS) by assumption.
  eexists. split; [reflexivity|]. cbn [offset_b offset_e].
  destruct Hf as (HB & HS & Hmod & _).
  assert (HS0 : 0 < S) by lia.
  pose proof (div_interval o S HS0). split; [nia|].
  replace ((o / S + 1) * S - o / S * S) with S by ring. exact Hmod.
Qed.

(** C3.  For each of the three policies and every offset below
    [effective_size()], [get_segment] returns a segment with
    [offset_b <= offset < offset_e] and
    [(offset_e - offset_b) mod BlockSize = 0]. *)
Theorem get_segment_invariant (BS S size R Ri : Z) :
  (block_fits BS size R ->
   forall o, 0 <= o < block_effective_size BS (block_new BS size R Ri) ->
     segment_ok BS o (block_get_segment BS (block_new BS size R Ri) o))
  /\ (cyclic_fits BS S size R ->
      exists m, cyclic_new BS size R Ri S = Some m /\
      forall o, 0 <= o < cyclic_effective_size m ->
        segment_ok BS o (cyclic_get_segment m o))
  /\ (block_adws_fits BS size R ->
      forall o,
        0 <= o < block_adws_effective_size BS (block_adws_new BS size R Ri) ->
        segment_ok BS o
          (block_adws_get_segment BS (block_adws_new BS size R Ri) o)).
Proof.
  split; [|split].
  - intros Hf o Ho. apply block_segment_ok; assumption.
  - intros Hf. exists (mk_cyclic size R Ri S).
    split; [apply cyclic_new_ok; assumption|].
    intros o Ho. apply cyclic_segment_ok; assumption.
  - intros Hf o Ho. apply block_adws_segment_ok; assumption.
Qed.

Lemma get_segment_invariant_witness :
  (block_fits 65536 (14 * 65536) 4 /\
   segment_ok 65536 (3 * 65536 + 7)
     (block_get_segment 65536 (block_new 65536 (14 * 65536) 4 1)
        (3 * 65536 + 7)))
  /\ (cyclic_fits 65536 131072 (14 * 65536) 4 /\
      exists m, cyclic_new 65536 (14 * 65536) 4 1 131072 = Some m /\
                segment_ok 65536 (3 * 65536 + 7)
                  (cyclic_get_segment m (3 * 65536 + 7)))
  /\ (block_adws_fits 65536 (14 * 65536) 4 /\
      segment_ok 65536 (3 * 65536 + 7)
        (block_adws_get_segment 65536 (block_adws_new 65536 (14 * 65536) 4 1)
           (3 * 65536 + 7))).
Proof.
  assert (Hb : block_fits 65536 (14 * 65536) 4)
    by (unfold block_fits; closed_arith).
  assert (Hc : cyclic_fits 65536 131072 (14 * 65536) 4)
    by (unfold cyclic_fits; closed_arith).
  assert (Ha : block_adws_fits 65536 (14 * 65536) 4)
    by (unfold block_adws_fits; closed_arith).
  destruct (get_segment_invariant 65536 131072 (14 * 65536) 4 1)
    as (Tb & Tc & Ta).
  split; [|split].
  - split; [exact Hb|]. apply (Tb Hb). closed_arith.
  - split; [exact Hc|]. destruct (Tc Hc) as (m & Hm & Hseg).
    exists m. split; [exact Hm|]. apply Hseg.
    unfold cyclic_new in Hm. simpl in Hm. injection Hm as <-. closed_arith.
  - split; [exact Ha|]. apply (Ta Ha). closed_arith.
Defined.

(** ** The per-rank ranges partition the address range *)


Section boundaries.
(** [f r] is the first block of segment [r]; both policies use a
    monotone boundary function from 0 to [N]. *)
Variables (f : Z -> Z) (BS R N : Z).
Hypothesis HBS : 0 < BS.
Hypothesis HR : 0 < R.
Hypothesis f_mono : forall a b, 0 <= a <= b -> b <= R -> f a <= f b.
Hypothesis f_0 : f 0 = 0.
Hypothesis f_R : f R = N.
Hypothesis f_covers :
  forall blk, 0 <= blk < N -> exists r, 0 <= r < R /\ f r <= blk < f (r + 1).

Lemma boundaries_partition :
  partitions BS R (N * BS) (fun r => (f r, f (r + 1))).
Proof.
  unfold partitions. cbn [fst snd]. split; [|split].
  - intros r Hr.
    assert (f 0 <= f r) by (apply f_mono; lia).
    assert (f r <= f (r + 1)) by (apply f_mono; lia).
    assert (f (r + 1) <= f R) by (apply f_mono; lia).
    rewrite f_0 in *. rewrite f_R in *. nia.
  - intros r1 r2 H12 H2. apply f_mono; lia.
  - intros o Ho. pose proof (div_interval o BS HBS) as Hd.
    assert (Hblk : 0 <= o / BS < N)
      by (split; [apply floor_le | apply floor_lt]; lia).
    destruct (f_covers (o / BS) Hblk) as (r & Hr & Hin).
    exists r. split; [exact Hr|]. split; [nia|].
    intros r' Hr' Hin'.
    destruct (Z.lt_trichotomy r' r) as [Hlt|[Heq|Hgt]]; [|exact Heq|].
    + assert (f (r' + 1) <= f r) by (apply f_mono; lia). nia.
    + assert (f (r + 1) <= f r') by (apply f_mono; lia). nia.
Qed.
End boundaries.

Lemma partitions_ext (BS R eff : Z) (range range' : Z -> Z * Z) :
  (forall r, 0 <= r < R -> range' r = range r) ->
  partitions BS R eff range -> partitions BS R eff range'.
Proof.
  intros Hext (Hin & Hord & Hcov). split; [|split].
  - intros r Hr. rewrite Hext by assumption. apply Hin; assumption.
  - intros r1 r2 H12 H2. rewrite !Hext by lia. apply Hord; assumption.
  - intros o Ho. destruct (Hcov o Ho) as (r & Hr & Hor & Huniq).
    exists r. split; [exact Hr|]. rewrite Hext by assumption.
    split; [exact Hor|]. intros r' Hr'. rewrite Hext by assumption.
    apply Huniq; assumption.
Qed.

Lemma block_partition (BS size R Ri : Z) :
  block_fits BS size R ->
  partitions BS R (block_effective_size BS (block_new BS size R Ri))
             (block_get_seg_range (block_new BS size R Ri)).
Proof.
  intros Hf. rewrite block_effective_size_eq by assumption.
  pose proof Hf as (HB & Hsz & Hsum & HR & HNR).
  assert (HN0 : 0 <= cdiv size BS) by (apply cdiv_nonneg; lia).
  apply (partitions_ext _ _ _
           (fun r => (cdiv (r * cdiv size BS) R,
                      cdiv ((r + 1) * cdiv size BS) R))).
  { intros r Hr. apply block_seg_range_eq; assumption. }
  apply (boundaries_partition (fun r => cdiv (r * cdiv size BS) R)); try lia.
  - intros a b Hab _. apply cdiv_mono; nia.
  - apply cdiv_0.
  - rewrite Z.mul_comm. apply cdiv_mul. lia.
  - intros blk Hblk. exists (blk * R / cdiv size BS).
    apply block_owner_range; lia.
Qed.

Lemma block_adws_partition (BS size R Ri : Z) :
  block_adws_fits BS size R ->
  partitions BS R (block_adws_effective_size BS (block_adws_new BS size R Ri))
             (block_adws_get_seg_range (block_adws_new BS size R Ri)).
Proof.
  intros Hf. rewrite block_adws_effective_size_eq by assumption.
  pose proof Hf as (HB & Hsz & Hsum & HR & HNR).
  assert (HN0 : 0 <= cdiv size BS) by (apply cdiv_nonneg; lia).
  apply (partitions_ext _ _ _
           (fun r => (r * cdiv size BS / R, (r + 1) * cdiv size BS / R))).
  { intros r Hr. apply block_adws_seg_range_eq; assumption. }
  apply (boundaries_partition (fun r => r * cdiv size BS / R)); try lia.
  - intros a b Hab _. apply Z.div_le_mono; nia.
  - reflexivity.
  - rewrite Z.mul_comm. apply Z.div_mul. lia.
  - intros blk Hblk. exists (cdiv ((blk + 1) * R) (cdiv size BS) - 1).
    apply block_adws_owner_range; lia.
Qed.

(** C4.  Under the block and the reverse-block policy the ranges produced
    by [get_seg_range] for [seg_id = 0 .. R - 1] are pairwise disjoint and
    cover exactly [[0, effective_size())]: every offset below
    [effective_size()] lies in the range of exactly one segment id, which
    is the one [get_segment] reports (as owner [seg_id], respectively
    [R - seg_id - 1]). *)
Theorem seg_ranges_partition (BS size R Ri : Z) :
  (block_fits BS size R ->
   let m := block_new BS size R Ri in
   partitions BS R (block_effective_size BS m) (block_get_seg_range m) /\
   forall o, 0 <= o < block_effective_size BS m ->
     exists seg, block_get_segment BS m o = Some seg /\
                 0 <= owner seg < R /\
                 (fst (block_get_seg_range m (owner seg)) * BS,
                  snd (block_get_seg_range m (owner seg)) * BS)
                 = (offset_b seg, offset_e seg))
  /\ (block_adws_fits BS size R ->
      let m := block_adws_new BS size R Ri in
      partitions BS R (block_adws_effective_size BS m)
                 (block_adws_get_seg_range m) /\
      forall o, 0 <= o < block_adws_effective_size BS m ->
        exists seg, block_adws_get_segment BS m o = Some seg /\
                    0 <= owner seg < R /\
                    (fst (block_adws_get_seg_range m (R - owner seg - 1)) * BS,
                     snd (block_adws_get_seg_range m (R - owner seg - 1)) * BS)
                    = (offset_b seg, offset_e seg)).
Proof.
  split.
  - intros Hf m. split; [apply block_partition; assumption|].
    intros o Ho. subst m. rewrite block_effective_size_eq in Ho by assumption.
    rewrite block_get_segment_eq by assumption.
    eexists. split; [reflexivity|]. cbn [owner offset_b offset_e].
    pose proof Hf as (HB & Hsz & Hsum & HR & HNR).
    assert (Hblk : 0 <= o / BS < cdiv size BS)
      by (split; [apply floor_le | apply floor_lt]; lia).
    destruct (block_owner_range (cdiv size BS) R (o / BS)) as [Hr _]; try lia.
    split; [exact Hr|].
    rewrite block_seg_range_eq by assumption. reflexivity.
  - intros Hf m. split; [apply block_adws_partition; assumption|].
    intros o Ho. subst m.
    rewrite block_adws_effective_size_eq in Ho by assumption.
    rewrite block_adws_get_segment_eq by assumption.
    eexists. split; [reflexivity|]. cbn [owner offset_b offset_e].
    pose proof Hf as (HB & Hsz & Hsum & HR & HNR).
    assert (Hblk : 0 <= o / BS < cdiv size BS)
      by (split; [apply floor_le | apply floor_lt]; lia).
    destruct (block_adws_owner_range (cdiv size BS) R (o / BS)) as [Hs _];
      try lia.
    split; [lia|].
    match goal with
    | |- context [block_adws_get_seg_range _ ?x] =>
        replace x with (cdiv ((o / BS + 1) * R) (cdiv size BS) - 1) by ring
    end.
    rewrite block_adws_seg_range_eq by assumption. reflexivity.
Qed.

Lemma seg_ranges_partition_witness :
  (block_fits 65536 (14 * 65536) 4 /\
   partitions 65536 4
     (block_effective_size 65536 (block_new 65536 (14 * 65536) 4 1))
     (block_get_seg_range (block_new 65536 (14 * 65536) 4 1)))
  /\ (block_adws_fits 65536 (14 * 65536) 4 /\
      partitions 65536 4
        (block_adws_effective_size 65536
           (block_adws_new 65536 (14 * 65536) 4 1))
        (block_adws_get_seg_range (block_adws_new 65536 (14 * 65536) 4 1))).
Proof.
  assert (Hb : block_fits 65536 (14 * 65536) 4)
    by (unfold block_fits; closed_arith).
  assert (Ha : block_adws_fits 65536 (14 * 65536) 4)
    by (unfold block_adws_fits; closed_arith).
  destruct (seg_ranges_partition 65536 (14 * 65536) 4 1) as (Tb & Ta).
  split; (split; [assumption|]).
  - exact (proj1 (Tb Hb)).
  - exact (proj1 (Ta Ha)).
Defined.

(** ** Reverse-block against block *)







(** * Properties of the virtual-memory reservation *)
Import vm.

Lemma and_then_ok {A B : Type} (c : outcome A) (k : A -> outcome B) (b : B) :
  and_then c k = Ok b -> exists a, c = Ok a /\ k a = Ok b.
Proof. destruct c; simpl; intros H; [eauto | discriminate | discriminate]. Qed.

Ltac ok_inv H :=
  let a := fresh "a" in
  let Ha := fresh "Hcall" in
  apply and_then_ok in H; destruct H as (a & Ha & H).

Lemma all_ranks_lookup {A B : Type} (f : Z -> A -> outcome B) (ps : list A) :
  forall me qs, all_ranks f me ps = Ok qs ->
    length qs = length ps /\
    forall i, (i < length ps)%nat ->
      exists p q, ps !! i = Some p /\ qs !! i = Some q /\
                  f (me + Z.of_nat i) p = Ok q.
Proof.
  induction ps as [|p ps IH]; intros me qs H; simpl in H.
  - injection H as <-. split; [reflexivity|]. simpl. lia.
  - ok_inv H. ok_inv H. injection H as <-.
    destruct (IH _ _ Hcall0) as [Hlen Hi].
    split; [simpl; congruence|].
    intros [|i] Hlt.
    + exists p, a. rewrite Z.add_0_r. auto.
    + simpl in Hlt. destruct (Hi i) as (p' & q' & Hp & Hq & Hf); [lia|].
      exists p', q'. split; [exact Hp|]. split; [exact Hq|].
      rewrite <- Hf. f_equal. lia.
Qed.

Lemma all_ranks_at {A B : Type} (f : Z -> A -> outcome B) (ps : list A)
      (qs : list B) (i : nat) (q : B) :
  all_ranks f 0 ps = Ok qs -> qs !! i = Some q ->
  exists p, ps !! i = Some p /\ f (Z.of_nat i) p = Ok q.
Proof.
  intros H Hq. destruct (all_ranks_lookup f ps 0 qs H) as [Hlen Hi].
  assert (Hlt : (i < length ps)%nat).
  { rewrite <- Hlen. apply lookup_lt_is_Some. eauto. }
  destruct (Hi i Hlt) as (p & q' & Hp & Hq' & Hf).
  exists p. split; [exact Hp|]. rewrite Z.add_0_l in Hf.
  rewrite Hq in Hq'. injection Hq' as <-. exact Hf.
Qed.

Lemma allreduce_max_ge (xs : list Z) (i : nat) (x : Z) :
  xs !! i = Some x -> x <= allreduce_max xs.
Proof.
  revert i. induction xs as [|y xs IH]; intros [|i] H; simpl in H;
    try discriminate; unfold allreduce_max in *; simpl.
  - injection H as ->. lia.
  - specialize (IH i H). lia.
Qed.


Section reservation.
Variables (pagesize size alignment : Z).



Lemma finish_vm (p p' : proc) :
  finish pagesize size p = Ok p' ->
  vm p' = mk_virtual_mem (addr_ (vm p)) size /\ prev_vms p' = [].
Proof.
  unfold finish. intros H. ok_inv H. destruct a as [v s1].
  ok_inv H. injection H as <-. simpl.
  unfold vm_shrink in Hcall.
  destruct (negb (addr_ (vm p) =? 0)); [|discriminate].
  destruct (size <=? size_ (vm p)); [|discriminate].
  ok_inv Hcall. injection Hcall as <- <-. auto.
Qed.
End reservation.

Section rounds.
Variables (pagesize size alignment : Z).





Lemma attempts_inv (pick : Z) (g : job) (a : Z) (rs : list (proc * Z)) :
  attempts pagesize alignment pick g = Ok (a, rs) ->
  exists pl pl',
    procs g !! Z.to_nat (leader_rank g) = Some pl /\
    leader_part pagesize alignment pick (alloc_size g) pl = Ok pl' /\
    a = addr_ (vm pl') /\
    all_ranks (fun me p =>
                 if me =? leader_rank g then Ok (pl', -1)
                 else follower_part pagesize alignment (addr_ (vm pl'))
                                    (alloc_size g) me p)
              0 (procs g) = Ok rs.
Proof.
  unfold attempts. intros H.
  destruct (procs g !! Z.to_nat (leader_rank g)) as [pl|]; [|discriminate].
  ok_inv H. ok_inv H. injection H as <- <-.
  exists pl, a0. auto.
Qed.


Lemma attempts_length (pick : Z) (g : job) (a : Z) (rs : list (proc * Z)) :
  attempts pagesize alignment pick g = Ok (a, rs) ->
  length rs = length (procs g).
Proof.
  intros Hatt. apply attempts_inv in Hatt.
  destruct Hatt as (pl & pl' & _ & _ & _ & Hall).
  apply all_ranks_lookup in Hall. tauto.
Qed.

Lemma round_success_inv (pick : Z) (g : job) (ps : list proc) :
  round pagesize size alignment pick g = RSuccess ps ->
  exists a rs,
    attempts pagesize alignment pick g = Ok (a, rs) /\
    allreduce_max (map snd rs) = -1 /\
    all_ranks (fun _ pf => finish pagesize size (fst pf)) 0 rs = Ok ps.
Proof.
  unfold round. intros H.
  destruct (attempts pagesize alignment pick g) as [[a rs]| |];
    try discriminate.
  destruct (Z.eqb_spec (allreduce_max (map snd rs)) (-1)) as [Hm|];
    [|discriminate].
  destruct (all_ranks _ 0 rs) as [ps'| |] eqn:Hfin; try discriminate.
  injection H as <-. exists a, rs. auto.
Qed.

Lemma round_retry_inv (pick : Z) (g g' : job) :
  round pagesize size alignment pick g = RRetry g' ->
  exists a rs,
    attempts pagesize alignment pick g = Ok (a, rs) /\
    allreduce_max (map snd rs) <> -1 /\
    g' = mk_job (map keep rs) (allreduce_max (map snd rs))
                (Z.min (alloc_size_max g) (mulu 2 (alloc_size g)))
                (alloc_size_max g).
Proof.
  unfold round. intros H.
  destruct (attempts pagesize alignment pick g) as [[a rs]| |];
    try discriminate.
  destruct (Z.eqb_spec (allreduce_max (map snd rs)) (-1)) as [|Hm].
  - destruct (all_ranks _ 0 rs); discriminate.
  - injection H as <-. exists a, rs. auto.
Qed.


End rounds.

Section loop.
Variables (pagesize size alignment : Z).
Variable picks : Z -> Z.

Lemma trials_ok (n : nat) :
  forall t g ps,
    trials pagesize size alignment picks n t g = Ok ps ->
    exists k gk, (k < n)%nat /\
      retries pagesize size alignment picks k t g = Some gk /\
      round pagesize size alignment (picks (t + Z.of_nat k)) gk = RSuccess ps.
Proof.
  induction n as [|n IH]; intros t g ps H; simpl in H; [discriminate|].
  destruct (round pagesize size alignment (picks t) g) as [ps'|g'|] eqn:Hr;
    try discriminate.
  - injection H as <-. exists O, g. rewrite Z.add_0_r. simpl.
    split; [lia|]. auto.
  - destruct (IH _ _ _ H) as (k & gk & Hk & Hret & Hround).
    exists (S k), gk. split; [lia|]. simpl. rewrite Hr.
    split; [exact Hret|]. rewrite <- Hround. do 2 f_equal. lia.
Qed.



End loop.


(** the collision scenario evaluated: after one retry, led by rank 2, all
    four ranks hold [[Y, Y + size)] *)
Example collision_scenario :
  let X := 1000 * 4096 in
  let Y := 2000 * 4096 in
  let picks := fun n : Z => if n =? 0 then X else Y in
  let spaces := [ []; []; [(X + 4096, X + 2 * 4096)]; [] ] in
  (exists g1, retries 4096 (4 * 4096) 16 picks 1 0
                      (initial_job 4096 (4 * 4096) (map enter spaces))
              = Some g1 /\ leader_rank g1 = 2) /\
  match reserve_same_vm_coll 4096 (4 * 4096) 16 picks spaces with
  | Ok ps => map vm ps = replicate 4 (mk_virtual_mem Y (4 * 4096))
  | _ => False
  end.
Proof.
  split.
  - eexists. split; vm_compute; reflexivity.
  - vm_compute. reflexivity.
Qed.


(** ** Which reservations are kept *)
Section deferral.
Variables (pagesize size alignment : Z).




End deferral.

(** ** The address that just failed is not handed out again *)
Section next_leader.
Variables (pagesize size alignment : Z).

Lemma round_up_small (x a : Z) :
  0 < a -> 0 <= x -> x + a <= SIZE_MOD ->
  round_up_pow2 x a = cdiv x a * a.
Proof.
  intros Ha Hx Hsum. unfold round_up_pow2.
  rewrite ceil_code_small by assumption.
  pose proof (cdiv_interval x a Ha). pose proof (cdiv_nonneg x a Ha Hx).
  apply mulu_small. nia.
Qed.




End next_leader.




(** * Properties of checkout spans *)

Section span_facts.
Variables (ori_checkout ori_checkout_nb : Z -> Z -> Z).

Lemma count_app (k : Z * Z) (l1 l2 : list (Z * Z)) :
  span.count k (l1 ++ l2) = (span.count k l1 + span.count k l2)%nat.
Proof. unfold span.count. rewrite filter_app, length_app. reflexivity. Qed.

Lemma checked_out_app (t1 t2 : span.trace) :
  span.checked_out (t1 ++ t2) = span.checked_out t1 ++ span.checked_out t2.
Proof. unfold span.checked_out. apply flat_map_app. Qed.

Lemma checked_in_app (t1 t2 : span.trace) :
  span.checked_in (t1 ++ t2) = span.checked_in t1 ++ span.checked_in t2.
Proof. unfold span.checked_in. apply flat_map_app. Qed.

(** replacing the object of one slot *)
Lemma held_insert (k : Z * Z) (st : span.store) :
  forall x o o',
    st !! x = Some o ->
    (span.count k (span.held (<[x := o']> st)) + span.count k (span.hold o)
     = span.count k (span.held st) + span.count k (span.hold o'))%nat.
Proof.
  unfold span.store in *.
  induction st as [|o0 st IH]; intros x o o' Hx; [discriminate|].
  destruct x as [|x]; simpl in Hx.
  - injection Hx as ->. unfold span.held.
    change (<[O := o']> (o :: st)) with (o' :: st).
    cbn [flat_map]. rewrite !count_app. lia.
  - specialize (IH x o o' Hx). unfold span.held in *.
    change (<[S x := o']> (o0 :: st)) with (o0 :: <[x := o']> st).
    cbn [flat_map]. rewrite !count_app. lia.
Qed.

(** a destroyed span's region has been checked in *)
Lemma destroy_counts (k : Z * Z) (cs : span.checkout_span) (tr : span.trace) :
  span.count k (span.checked_in (span.destroy cs tr))
  = (span.count k (span.checked_in tr) + span.count k (span.holding cs))%nat
  /\ span.checked_out (span.destroy cs tr) = span.checked_out tr.
Proof.
  unfold span.destroy, span.holding.
  destruct (negb (span.ptr_ cs =? 0)).
  - rewrite checked_in_app, checked_out_app, count_app. simpl.
    rewrite app_nil_r. auto.
  - split; [|reflexivity]. unfold span.count at 3. simpl. lia.
Qed.

Lemma checkin_counts (k : Z * Z) (cs cs' : span.checkout_span)
      (tr tr' : span.trace) :
  span.checkin cs tr = (cs', tr') ->
  span.count k (span.checked_in tr')
  = (span.count k (span.checked_in tr) + span.count k (span.holding cs))%nat
  /\ span.checked_out tr' = span.checked_out tr
  /\ span.holding cs' = [].
Proof.
  unfold span.checkin, span.holding.
  destruct (negb (span.ptr_ cs =? 0)) eqn:Hp; intros H; injection H as <- <-.
  - rewrite checked_in_app, checked_out_app, count_app. simpl.
    rewrite app_nil_r. auto.
  - rewrite Hp. unfold span.count at 3. simpl. split; [lia|auto].
Qed.


Lemma holding_copy (cs : span.checkout_span) :
  span.holding (span.mk_span (span.ptr_ cs) (span.n_ cs)) = span.holding cs.
Proof. destruct cs. reflexivity. Qed.

Lemma span_new_counts (gptr n : Z) (tr tr' : span.trace)
      (cs : span.checkout_span) :
  span.span_new ori_checkout gptr n tr = (Some cs, tr') ->
  span.checked_in tr' = span.checked_in tr /\
  span.checked_out tr' = span.checked_out tr ++ span.holding cs.
Proof.
  unfold span.span_new, span.span_init.
  destruct (negb (gptr =? 0) && (0 <? n)); simpl.
  - match goal with
    | |- context [if ?c then _ else _] => destruct c; [|discriminate]
    end.
    intros H. injection H as <- <-.
    rewrite checked_in_app, checked_out_app. simpl.
    rewrite !app_nil_r. auto.
  - destruct (n =? 0); [|discriminate]. simpl.
    intros H. injection H as <- <-. unfold span.holding. simpl.
    rewrite app_nil_r. auto.
Qed.

Lemma checkout_counts (k : Z * Z) (cs cs' : span.checkout_span)
      (gptr n : Z) (tr tr' : span.trace) :
  span.checkout ori_checkout cs gptr n tr = (cs', tr') ->
  span.count k (span.checked_in tr')
  = (span.count k (span.checked_in tr) + span.count k (span.holding cs))%nat
  /\ span.count k (span.checked_out tr')
     = (span.count k (span.checked_out tr)
        + span.count k (span.holding cs'))%nat.
Proof.
  unfold span.checkout.
  destruct (span.checkin cs tr) as [cs1 tr1] eqn:Hin.
  intros H. injection H as <- <-.
  destruct (checkin_counts k _ _ _ _ Hin) as (Hi & Ho & _).
  rewrite checked_in_app, checked_out_app, !count_app. simpl.
  rewrite Hi, Ho, app_nil_r. split; [|reflexivity].
  unfold span.count at 3. simpl. lia.
Qed.

Lemma checkout_nb_counts (k : Z * Z) (cs cs' : span.checkout_span)
      (gptr n : Z) (tr tr' : span.trace) :
  span.checkout_nb ori_checkout_nb cs gptr n tr = (cs', tr') ->
  span.count k (span.checked_in tr')
  = (span.count k (span.checked_in tr) + span.count k (span.holding cs))%nat
  /\ span.count k (span.checked_out tr')
     = (span.count k (span.checked_out tr)
        + span.count k (span.holding cs'))%nat.
Proof.
  unfold span.checkout_nb.
  destruct (span.checkin cs tr) as [cs1 tr1] eqn:Hin.
  intros H. injection H as <- <-.
  destruct (checkin_counts k _ _ _ _ Hin) as (Hi & Ho & _).
  rewrite checked_in_app, checked_out_app, !count_app. simpl.
  rewrite Hi, Ho, app_nil_r. split; [|reflexivity].
  unfold span.count at 3. simpl. lia.
Qed.

(** what a move assignment does to the two objects and to the trace *)
Lemma move_assign_spec (x y : nat) (st st' : span.store)
      (tr tr' : span.trace) :
  span.move_assign x y st tr = Some (st', tr') ->
  exists this cs,
    st !! x = Some (Some this) /\ st !! y = Some (Some cs) /\
    tr' = span.destroy this tr /\
    st' !! y = Some (Some (span.mk_span 0 0)) /\
    (x <> y ->
     st' !! x = Some (Some (span.mk_span (span.ptr_ cs) (span.n_ cs)))) /\
    forall k,
      (span.count k (span.held st') + span.count k (span.holding this)
       = span.count k (span.held st))%nat.
Proof.
  unfold span.move_assign, span.store in *. intros H.
  destruct (st !! x) as [[this|]|] eqn:Hx; try discriminate.
  destruct (st !! y) as [[cs|]|] eqn:Hy; try discriminate.
  injection H as <- <-. exists this, cs.
  pose proof (lookup_lt_Some _ _ _ Hx) as Hxl.
  pose proof (lookup_lt_Some _ _ _ Hy) as Hyl.
  split; [reflexivity|]. split; [reflexivity|]. split; [reflexivity|].
  split; [apply list_lookup_insert_eq; rewrite length_insert; exact Hyl|].
  split.
  - intros Hne. rewrite list_lookup_insert_ne by congruence.
    apply list_lookup_insert_eq. exact Hxl.
  - intros k.
    set (new := span.mk_span (span.ptr_ cs) (span.n_ cs)).
    pose proof (held_insert k st x _ (Some new) Hx) as H1.
    assert (Hy1 : exists o, <[x := Some new]> st !! y = Some o /\
                            span.hold o = span.holding cs).
    { destruct (Nat.eq_dec x y) as [->|Hne].
      - exists (Some new). rewrite list_lookup_insert_eq by exact Hyl.
        split; [reflexivity|]. apply holding_copy.
      - exists (Some cs). rewrite list_lookup_insert_ne by exact Hne.
        auto. }
    destruct Hy1 as (o & Ho & Hho).
    pose proof (held_insert k _ y _ (Some (span.mk_span 0 0)) Ho) as H2.
    rewrite Hho in H2. simpl in H1, H2.
    unfold new in H1 at 2. rewrite holding_copy in H1.
    change (span.holding (span.mk_span 0 0)) with (@nil (Z * Z)) in H2.
    change (span.count k []) with O in H2.
    subst new. unfold span.store, span.held in *. lia.
Qed.

Ltac fin := unfold span.store, span.held in *; lia.

Lemma step_balanced (o : span.op) (st st' : span.store)
      (tr tr' : span.trace) :
  span.step ori_checkout ori_checkout_nb o st tr = Some (st', tr') ->
  span.balanced st tr -> span.balanced st' tr'.
Proof.
  unfold span.balanced, span.store in *. intros Hstep Hb k.
  specialize (Hb k). destruct o as [x gptr n|x|x y|x y|x|x gptr n|x gptr n|x];
    cbn [span.step] in Hstep; unfold span.store in *.
  - destruct (st !! x) as [[|]|] eqn:Hx; try discriminate.
    destruct (span.span_new ori_checkout gptr n tr) as [[cs|] tr1] eqn:Hnew;
      try discriminate.
    injection Hstep as <- <-.
    apply span_new_counts in Hnew. destruct Hnew as [-> ->].
    pose proof (held_insert k st x _ (Some cs) Hx) as H1. cbn [span.hold] in H1.
    rewrite count_app. change (span.count k []) with O in H1. fin.
  - destruct (st !! x) as [[|]|] eqn:Hx; try discriminate.
    injection Hstep as <- <-.
    pose proof (held_insert k st x _ (Some span.span_default) Hx) as H1.
    cbn [span.hold] in H1. change (span.holding span.span_default) with (@nil (Z * Z)) in H1.
    change (span.count k []) with O in H1. fin.
  - destruct (st !! x) as [[|]|] eqn:Hx; try discriminate.
    destruct (st !! y) as [[cs|]|] eqn:Hy; try discriminate.
    injection Hstep as <- <-.
    assert (Hne : y <> x) by (intros ->; congruence).
    pose proof (held_insert k st y _ (Some (span.mk_span 0 0)) Hy) as H1.
    assert (Hx1 : <[y := Some (span.mk_span 0 0)]> st !! x = Some None)
      by (rewrite list_lookup_insert_ne by exact Hne; exact Hx).
    pose proof (held_insert k _ x _
                  (Some (span.mk_span (span.ptr_ cs) (span.n_ cs))) Hx1) as H2.
    cbn [span.hold] in H1, H2. rewrite holding_copy in H2.
    change (span.holding (span.mk_span 0 0)) with (@nil (Z * Z)) in H1.
    change (span.count k []) with O in H1, H2. fin.
  - apply move_assign_spec in Hstep.
    destruct Hstep as (this & cs & _ & _ & -> & _ & _ & Hk).
    specialize (Hk k).
    destruct (destroy_counts k this tr) as [-> ->]. fin.
  - destruct (st !! x) as [[cs|]|] eqn:Hx; try discriminate.
    destruct (span.checkin cs tr) as [cs' tr1] eqn:Hin.
    injection Hstep as <- <-.
    destruct (checkin_counts k _ _ _ _ Hin) as (-> & -> & Hnil).
    pose proof (held_insert k st x _ (Some cs') Hx) as H1. cbn [span.hold] in H1.
    rewrite Hnil in H1. change (span.count k []) with O in H1. fin.
  - destruct (st !! x) as [[cs|]|] eqn:Hx; try discriminate.
    destruct (span.checkout ori_checkout cs gptr n tr) as [cs' tr1] eqn:Hout.
    injection Hstep as <- <-.
    destruct (checkout_counts k _ _ _ _ _ _ Hout) as (-> & ->).
    pose proof (held_insert k st x _ (Some cs') Hx) as H1. cbn [span.hold] in H1. fin.
  - destruct (st !! x) as [[cs|]|] eqn:Hx; try discriminate.
    destruct (span.checkout_nb ori_checkout_nb cs gptr n tr)
      as [cs' tr1] eqn:Hout.
    injection Hstep as <- <-.
    destruct (checkout_nb_counts k _ _ _ _ _ _ Hout) as (-> & ->).
    pose proof (held_insert k st x _ (Some cs') Hx) as H1. cbn [span.hold] in H1. fin.
  - destruct (st !! x) as [[cs|]|] eqn:Hx; try discriminate.
    injection Hstep as <- <-.
    destruct (destroy_counts k cs tr) as [-> ->].
    pose proof (held_insert k st x _ None Hx) as H1. cbn [span.hold] in H1.
    change (span.count k []) with O in H1. fin.
Qed.

Lemma run_balanced (prog : list span.op) :
  forall st tr st' tr',
    span.run ori_checkout ori_checkout_nb prog st tr = Some (st', tr') ->
    span.balanced st tr -> span.balanced st' tr'.
Proof.
  induction prog as [|o prog IH]; intros st tr st' tr' H Hb; simpl in H.
  - injection H as <- <-. exact Hb.
  - destruct (span.step ori_checkout ori_checkout_nb o st tr)
      as [[st1 tr1]|] eqn:Hstep; [|discriminate].
    eapply IH; [exact H|]. eapply step_balanced; eassumption.
Qed.

Lemma held_all_dead (st : span.store) :
  Forall (fun o => o = None) st -> span.held st = [].
Proof.
  induction 1 as [|o st Ho _ IH]; [reflexivity|].
  subst o. unfold span.held in *. simpl. exact IH.
Qed.
End span_facts.

(** C8.  A span checks in what it holds exactly once.  The destructor
    calls [ori::checkin] exactly when [ptr_] is not null; move construction
    hands the holding to the new span and leaves the source inert; move
    assignment checks in what the destination held and then takes over
    the source's holding, leaving the source inert; and in every sequence
    of the operations the class offers (it offers no copy), each region
    that has been checked out is held by one live span or has been checked
    in once: when all spans are gone, check-ins and checkouts of every
    region are equal in number. *)
Theorem checkout_span_checks_in_once (ori_checkout ori_checkout_nb : Z -> Z -> Z) :
  (forall cs tr,
     (span.ptr_ cs <> 0 ->
      span.destroy cs tr
      = tr ++ [span.ev_checkin (span.ptr_ cs) (span.n_ cs)]) /\
     (span.ptr_ cs = 0 -> span.destroy cs tr = tr))
  /\ (forall cs tr,
        let '(new, cs') := span.span_move cs in
        span.ptr_ new = span.ptr_ cs /\ span.n_ new = span.n_ cs /\
        span.destroy new tr = span.destroy cs tr /\
        span.destroy cs' tr = tr)
  /\ (forall x y st tr st' tr',
        span.move_assign x y st tr = Some (st', tr') ->
        exists this cs,
          st !! x = Some (Some this) /\ st !! y = Some (Some cs) /\
          tr' = span.destroy this tr /\
          st' !! y = Some (Some (span.mk_span 0 0)) /\
          (x <> y ->
           st' !! x = Some (Some (span.mk_span (span.ptr_ cs) (span.n_ cs)))))
  /\ (forall prog m st tr,
        span.run ori_checkout ori_checkout_nb prog (replicate m None) []
        = Some (st, tr) ->
        span.balanced st tr /\
        (Forall (fun o => o = None) st ->
         forall k, span.count k (span.checked_in tr)
                   = span.count k (span.checked_out tr))).
Proof.
  split; [|split; [|split]].
  - intros cs tr. unfold span.destroy. split; intros H.
    + destruct (Z.eqb_spec (span.ptr_ cs) 0); [contradiction|reflexivity].
    + rewrite H. reflexivity.
  - intros cs tr. unfold span.span_move, span.destroy. simpl. auto.
  - intros x y st tr st' tr' H. apply move_assign_spec in H.
    destruct H as (this & cs & H1 & H2 & H3 & H4 & H5 & _).
    exists this, cs. auto.
  - intros prog m st tr Hrun.
    assert (Hb : span.balanced st tr).
    { eapply run_balanced; [exact Hrun|].
      intros k. replace (span.held (replicate m None)) with (@nil (Z * Z)).
      - reflexivity.
      - clear. induction m as [|m IH]; [reflexivity | exact IH]. }
    split; [exact Hb|]. intros Hdead k. specialize (Hb k).
    rewrite (held_all_dead st Hdead) in Hb.
    change (span.count k []) with O in Hb. lia.
Qed.

(** a span is checked out, moved twice and every object destroyed *)
Lemma checkout_span_checks_in_once_witness :
  let prog := [span.Construct 0 4096 8; span.Default 1; span.MoveAssign 1 0;
               span.MoveConstruct 2 1; span.Destroy 0; span.Destroy 1;
               span.Destroy 2] in
  exists st tr,
    span.run (fun gptr _ => gptr) (fun gptr _ => gptr) prog
             (replicate 3 None) [] = Some (st, tr) /\
    Forall (fun o => o = None) st /\
    forall k, span.count k (span.checked_in tr)
              = span.count k (span.checked_out tr).
Proof.
  intros prog.
  exists [None; None; None],
         [span.ev_checkout 4096 8 4096; span.ev_checkin 4096 8].
  assert (Hrun : span.run (fun gptr _ => gptr) (fun gptr _ => gptr) prog
                          (replicate 3 None) []
                 = Some ([None; None; None],
                         [span.ev_checkout 4096 8 4096;
                          span.ev_checkin 4096 8]))
    by reflexivity.
  assert (Hdead : Forall (fun o : option span.checkout_span => o = None)
                         [None; None; None])
    by (repeat constructor).
  split; [exact Hrun|]. split; [exact Hdead|].
  exact (proj2 (proj2 (proj2 (proj2
           (checkout_span_checks_in_once (fun gptr _ => gptr)
                                         (fun gptr _ => gptr))))
           prog 3%nat _ _ Hrun) Hdead).
Defined.

(** C10 as stated fails for a null pointer with a positive count: no span
    is constructed, the constructor's [ITYR_CHECK] rejects it. *)
Lemma null_pointer_with_count_is_rejected :
  ~ (forall (ori_checkout : Z -> Z -> Z) gptr n tr,
       n = 0 \/ gptr = 0 ->
       exists cs, span.span_new ori_checkout gptr n tr = (Some cs, tr) /\
                  span.data cs = 0).
Proof.
  intros H.
  destruct (H (fun gptr _ => gptr) 0 5 [] (or_intror eq_refl)) as (cs & Hc & _).
  vm_compute in Hc. discriminate Hc.
Qed.

(** C10, amended.  With [n = 0] or a null [gptr] the constructor performs
    no [ori::checkout] and its initialisers leave [ptr_] null; with [n = 0]
    it returns the empty span; with a null [gptr] and [n <> 0] its
    [ITYR_CHECK] fails.  Destroying a span whose [data()] is null, or
    calling [checkin()] on it, performs no [ori::checkin]. *)
Theorem empty_checkout_is_noop (ori_checkout : Z -> Z -> Z)
        (gptr n : Z) (tr : span.trace) :
  n = 0 \/ gptr = 0 ->
  span.span_init ori_checkout gptr n tr = (span.mk_span 0 n, tr)
  /\ snd (span.span_new ori_checkout gptr n tr) = tr
  /\ (n = 0 ->
      span.span_new ori_checkout gptr n tr = (Some (span.mk_span 0 0), tr))
  /\ (n <> 0 -> fst (span.span_new ori_checkout gptr n tr) = None)
  /\ (forall cs tr0,
        span.data cs = 0 ->
        span.destroy cs tr0 = tr0 /\ span.checkin cs tr0 = (cs, tr0)).
Proof.
  intros Hz.
  assert (Hinit : span.span_init ori_checkout gptr n tr
                  = (span.mk_span 0 n, tr)).
  { unfold span.span_init. destruct Hz as [-> | ->].
    - rewrite andb_false_r. reflexivity.
    - reflexivity. }
  split; [exact Hinit|]. unfold span.span_new. rewrite Hinit. simpl.
  split; [destruct (n =? 0); reflexivity|].
  split; [intros ->; reflexivity|]. split.
  - intros Hn. destruct (Z.eqb_spec n 0); [contradiction|reflexivity].
  - intros cs tr0 Hcs. unfold span.data in Hcs.
    unfold span.destroy, span.checkin. rewrite Hcs. auto.
Qed.

Lemma empty_checkout_is_noop_witness :
  (0 = 0 \/ 4096 = 0) /\
  span.span_new (fun gptr _ => gptr) 4096 0 [] = (Some (span.mk_span 0 0), []).
Proof.
  assert (Hz : 0 = 0 \/ 4096 = 0) by (left; reflexivity).
  split; [exact Hz|].
  exact (proj1 (proj2 (proj2
           (empty_checkout_is_noop (fun gptr _ => gptr) 4096 0 [] Hz)))
           eq_refl).
Defined.

(** * Properties of the parallel reduction *)

Section reduce_facts.
Variable serialized : list bool -> bool.
Variable cutoff_count : Z.

Lemma count_if_app (f : reduce.event -> bool) (l1 l2 : list reduce.event) :
  reduce.count_if f (l1 ++ l2)
  = (reduce.count_if f l1 + reduce.count_if f l2)%nat.
Proof. induction l1 as [|e l1 IH]; simpl; [reflexivity|]. rewrite IH. lia. Qed.

(** the trace of every invocation follows the discipline *)
Lemma parallel_reduce_generic_disciplined (fuel : nat) :
  forall path rh first last fresh evs hi,
    reduce.parallel_reduce_generic serialized cutoff_count fuel path rh
                                   first last fresh = Some (evs, hi) ->
    reduce.disciplined rh fresh evs hi.
Proof.
  induction fuel as [|fuel IH]; intros path rh first last fresh evs hi H;
    simpl in H; [discriminate|].
  destruct (wrap (last - first) <=? cutoff_count).
  - injection H as <- <-. constructor.
  - destruct (reduce.parallel_reduce_generic serialized cutoff_count fuel
                (false :: path) rh first (first + (last - first) ÷ 2) fresh)
      as [[child h1]|] eqn:Hchild; [|discriminate].
    apply IH in Hchild.
    destruct (serialized path).
    + destruct (reduce.parallel_reduce_generic serialized cutoff_count fuel
                  (true :: path) rh (first + (last - first) ÷ 2) last h1)
        as [[rhalf h2]|] eqn:Hright; [|discriminate].
      apply IH in Hright. injection H as <- <-.
      eapply reduce.disc_serialized; eassumption.
    + destruct (reduce.parallel_reduce_generic serialized cutoff_count fuel
                  (true :: path) h1 (first + (last - first) ÷ 2) last (S h1))
        as [[rhalf h2]|] eqn:Hright; [|discriminate].
      apply IH in Hright. injection H as <- <-.
      eapply reduce.disc_migrated; eassumption.
Qed.

(** with a cutoff of at least one element the recursion ends: both halves
    of a range longer than the cutoff are shorter than the range *)
Lemma parallel_reduce_generic_returns (fuel : nat) :
  forall path rh first last fresh,
    1 <= cutoff_count ->
    0 <= last - first < SIZE_MOD ->
    (Z.to_nat (last - first) < fuel)%nat ->
    exists evs hi,
      reduce.parallel_reduce_generic serialized cutoff_count fuel path rh
                                     first last fresh = Some (evs, hi).
Proof.
  induction fuel as [|fuel IH]; intros path rh first last fresh Hc Hd Hfuel;
    [lia|]. simpl.
  rewrite wrap_small by exact Hd.
  destruct (Z.leb_spec (last - first) cutoff_count) as [Hle|Hgt];
    [eauto|].
  set (d := last - first) in *.
  assert (Hq : 1 <= d ÷ 2 < d).
  { rewrite Z.quot_div_nonneg by lia.
    pose proof (div_interval d 2). lia. }
  destruct (IH (false :: path) rh first (first + d ÷ 2) fresh)
    as (child & h1 & ->); [assumption | lia | lia |].
  destruct (serialized path).
  - destruct (IH (true :: path) rh (first + d ÷ 2) last h1)
      as (rhalf & h2 & ->); [assumption | lia | lia |]. eauto.
  - destruct (IH (true :: path) h1 (first + d ÷ 2) last (S h1))
      as (rhalf & h2 & ->); [assumption | lia | lia |]. eauto.
Qed.
End reduce_facts.

Lemma disciplined_tokens (rh lo hi : reduce.handle) (evs : list reduce.event) :
  reduce.disciplined rh lo evs hi ->
  (lo <= hi)%nat /\
  Forall reduce.thread_callbacks_ok (flat_map reduce.all_events evs) /\
  reduce.count_if reduce.is_release_lazy (flat_map reduce.all_events evs)
  = (hi - lo)%nat /\
  reduce.count_if reduce.is_migrated_thread (flat_map reduce.all_events evs)
  = (hi - lo)%nat.
Proof.
  unfold reduce.handle in *.
  induction 1 as [rh lo first last
                 |rh lo h1 h2 first mid last child rhalf _ IHc _ IHr
                 |rh lo h1 h2 first mid last child rhalf _ IHc _ IHr].
  - simpl. split; [lia|]. split; [repeat constructor|].
    split; lia.
  - destruct IHc as (Hc1 & Hc2 & Hc3 & Hc4).
    destruct IHr as (Hr1 & Hr2 & Hr3 & Hr4).
    split; [lia|]. cbn [flat_map reduce.all_events app].
    rewrite !app_nil_r. split; [|split].
    + repeat (first [apply Forall_cons; split; [simpl; eauto|]
                    | apply Forall_app; split
                    | assumption | apply Forall_nil; exact I ]).
    + repeat first [ rewrite count_if_app
                   | progress cbn [reduce.count_if reduce.is_release_lazy] ].
      lia.
    + repeat first [ rewrite count_if_app
                   | progress cbn [reduce.count_if reduce.is_migrated_thread] ].
      lia.
  - destruct IHc as (Hc1 & Hc2 & Hc3 & Hc4).
    destruct IHr as (Hr1 & Hr2 & Hr3 & Hr4).
    split; [lia|]. cbn [flat_map reduce.all_events app].
    rewrite !app_nil_r. split; [|split].
    + repeat (first [apply Forall_cons; split; [simpl; eauto|]
                    | apply Forall_app; split
                    | assumption | apply Forall_nil; exact I ]).
    + repeat first [ rewrite count_if_app
                   | progress cbn [reduce.count_if reduce.is_release_lazy] ].
      lia.
    + repeat first [ rewrite count_if_app
                   | progress cbn [reduce.count_if reduce.is_migrated_thread] ].
      lia.
Qed.

(** C9.  [parallel_reduce_generic] returns (for a cutoff of at least one
    element), and its trace follows the discipline at every level of the
    recursion: each child thread is created with the callbacks
    [ori::acquire(rh)], on the handle the invocation was given, and
    [ori::release()], and runs on that handle; when the child is not
    serialized the parent calls [ori::release_lazy()] right after the
    spawn, recurses on the right half with the handle it returned, and
    calls [ori::release()] right before [join].  Over the whole trace the
    [release_lazy] calls are as many as the threads that migrated. *)
Theorem parallel_reduce_transfers_memory_order
        (serialized : list bool -> bool) (cutoff_count : Z) (fuel : nat)
        (path : list bool) (rh : reduce.handle) (first last : Z)
        (fresh : reduce.handle) :
  1 <= cutoff_count ->
  0 <= last - first < SIZE_MOD ->
  (Z.to_nat (last - first) < fuel)%nat ->
  exists evs hi,
    reduce.parallel_reduce_generic serialized cutoff_count fuel path rh
                                   first last fresh = Some (evs, hi) /\
    reduce.disciplined rh fresh evs hi /\
    Forall reduce.thread_callbacks_ok (flat_map reduce.all_events evs) /\
    reduce.count_if reduce.is_release_lazy (flat_map reduce.all_events evs)
    = reduce.count_if reduce.is_migrated_thread
                      (flat_map reduce.all_events evs).
Proof.
  intros Hc Hd Hfuel.
  destruct (parallel_reduce_generic_returns serialized cutoff_count fuel
              path rh first last fresh Hc Hd Hfuel) as (evs & hi & Hrun).
  exists evs, hi. split; [exact Hrun|].
  apply parallel_reduce_generic_disciplined in Hrun.
  split; [exact Hrun|].
  apply disciplined_tokens in Hrun.
  destruct Hrun as (_ & Hcb & Hl & Hm). split; [exact Hcb|]. congruence.
Qed.

(** eight elements, cutoff 2; only the child of the root migrates *)
Lemma parallel_reduce_transfers_memory_order_witness :
  let serialized := fun path : list bool =>
                      match path with [] => false | _ => true end in
  (1 <= 2 /\ 0 <= 8 - 0 < SIZE_MOD /\ (Z.to_nat (8 - 0) < 9)%nat) /\
  exists evs hi,
    reduce.parallel_reduce_generic serialized 2 9 [] 0%nat 0 8 1%nat
    = Some (evs, hi) /\
    reduce.disciplined 0%nat 1%nat evs hi.
Proof.
  intros serialized.
  assert (H1 : 1 <= 2) by lia.
  assert (H2 : 0 <= 8 - 0 < SIZE_MOD) by (rewrite SIZE_MOD_val; lia).
  assert (H3 : (Z.to_nat (8 - 0) < 9)%nat) by (vm_compute; lia).
  split; [auto|].
  destruct (parallel_reduce_transfers_memory_order serialized 2 9 [] 0%nat
              0 8 1%nat H1 H2 H3) as (evs & hi & Hrun & Hdisc & _).
  exists evs, hi. auto.
Defined.

(** * Further properties of the memory mapper *)
Import machine mem_mapper spec props.

(** the owner of a block is the only rank whose range holds it *)
Lemma block_owner_unique (N R blk r : Z) :
  0 < R -> 0 <= r -> 0 <= blk ->
  cdiv (r * N) R <= blk < cdiv ((r + 1) * N) R ->
  blk * R / N = r.
Proof.
  intros HR Hr Hblk [Hb He].
  pose proof (cdiv_interval (r * N) R HR) as Hcb.
  assert (HeN : blk * R < (r + 1) * N).
  { destruct (Z.lt_ge_cases (blk * R) ((r + 1) * N)) as [|Hge]; [assumption|].
    apply (cdiv_least _ R blk HR) in Hge. lia. }
  assert (HN : 0 < N) by nia.
  apply div_from_interval; [assumption|]. nia.
Qed.

Lemma block_adws_owner_unique (N R blk s : Z) :
  0 < R -> 0 <= s -> 0 <= blk -> 0 < N ->
  s * N / R <= blk < (s + 1) * N / R ->
  cdiv ((blk + 1) * R) N - 1 = s.
Proof.
  intros HR Hs Hblk HN [Hb He].
  pose proof (div_interval (s * N) R HR) as Hdb.
  pose proof (div_interval ((s + 1) * N) R HR) as Hde.
  assert (H1 : s < cdiv ((blk + 1) * R) N) by (apply cdiv_above; nia).
  assert (H2 : cdiv ((blk + 1) * R) N <= s + 1) by (apply cdiv_least; nia).
  lia.
Qed.

Lemma block_get_segment_same (BS size R Ri o o' : Z) (seg : segment) :
  block_fits BS size R -> 0 <= o ->
  block_get_segment BS (block_new BS size R Ri) o = Some seg ->
  offset_b seg <= o' < offset_e seg ->
  block_get_segment BS (block_new BS size R Ri) o' = Some seg.
Proof.
  intros Hf Ho Hseg Hin.
  pose proof Hf as (HB & Hsz & Hsum & HR & HNR).
  destruct (n_blk_bounds BS size) as [HN0 HNB]; try lia.
  assert (Hlt : o < cdiv size BS * BS).
  { unfold block_get_segment in Hseg.
    rewrite block_effective_size_eq in Hseg by assumption.
    destruct (Z.ltb_spec o (cdiv size BS * BS)); [assumption|discriminate]. }
  rewrite block_get_segment_eq in Hseg by (assumption || lia).
  set (N := cdiv size BS) in *. set (r := o / BS * R / N) in *.
  injection Hseg as <-. cbn [offset_b offset_e] in Hin.
  assert (Hblk : 0 <= o / BS < N)
    by (split; [apply floor_le | apply floor_lt]; lia).
  destruct (block_owner_range N R (o / BS)) as [Hr Hrange]; try lia.
  fold r in Hr, Hrange.
  assert (Hb : 0 <= cdiv (r * N) R) by (apply cdiv_nonneg; nia).
  assert (He : cdiv ((r + 1) * N) R <= N) by (apply cdiv_least; nia).
  assert (Hblk' : cdiv (r * N) R <= o' / BS < cdiv ((r + 1) * N) R)
    by (split; [apply floor_le | apply floor_lt]; lia).
  rewrite block_get_segment_eq by (assumption || fold N; nia).
  fold N. rewrite (block_owner_unique N R (o' / BS) r) by lia.
  reflexivity.
Qed.

Lemma block_adws_get_segment_same (BS size R Ri o o' : Z) (seg : segment) :
  block_adws_fits BS size R -> 0 <= o ->
  block_adws_get_segment BS (block_adws_new BS size R Ri) o = Some seg ->
  offset_b seg <= o' < offset_e seg ->
  block_adws_get_segment BS (block_adws_new BS size R Ri) o' = Some seg.
Proof.
  intros Hf Ho Hseg Hin.
  pose proof Hf as (HB & Hsz & Hsum & HR & HNR).
  destruct (n_blk_bounds BS size) as [HN0 HNB]; try lia.
  assert (Hlt : o < cdiv size BS * BS).
  { unfold block_adws_get_segment in Hseg.
    rewrite block_adws_effective_size_eq in Hseg by assumption.
    destruct (Z.ltb_spec o (cdiv size BS * BS)); [assumption|discriminate]. }
  rewrite block_adws_get_segment_eq in Hseg by (assumption || lia).
  set (N := cdiv size BS) in *.
  set (s := cdiv ((o / BS + 1) * R) N - 1) in *.
  injection Hseg as <-. cbn [offset_b offset_e] in Hin.
  assert (Hblk : 0 <= o / BS < N)
    by (split; [apply floor_le | apply floor_lt]; lia).
  destruct (block_adws_owner_range N R (o / BS)) as [Hs Hrange]; try lia.
  fold s in Hs, Hrange.
  assert (Hb : 0 <= s * N / R) by (apply floor_le; nia).
  assert (He : (s + 1) * N / R <= N).
  { assert ((s + 1) * N / R < N + 1) by (apply floor_lt; nia). lia. }
  assert (Hblk' : s * N / R <= o' / BS < (s + 1) * N / R)
    by (split; [apply floor_le | apply floor_lt]; lia).
  rewrite block_adws_get_segment_eq by (assumption || fold N; nia).
  fold N. rewrite (block_adws_owner_unique N R (o' / BS) s) by lia.
  reflexivity.
Qed.

Lemma cyclic_get_segment_same (BS S size R Ri o o' : Z) (seg : segment) :
  cyclic_fits BS S size R -> 0 <= o ->
  cyclic_get_segment (mk_cyclic size R Ri S) o = Some seg ->
  offset_b seg <= o' < offset_e seg ->
  cyclic_get_segment (mk_cyclic size R Ri S) o' = Some seg.
Proof.
  intros Hf Ho Hseg Hin.
  assert (Hlt : o < cyclic_effective_size (mk_cyclic size R Ri S)).
  { unfold cyclic_get_segment in Hseg.
    destruct (Z.ltb_spec o (cyclic_effective_size (mk_cyclic size R Ri S)));
      [assumption|discriminate]. }
  rewrite (cyclic_get_segment_eq BS) in Hseg by (assumption || lia).
  injection Hseg as <-. cbn [offset_b offset_e] in Hin.
  rewrite (cyclic_effective_size_eq BS) in Hlt by assumption.
  pose proof Hf as (HB & HS & Hmod & Hsz & Hsum & HR & HgR & Heff).
  assert (HS0 : 0 < S) by lia.
  pose proof (div_interval o S HS0) as Hg.
  assert (Hg0 : 0 <= o / S) by (apply floor_le; lia).
  assert (Hg' : o' / S = o / S) by (apply div_from_interval; lia).
  assert (HgL : o / S < cdiv (cdiv size S) R * R) by (apply floor_lt; lia).
  rewrite (cyclic_get_segment_eq BS)
    by (assumption || rewrite (cyclic_effective_size_eq BS) by assumption;
        nia).
  rewrite Hg'. reflexivity.
Qed.

(** Every offset inside the range of a returned segment is answered with
    that same segment, for the three policies: [get_segment] is constant on
    each of its ranges. *)
Theorem get_segment_constant_on_segment (BS S size R Ri o o' : Z)
        (seg : segment) :
  0 <= o -> offset_b seg <= o' < offset_e seg ->
  (block_fits BS size R ->
   block_get_segment BS (block_new BS size R Ri) o = Some seg ->
   block_get_segment BS (block_new BS size R Ri) o' = Some seg)
  /\ (block_adws_fits BS size R ->
      block_adws_get_segment BS (block_adws_new BS size R Ri) o = Some seg ->
      block_adws_get_segment BS (block_adws_new BS size R Ri) o' = Some seg)
  /\ (cyclic_fits BS S size R ->
      cyclic_get_segment (mk_cyclic size R Ri S) o = Some seg ->
      cyclic_get_segment (mk_cyclic size R Ri S) o' = Some seg).
Proof.
  intros Ho Hin. split; [|split]; intros Hf Hseg.
  - eapply block_get_segment_same; eassumption.
  - eapply block_adws_get_segment_same; eassumption.
  - eapply cyclic_get_segment_same; eassumption.
Qed.

Lemma get_segment_constant_on_segment_witness :
  block_get_segment 65536 (block_new 65536 (14 * 65536) 4 1) (6 * 65536 + 1)
  = Some (mk_segment 1 (4 * 65536) (7 * 65536) 0).
Proof.
  assert (Hf : block_fits 65536 (14 * 65536) 4)
    by (unfold block_fits; closed_arith).
  refine (proj1 (get_segment_constant_on_segment
                   65536 65536 (14 * 65536) 4 1 (5 * 65536) (6 * 65536 + 1)
                   (mk_segment 1 (4 * 65536) (7 * 65536) 0) _ _) Hf _).
  - lia.
  - simpl. lia.
  - vm_compute. reflexivity.
Defined.

(** ** Segments and the owner's local memory *)

Lemma block_segment_in_share (BS size R Ri o : Z) (seg : segment) :
  block_fits BS size R -> 0 <= o ->
  block_get_segment BS (block_new BS size R Ri) o = Some seg ->
  0 <= owner seg < R /\ pm_offset seg = 0 /\ 0 < seg_len seg /\
  seg_len seg = block_local_size BS (block_new BS size R Ri) (owner seg).
Proof.
  intros Hf Ho Hseg.
  pose proof Hf as (HB & Hsz & Hsum & HR & HNR).
  destruct (n_blk_bounds BS size) as [HN0 HNB]; try lia.
  assert (Hlt : o < cdiv size BS * BS).
  { unfold block_get_segment in Hseg.
    rewrite block_effective_size_eq in Hseg by assumption.
    destruct (Z.ltb_spec o (cdiv size BS * BS)); [assumption|discriminate]. }
  rewrite block_get_segment_eq in Hseg by (assumption || lia).
  set (N := cdiv size BS) in *. set (r := o / BS * R / N) in *.
  injection Hseg as <-. unfold seg_len. cbn [owner pm_offset offset_b offset_e].
  assert (Hblk : 0 <= o / BS < N)
    by (split; [apply floor_le | apply floor_lt]; lia).
  destruct (block_owner_range N R (o / BS)) as [Hr Hrange]; try lia.
  fold r in Hr, Hrange.
  rewrite block_local_size_eq by assumption. fold N.
  rewrite Z.max_r by lia. split; [exact Hr|]. split; [reflexivity|].
  split; nia.
Qed.

Lemma block_adws_segment_in_share (BS size R Ri o : Z) (seg : segment) :
  block_adws_fits BS size R -> 0 <= o ->
  block_adws_get_segment BS (block_adws_new BS size R Ri) o = Some seg ->
  0 <= owner seg < R /\ pm_offset seg = 0 /\ 0 < seg_len seg /\
  seg_len seg
  = block_adws_local_size BS (block_adws_new BS size R Ri) (owner seg).
Proof.
  intros Hf Ho Hseg.
  pose proof Hf as (HB & Hsz & Hsum & HR & HNR).
  destruct (n_blk_bounds BS size) as [HN0 HNB]; try lia.
  assert (Hlt : o < cdiv size BS * BS).
  { unfold block_adws_get_segment in Hseg.
    rewrite block_adws_effective_size_eq in Hseg by assumption.
    destruct (Z.ltb_spec o (cdiv size BS * BS)); [assumption|discriminate]. }
  rewrite block_adws_get_segment_eq in Hseg by (assumption || lia).
  set (N := cdiv size BS) in *.
  set (s := cdiv ((o / BS + 1) * R) N - 1) in *.
  injection Hseg as <-. unfold seg_len. cbn [owner pm_offset offset_b offset_e].
  assert (Hblk : 0 <= o / BS < N)
    by (split; [apply floor_le | apply floor_lt]; lia).
  destruct (block_adws_owner_range N R (o / BS)) as [Hs Hrange]; try lia.
  fold s in Hs, Hrange.
  rewrite block_adws_local_size_eq by (assumption || lia). fold N.
  replace (R - (R - s - 1) - 1) with s by ring.
  replace (R - (R - s - 1)) with (s + 1) by ring.
  rewrite Z.max_r by lia. split; [lia|]. split; [reflexivity|].
  split; nia.
Qed.

Lemma cyclic_segment_in_share (BS S size R Ri o : Z) (seg : segment) :
  cyclic_fits BS S size R -> 0 <= o ->
  cyclic_get_segment (mk_cyclic size R Ri S) o = Some seg ->
  0 <= owner seg < R /\ 0 <= pm_offset seg /\ seg_len seg = S /\
  pm_offset seg + seg_len seg
  <= cyclic_local_size (mk_cyclic size R Ri S) (owner seg).
Proof.
  intros Hf Ho Hseg.
  assert (Hlt : o < cyclic_effective_size (mk_cyclic size R Ri S)).
  { unfold cyclic_get_segment in Hseg.
    destruct (Z.ltb_spec o (cyclic_effective_size (mk_cyclic size R Ri S)));
      [assumption|discriminate]. }
  rewrite (cyclic_get_segment_eq BS) in Hseg by (assumption || lia).
  injection Hseg as <-. unfold seg_len, cyclic_local_size.
  cbn [owner pm_offset offset_b offset_e].
  rewrite (cyclic_effective_size_eq BS) in Hlt by assumption.
  rewrite (cyclic_local_size_impl_eq BS) by assumption.
  pose proof Hf as (HB & HS & Hmod & Hsz & Hsum & HR & HgR & Heff).
  assert (HS0 : 0 < S) by lia. assert (HR0 : 0 < R) by lia.
  assert (Hg0 : 0 <= o / S) by (apply floor_le; lia).
  assert (HgL : o / S < cdiv (cdiv size S) R * R) by (apply floor_lt; lia).
  assert (Hq0 : 0 <= o / S / R) by (apply floor_le; lia).
  assert (HqL : o / S / R < cdiv (cdiv size S) R) by (apply floor_lt; lia).
  pose proof (Z.mod_pos_bound (o / S) R HR0).
  split; [lia|]. split; [nia|]. split; [ring|]. nia.
Qed.

(** The home block of every segment lies inside the local memory of its
    owner: the owner is one of the [R] ranks and
    [pm_offset + (offset_e - offset_b) <= local_size(owner)].  For the two
    block policies the segment is the whole local share of its owner. *)
Theorem segment_within_local_share (BS S size R Ri o : Z) (seg : segment) :
  0 <= o ->
  (block_fits BS size R ->
   block_get_segment BS (block_new BS size R Ri) o = Some seg ->
   0 <= owner seg < R /\ pm_offset seg = 0 /\
   seg_len seg = block_local_size BS (block_new BS size R Ri) (owner seg))
  /\ (block_adws_fits BS size R ->
      block_adws_get_segment BS (block_adws_new BS size R Ri) o = Some seg ->
      0 <= owner seg < R /\ pm_offset seg = 0 /\
      seg_len seg
      = block_adws_local_size BS (block_adws_new BS size R Ri) (owner seg))
  /\ (cyclic_fits BS S size R ->
      cyclic_get_segment (mk_cyclic size R Ri S) o = Some seg ->
      0 <= owner seg < R /\ 0 <= pm_offset seg /\
      pm_offset seg + seg_len seg
      <= cyclic_local_size (mk_cyclic size R Ri S) (owner seg)).
Proof.
  intros Ho. split; [|split]; intros Hf Hseg.
  - destruct (block_segment_in_share _ _ _ _ _ _ Hf Ho Hseg)
      as (H1 & H2 & _ & H3). auto.
  - destruct (block_adws_segment_in_share _ _ _ _ _ _ Hf Ho Hseg)
      as (H1 & H2 & _ & H3). auto.
  - destruct (cyclic_segment_in_share _ _ _ _ _ _ _ Hf Ho Hseg)
      as (H1 & H2 & _ & H3). auto.
Qed.

Lemma segment_within_local_share_witness :
  let m := mk_cyclic (12 * 65536) 4 1 65536 in
  let seg := mk_segment 1 (5 * 65536) (6 * 65536) 65536 in
  pm_offset seg + seg_len seg <= cyclic_local_size m (owner seg).
Proof.
  intros m seg.
  assert (Hf : cyclic_fits 65536 65536 (12 * 65536) 4)
    by (unfold cyclic_fits; closed_arith).
  refine (proj2 (proj2 (proj2 (proj2 (segment_within_local_share
            65536 65536 (12 * 65536) 4 1 (5 * 65536 + 2) seg _)) Hf _))).
  - lia.
  - vm_compute. reflexivity.
Defined.

(** ** Home memory is not shared between segments *)

(** No two segments share home memory.  Under the two block policies a
    rank owns one segment; under the cyclic policy two segments of the same
    owner whose home blocks [[pm_offset, pm_offset + length)] meet are the
    same segment. *)
Theorem home_blocks_are_disjoint (BS S size R Ri o1 o2 : Z)
        (seg1 seg2 : segment) :
  0 <= o1 -> 0 <= o2 -> owner seg1 = owner seg2 ->
  (block_fits BS size R ->
   block_get_segment BS (block_new BS size R Ri) o1 = Some seg1 ->
   block_get_segment BS (block_new BS size R Ri) o2 = Some seg2 ->
   seg1 = seg2)
  /\ (block_adws_fits BS size R ->
      block_adws_get_segment BS (block_adws_new BS size R Ri) o1 = Some seg1 ->
      block_adws_get_segment BS (block_adws_new BS size R Ri) o2 = Some seg2 ->
      seg1 = seg2)
  /\ (cyclic_fits BS S size R ->
      cyclic_get_segment (mk_cyclic size R Ri S) o1 = Some seg1 ->
      cyclic_get_segment (mk_cyclic size R Ri S) o2 = Some seg2 ->
      pm_offset seg1 < pm_offset seg2 + seg_len seg2 ->
      pm_offset seg2 < pm_offset seg1 + seg_len seg1 ->
      seg1 = seg2).
Proof.
  intros Ho1 Ho2 Hown. split; [|split].
  - intros Hf H1 H2.
    pose proof Hf as (HB & Hsz & Hsum & HR & HNR).
    assert (Hlt : forall o seg,
               block_get_segment BS (block_new BS size R Ri) o = Some seg ->
               o < cdiv size BS * BS).
    { intros o seg H. unfold block_get_segment in H.
      rewrite block_effective_size_eq in H by assumption.
      destruct (Z.ltb_spec o (cdiv size BS * BS)); [assumption|discriminate]. }
    pose proof (Hlt _ _ H1). pose proof (Hlt _ _ H2).
    rewrite block_get_segment_eq in H1, H2 by (assumption || lia).
    injection H1 as <-. injection H2 as <-. cbn [owner] in Hown.
    rewrite Hown. reflexivity.
  - intros Hf H1 H2.
    pose proof Hf as (HB & Hsz & Hsum & HR & HNR).
    assert (Hlt : forall o seg,
               block_adws_get_segment BS (block_adws_new BS size R Ri) o
               = Some seg -> o < cdiv size BS * BS).
    { intros o seg H. unfold block_adws_get_segment in H.
      rewrite block_adws_effective_size_eq in H by assumption.
      destruct (Z.ltb_spec o (cdiv size BS * BS)); [assumption|discriminate]. }
    pose proof (Hlt _ _ H1). pose proof (Hlt _ _ H2).
    rewrite block_adws_get_segment_eq in H1, H2 by (assumption || lia).
    injection H1 as <-. injection H2 as <-. cbn [owner] in Hown.
    assert (Hs : cdiv ((o1 / BS + 1) * R) (cdiv size BS) - 1
                 = cdiv ((o2 / BS + 1) * R) (cdiv size BS) - 1) by lia.
    rewrite Hs. reflexivity.
  - intros Hf H1 H2 Hov1 Hov2.
    assert (Hlt : forall o seg,
               cyclic_get_segment (mk_cyclic size R Ri S) o = Some seg ->
               o < cyclic_effective_size (mk_cyclic size R Ri S)).
    { intros o seg H. unfold cyclic_get_segment in H.
      destruct (Z.ltb_spec o (cyclic_effective_size (mk_cyclic size R Ri S)));
        [assumption|discriminate]. }
    pose proof (Hlt _ _ H1). pose proof (Hlt _ _ H2).
    rewrite (cyclic_get_segment_eq BS) in H1, H2 by (assumption || lia).
    injection H1 as <-. injection H2 as <-.
    unfold seg_len in *. cbn [owner pm_offset offset_b offset_e] in *.
    pose proof Hf as (HB & HS & Hmod & Hsz & Hsum & HR & HgR & Heff).
    assert (HR0 : R <> 0) by lia.
    assert (Hq : o1 / S / R = o2 / S / R) by nia.
    assert (Hg : o1 / S = o2 / S).
    { rewrite (Z.div_mod (o1 / S) R HR0), (Z.div_mod (o2 / S) R HR0).
      rewrite Hq, Hown. reflexivity. }
    rewrite Hg. reflexivity.
Qed.

Lemma home_blocks_are_disjoint_witness :
  let m := mk_cyclic (12 * 65536) 4 1 65536 in
  exists seg1 seg2,
    cyclic_get_segment m (5 * 65536 + 2) = Some seg1 /\
    cyclic_get_segment m (6 * 65536 - 1) = Some seg2 /\ seg1 = seg2.
Proof.
  intros m.
  assert (Hf : cyclic_fits 65536 65536 (12 * 65536) 4)
    by (unfold cyclic_fits; closed_arith).
  destruct (cyclic_get_segment m (5 * 65536 + 2)) as [seg1|] eqn:H1;
    [|vm_compute in H1; discriminate].
  destruct (cyclic_get_segment m (6 * 65536 - 1)) as [seg2|] eqn:H2;
    [|vm_compute in H2; discriminate].
  exists seg1, seg2. split; [reflexivity|]. split; [reflexivity|].
  refine (proj2 (proj2 (home_blocks_are_disjoint
            65536 65536 (12 * 65536) 4 1 (5 * 65536 + 2) (6 * 65536 - 1)
            seg1 seg2 _ _ _)) Hf H1 H2 _ _).
  - lia.
  - lia.
  - vm_compute in H1, H2. injection H1 as <-. injection H2 as <-. reflexivity.
  - vm_compute in H1, H2. injection H1 as <-. injection H2 as <-.
    vm_compute. reflexivity.
  - vm_compute in H1, H2. injection H1 as <-. injection H2 as <-.
    vm_compute. reflexivity.
Defined.

(** ** The effective size *)

Lemma cdiv_cdiv (a b c : Z) :
  0 < b -> 0 < c -> cdiv (cdiv a b) c = cdiv a (b * c).
Proof.
  intros Hb Hc. apply cdiv_from_interval; [assumption|].
  assert (Hbc : 0 < b * c) by nia.
  pose proof (cdiv_interval a (b * c) Hbc) as H.
  split.
  - apply cdiv_above; [assumption|]. nia.
  - apply cdiv_least; [assumption|]. nia.
Qed.

(** [effective_size()] is [size] rounded up: to the next multiple of the
    block size under the two block policies, and to the next multiple of
    one round of segments, [seg_size * n_inter_ranks], under the cyclic
    policy, where it is also [n_inter_ranks] times the local size. *)
Theorem effective_size_rounds_size_up (BS S size R Ri : Z) :
  (block_fits BS size R ->
   let eff := block_effective_size BS (block_new BS size R Ri) in
   size <= eff < size + BS /\ eff mod BS = 0)
  /\ (block_adws_fits BS size R ->
      let eff := block_adws_effective_size BS (block_adws_new BS size R Ri) in
      size <= eff < size + BS /\ eff mod BS = 0)
  /\ (cyclic_fits BS S size R ->
      let m := mk_cyclic size R Ri S in
      let eff := cyclic_effective_size m in
      size <= eff < size + S * R /\ eff mod (S * R) = 0 /\
      forall r, eff = cyclic_local_size m r * R).
Proof.
  split; [|split].
  - intros Hf eff. subst eff. rewrite block_effective_size_eq by assumption.
    destruct Hf as (HB & _). destruct HB as [HB _].
    pose proof (cdiv_interval size BS HB).
    split; [lia|]. apply Z.mod_mul. lia.
  - intros Hf eff. subst eff.
    rewrite block_adws_effective_size_eq by assumption.
    destruct Hf as (HB & _). destruct HB as [HB _].
    pose proof (cdiv_interval size BS HB).
    split; [lia|]. apply Z.mod_mul. lia.
  - intros Hf m eff. subst eff m.
    rewrite (cyclic_effective_size_eq BS) by assumption.
    unfold cyclic_local_size.
    rewrite (cyclic_local_size_impl_eq BS) by assumption.
    destruct Hf as (HB & HS & Hmod & Hsz & Hsum & HR & HgR & Heff).
    assert (HS0 : 0 < S) by lia. assert (HR0 : 0 < R) by lia.
    rewrite cdiv_cdiv by assumption.
    assert (HSR : 0 < S * R) by nia.
    pose proof (cdiv_interval size (S * R) HSR).
    split; [nia|]. split; [|reflexivity].
    rewrite <- Z.mul_assoc. apply Z.mod_mul. lia.
Qed.

Lemma effective_size_rounds_size_up_witness :
  let eff := block_effective_size 65536 (block_new 65536 (14 * 65536 - 7) 4 1) in
  14 * 65536 - 7 <= eff < 14 * 65536 - 7 + 65536 /\ eff mod 65536 = 0.
Proof.
  assert (Hf : block_fits 65536 (14 * 65536 - 7) 4)
    by (unfold block_fits; closed_arith).
  exact (proj1 (effective_size_rounds_size_up 65536 65536 (14 * 65536 - 7) 4 1)
               Hf).
Defined.

(** ** The local sizes add up *)

Lemma sum_ranks_succ (f : Z -> Z) (R : Z) :
  0 <= R -> sum_ranks f (R + 1) = sum_ranks f R + f R.
Proof.
  intros HR. unfold sum_ranks.
  replace (Z.to_nat (R + 1)) with (S (Z.to_nat R)) by lia.
  rewrite seq_S, map_app, fold_right_app. simpl.
  rewrite Z2Nat.id by assumption.
  generalize (map (fun i : nat => f (Z.of_nat i)) (seq 0 (Z.to_nat R))).
  intros l. induction l as [|x l IH]; simpl; [lia|]. rewrite IH. lia.
Qed.

Lemma sum_ranks_0 (f : Z -> Z) : sum_ranks f 0 = 0.
Proof. reflexivity. Qed.

Lemma sum_ranks_telescope (f : Z -> Z) (R : Z) :
  0 <= R -> sum_ranks (fun r => f (r + 1) - f r) R = f R - f 0.
Proof.
  intros HR. pattern R. apply natlike_ind; [| |assumption].
  - rewrite sum_ranks_0. lia.
  - intros x Hx IH. unfold Z.succ. rewrite sum_ranks_succ by assumption. lia.
Qed.

Lemma sum_ranks_le (f g : Z -> Z) (R : Z) :
  0 <= R -> (forall r, 0 <= r < R -> f r <= g r) ->
  sum_ranks f R <= sum_ranks g R.
Proof.
  intros HR. pattern R. apply natlike_ind; [| |assumption].
  - intros _. rewrite !sum_ranks_0. lia.
  - intros x Hx IH H. unfold Z.succ. rewrite !sum_ranks_succ by assumption.
    specialize (H x ltac:(lia)) as Hx'.
    assert (sum_ranks f x <= sum_ranks g x) by (apply IH; intros; apply H; lia).
    lia.
Qed.

Lemma sum_ranks_ext (f g : Z -> Z) (R : Z) :
  0 <= R -> (forall r, 0 <= r < R -> f r = g r) ->
  sum_ranks f R = sum_ranks g R.
Proof.
  intros HR H. apply Z.le_antisymm; apply sum_ranks_le; try assumption;
    intros r Hr; rewrite (H r Hr); lia.
Qed.

Lemma sum_ranks_const (c R : Z) : 0 <= R -> sum_ranks (fun _ => c) R = c * R.
Proof.
  intros HR. pattern R. apply natlike_ind; [| |assumption].
  - rewrite sum_ranks_0. lia.
  - intros x Hx IH. unfold Z.succ. rewrite sum_ranks_succ by assumption. lia.
Qed.

Lemma sum_ranks_scale (f : Z -> Z) (c R : Z) :
  0 <= R -> sum_ranks (fun r => f r * c) R = sum_ranks f R * c.
Proof.
  intros HR. pattern R. apply natlike_ind; [| |assumption].
  - rewrite !sum_ranks_0. lia.
  - intros x Hx IH. unfold Z.succ. rewrite !sum_ranks_succ by assumption. lia.
Qed.

(** The local sizes of the [R] ranks cover the effective size: their sum is
    at least [effective_size()], and exactly [effective_size()] under the
    cyclic policy and, under the two block policies, as soon as there are
    at least as many blocks as ranks (a rank without a block still gets one
    block of local memory). *)
Theorem local_sizes_cover_effective_size (BS S size R Ri : Z) :
  (block_fits BS size R ->
   let m := block_new BS size R Ri in
   block_effective_size BS m <= sum_ranks (block_local_size BS m) R /\
   (R <= cdiv size BS ->
    sum_ranks (block_local_size BS m) R = block_effective_size BS m))
  /\ (block_adws_fits BS size R ->
      let m := block_adws_new BS size R Ri in
      block_adws_effective_size BS m
      <= sum_ranks (block_adws_local_size BS m) R /\
      (R <= cdiv size BS ->
       sum_ranks (block_adws_local_size BS m) R
       = block_adws_effective_size BS m))
  /\ (cyclic_fits BS S size R ->
      let m := mk_cyclic size R Ri S in
      sum_ranks (cyclic_local_size m) R = cyclic_effective_size m).
Proof.
  split; [|split].
  - intros Hf m. subst m.
    pose proof Hf as (HB & Hsz & Hsum & HR & HNR).
    rewrite block_effective_size_eq by assumption.
    set (N := cdiv size BS) in *.
    assert (HN0 : 0 <= N) by (apply cdiv_nonneg; lia).
    set (f := fun r => cdiv (r * N) R).
    assert (Htel : sum_ranks (fun r => (f (r + 1) - f r) * BS) R = N * BS).
    { rewrite sum_ranks_scale, sum_ranks_telescope by lia. unfold f.
      rewrite (Z.mul_comm R N), cdiv_mul by lia.
      change (0 * N) with 0. rewrite cdiv_0. f_equal. lia. }
    assert (Hext : sum_ranks (block_local_size BS (block_new BS size R Ri)) R
                   = sum_ranks (fun r => Z.max 1 (f (r + 1) - f r) * BS) R).
    { apply sum_ranks_ext; [lia|]. intros r Hr.
      apply block_local_size_eq; assumption. }
    rewrite Hext. split.
    + rewrite <- Htel. apply sum_ranks_le; [lia|]. intros r Hr. nia.
    + intros HRN. rewrite <- Htel. apply sum_ranks_ext; [lia|].
      intros r Hr. f_equal. apply Z.max_r. unfold f.
      assert (cdiv (r * N) R < cdiv ((r + 1) * N) R); [|lia].
      apply cdiv_above; [lia|].
      pose proof (cdiv_interval (r * N) R ltac:(lia)). nia.
  - intros Hf m. subst m.
    pose proof Hf as (HB & Hsz & Hsum & HR & HNR).
    rewrite block_adws_effective_size_eq by assumption.
    set (N := cdiv size BS) in *.
    assert (HN0 : 0 <= N) by (apply cdiv_nonneg; lia).
    set (f := fun r => - ((R - r) * N / R)).
    assert (Htel : sum_ranks (fun r => (f (r + 1) - f r) * BS) R = N * BS).
    { rewrite sum_ranks_scale, sum_ranks_telescope by lia. unfold f.
      replace (R - R) with 0 by ring. replace (R - 0) with R by ring.
      rewrite (Z.mul_comm R N), Z.div_mul by lia.
      change (0 * N) with 0. rewrite Zdiv_0_l. f_equal. lia. }
    assert (Hd : forall r, f (r + 1) - f r
                           = (R - r) * N / R - (R - r - 1) * N / R).
    { intros r. unfold f. replace (R - (r + 1)) with (R - r - 1) by ring.
      lia. }
    assert (Hext : sum_ranks
                     (block_adws_local_size BS (block_adws_new BS size R Ri)) R
                   = sum_ranks (fun r => Z.max 1 (f (r + 1) - f r) * BS) R).
    { apply sum_ranks_ext; [lia|]. intros r Hr. rewrite Hd.
      apply block_adws_local_size_eq; assumption. }
    rewrite Hext. split.
    + rewrite <- Htel. apply sum_ranks_le; [lia|]. intros r Hr. nia.
    + intros HRN. rewrite <- Htel. apply sum_ranks_ext; [lia|].
      intros r Hr. f_equal. apply Z.max_r. rewrite Hd.
      assert ((R - r - 1) * N / R + 1 <= (R - r) * N / R); [|lia].
      apply floor_le; [lia|].
      pose proof (div_interval ((R - r - 1) * N) R ltac:(lia)). nia.
  - intros Hf m. subst m.
    rewrite (cyclic_effective_size_eq BS) by assumption.
    pose proof Hf as (HB & HS & Hmod & Hsz & Hsum & HR & HgR & Heff).
    rewrite (sum_ranks_ext _ (fun _ => cdiv (cdiv size S) R * S)).
    + apply sum_ranks_const. lia.
    + lia.
    + intros r _. unfold cyclic_local_size.
      apply (cyclic_local_size_impl_eq BS). assumption.
Qed.

Lemma local_sizes_cover_effective_size_witness :
  let m := block_new 65536 (14 * 65536) 4 1 in
  sum_ranks (block_local_size 65536 m) 4 = block_effective_size 65536 m.
Proof.
  intros m.
  assert (Hf : block_fits 65536 (14 * 65536) 4)
    by (unfold block_fits; closed_arith).
  refine (proj2 (proj1 (local_sizes_cover_effective_size
                          65536 65536 (14 * 65536) 4 1) Hf) _).
  vm_compute. discriminate.
Defined.

(** ** The NUMA level *)

(** [get_numa_segment] of the block policy is the block policy itself,
    run over the local share of the rank and the ranks of a node *)
Lemma block_numa_as_block (BS : Z) (m : block) (rank pm : Z) :
  let LS := block_local_size BS m rank in
  mulu (divu (subu (addu LS BS) 1) BS) BS = LS ->
  mem_mapper_numa.block_get_numa_segment BS m rank pm
  = option_map as_numa
      (block_get_segment BS (block_new BS LS (n_intra_ranks_ m)
                                       (n_intra_ranks_ m)) pm).
Proof.
  intros LS H.
  unfold mem_mapper_numa.block_get_numa_segment, block_get_segment,
    block_effective_size, block_get_seg_range.
  cbn [n_blk_ block_new n_inter_ranks_]. fold LS. rewrite H.
  destruct (pm <? LS); [|reflexivity]. cbv zeta.
  repeat match goal with
         | |- context [if ?c then _ else _] => destruct c
         end;
    unfold as_numa; cbn [option_map owner offset_b offset_e]; reflexivity.
Qed.

Lemma block_adws_numa_as_block (BS : Z) (m : block) (rank pm : Z) :
  let LS := block_adws_local_size BS m rank in
  mulu (divu (subu (addu LS BS) 1) BS) BS = LS ->
  mem_mapper_numa.block_adws_get_numa_segment BS m rank pm
  = option_map as_numa
      (block_adws_get_segment BS (block_adws_new BS LS (n_intra_ranks_ m)
                                                 (n_intra_ranks_ m)) pm).
Proof.
  intros LS H.
  unfold mem_mapper_numa.block_adws_get_numa_segment, block_adws_get_segment,
    block_adws_effective_size, block_adws_get_seg_range.
  cbn [n_blk_ block_adws_new n_inter_ranks_]. fold LS. rewrite H.
  destruct (pm <? LS); [|reflexivity]. cbv zeta.
  repeat match goal with
         | |- context [if ?c then _ else _] => destruct c
         end;
    unfold as_numa; cbn [option_map owner offset_b offset_e]; reflexivity.
Qed.

(** a local share of whole blocks *)
Lemma share_blocks (BS LS L : Z) :
  0 < BS -> 1 <= L -> LS = L * BS -> LS + BS <= SIZE_MOD ->
  cdiv LS BS = L /\ LS / BS = L /\
  mulu (divu (subu (addu LS BS) 1) BS) BS = LS.
Proof.
  intros HB HL -> Hsum.
  assert (Hc : cdiv (L * BS) BS = L) by (apply cdiv_mul; assumption).
  split; [exact Hc|]. split; [apply Z.div_mul; lia|].
  rewrite ceil_code_small by nia. rewrite Hc. apply mulu_small. nia.
Qed.

Lemma block_local_size_blocks (BS size R Ri rank : Z) :
  block_fits BS size R -> 0 <= rank < R ->
  exists L, 1 <= L /\
            block_local_size BS (block_new BS size R Ri) rank = L * BS.
Proof.
  intros Hf Hr. rewrite block_local_size_eq by assumption.
  eexists. split; [|reflexivity]. lia.
Qed.

Lemma block_adws_local_size_blocks (BS size R Ri rank : Z) :
  block_adws_fits BS size R -> 0 <= rank < R ->
  exists L, 1 <= L /\
            block_adws_local_size BS (block_adws_new BS size R Ri) rank
            = L * BS.
Proof.
  intros Hf Hr. rewrite block_adws_local_size_eq by assumption.
  eexists. split; [|reflexivity]. lia.
Qed.

(** [block::get_numa_segment].  Inside the local share [LS] of a rank
    ([L = LS / B] blocks, [Ri] ranks per node) the physical offset [pm] is
    given to the intra-node rank [s = floor((pm / B) Ri / L)] with the range
    [[ceil(s L / Ri) B, ceil((s + 1) L / Ri) B)]: both assertions hold, the
    owner is one of the [Ri] ranks, the range holds [pm], ends inside the
    share and is made of whole blocks, and every offset of the range gets
    the same answer.  It is the block policy run over the share. *)
Theorem block_numa_segment (BS size R Ri rank pm : Z) :
  block_fits BS size R -> 0 <= rank < R ->
  let m := block_new BS size R Ri in
  let LS := block_local_size BS m rank in
  block_fits BS LS Ri -> 0 <= pm < LS ->
  let L := LS / BS in
  let s := (pm / BS) * Ri / L in
  let b := cdiv (s * L) Ri * BS in
  let e := cdiv ((s + 1) * L) Ri * BS in
  mem_mapper_numa.block_get_numa_segment BS m rank pm
  = Some (mem_mapper_numa.mk_numa_segment s b e)
  /\ 0 <= s < Ri /\ b <= pm < e /\ e <= LS /\ (e - b) mod BS = 0
  /\ (forall pm', b <= pm' < e ->
        mem_mapper_numa.block_get_numa_segment BS m rank pm'
        = Some (mem_mapper_numa.mk_numa_segment s b e))
  /\ mem_mapper_numa.block_get_numa_segment BS m rank pm
     = option_map as_numa (block_get_segment BS (block_new BS LS Ri Ri) pm).
Proof.
  intros Hf Hr m LS Hfl Hpm L s b e.
  destruct (block_local_size_blocks BS size R Ri rank Hf Hr) as (L' & HL' & HLS).
  fold m in HLS. fold LS in HLS.
  pose proof Hfl as (HB & _ & Hsum & HRi & HNR).
  destruct (share_blocks BS LS L' ltac:(lia) HL' HLS Hsum) as (Hc & Hd & Hcode).
  fold L in Hd. rewrite Hc in HNR. rewrite <- Hd in *. clear Hd L' HL'.
  assert (Hcomp : forall pm',
             mem_mapper_numa.block_get_numa_segment BS m rank pm'
             = option_map as_numa
                 (block_get_segment BS (block_new BS LS Ri Ri) pm')).
  { intros pm'. apply (block_numa_as_block BS m rank pm'). exact Hcode. }
  assert (Hblk : 0 <= pm / BS < L)
    by (split; [apply floor_le | apply floor_lt]; lia).
  destruct (block_owner_range L Ri (pm / BS)) as [Hs Hrange]; try lia.
  fold s in Hs, Hrange.
  assert (Hb0 : 0 <= cdiv (s * L) Ri) by (apply cdiv_nonneg; nia).
  assert (HeL : cdiv ((s + 1) * L) Ri <= L) by (apply cdiv_least; nia).
  destruct (blocks_around BS pm (cdiv (s * L) Ri) (cdiv ((s + 1) * L) Ri))
    as [Hin Hmod]; try lia.
  assert (Hseg : block_get_segment BS (block_new BS LS Ri Ri) pm
                 = Some (mk_segment s b e 0)).
  { rewrite block_get_segment_eq by (assumption || rewrite Hc; lia).
    rewrite Hc. reflexivity. }
  split; [rewrite Hcomp, Hseg; reflexivity|].
  split; [exact Hs|]. split; [exact Hin|]. split; [unfold e; nia|].
  split; [exact Hmod|]. split; [|apply Hcomp].
  intros pm' Hpm'. rewrite Hcomp.
  rewrite (block_get_segment_same BS LS Ri Ri pm pm' (mk_segment s b e 0));
    try assumption; [reflexivity | lia].
Qed.

Lemma block_numa_segment_witness :
  mem_mapper_numa.block_get_numa_segment
    65536 (block_new 65536 (14 * 65536) 4 2) 0 (3 * 65536 + 5)
  = Some (mem_mapper_numa.mk_numa_segment 1 (2 * 65536) (4 * 65536)).
Proof.
  assert (Hf : block_fits 65536 (14 * 65536) 4)
    by (unfold block_fits; closed_arith).
  assert (Hfl : block_fits 65536 (block_local_size 65536
                  (block_new 65536 (14 * 65536) 4 2) 0) 2)
    by (unfold block_fits; closed_arith).
  refine (proj1 (block_numa_segment 65536 (14 * 65536) 4 2 0 (3 * 65536 + 5)
                   Hf _ Hfl _)).
  - lia.
  - vm_compute. split; [discriminate | reflexivity].
Defined.

(** [block_adws::get_numa_segment].  Inside the local share [LS] of a rank
    ([L = LS / B] blocks, [Ri] ranks per node) the physical offset [pm]
    falls into the floor-boundary range
    [[floor(s L / Ri) B, floor((s + 1) L / Ri) B)] with
    [s = ceil((pm / B + 1) Ri / L) - 1], which is given to the intra-node
    rank [Ri - s - 1]: both assertions hold, the owner is one of the [Ri]
    ranks, the range holds [pm], ends inside the share and is made of whole
    blocks, and every offset of the range gets the same answer.  It is the
    reverse-block policy run over the share. *)
Theorem block_adws_numa_segment (BS size R Ri rank pm : Z) :
  block_adws_fits BS size R -> 0 <= rank < R ->
  let m := block_adws_new BS size R Ri in
  let LS := block_adws_local_size BS m rank in
  block_adws_fits BS LS Ri -> 0 <= pm < LS ->
  let L := LS / BS in
  let s := cdiv ((pm / BS + 1) * Ri) L - 1 in
  let b := s * L / Ri * BS in
  let e := (s + 1) * L / Ri * BS in
  mem_mapper_numa.block_adws_get_numa_segment BS m rank pm
  = Some (mem_mapper_numa.mk_numa_segment (Ri - s - 1) b e)
  /\ 0 <= Ri - s - 1 < Ri /\ b <= pm < e /\ e <= LS /\ (e - b) mod BS = 0
  /\ (forall pm', b <= pm' < e ->
        mem_mapper_numa.block_adws_get_numa_segment BS m rank pm'
        = Some (mem_mapper_numa.mk_numa_segment (Ri - s - 1) b e))
  /\ mem_mapper_numa.block_adws_get_numa_segment BS m rank pm
     = option_map as_numa
         (block_adws_get_segment BS (block_adws_new BS LS Ri Ri) pm).
Proof.
  intros Hf Hr m LS Hfl Hpm L s b e.
  destruct (block_adws_local_size_blocks BS size R Ri rank Hf Hr)
    as (L' & HL' & HLS).
  fold m in HLS. fold LS in HLS.
  pose proof Hfl as (HB & _ & Hsum & HRi & HNR).
  destruct (share_blocks BS LS L' ltac:(lia) HL' HLS Hsum) as (Hc & Hd & Hcode).
  fold L in Hd. rewrite Hc in HNR. rewrite <- Hd in *. clear Hd L' HL'.
  assert (Hcomp : forall pm',
             mem_mapper_numa.block_adws_get_numa_segment BS m rank pm'
             = option_map as_numa
                 (block_adws_get_segment BS (block_adws_new BS LS Ri Ri) pm')).
  { intros pm'. apply (block_adws_numa_as_block BS m rank pm'). exact Hcode. }
  assert (Hblk : 0 <= pm / BS < L)
    by (split; [apply floor_le | apply floor_lt]; lia).
  destruct (block_adws_owner_range L Ri (pm / BS)) as [Hs Hrange]; try lia.
  fold s in Hs, Hrange.
  assert (Hb0 : 0 <= s * L / Ri) by (apply floor_le; nia).
  assert (HeL : (s + 1) * L / Ri <= L).
  { assert ((s + 1) * L / Ri < L + 1) by (apply floor_lt; nia). lia. }
  destruct (blocks_around BS pm (s * L / Ri) ((s + 1) * L / Ri))
    as [Hin Hmod]; try lia.
  assert (Hseg : block_adws_get_segment BS (block_adws_new BS LS Ri Ri) pm
                 = Some (mk_segment (Ri - s - 1) b e 0)).
  { rewrite block_adws_get_segment_eq by (assumption || rewrite Hc; lia).
    rewrite Hc. reflexivity. }
  split; [rewrite Hcomp, Hseg; reflexivity|].
  split; [lia|]. split; [exact Hin|]. split; [unfold e; nia|].
  split; [exact Hmod|]. split; [|apply Hcomp].
  intros pm' Hpm'. rewrite Hcomp.
  rewrite (block_adws_get_segment_same BS LS Ri Ri pm pm'
             (mk_segment (Ri - s - 1) b e 0));
    try assumption; [reflexivity | lia].
Qed.

Lemma block_adws_numa_segment_witness :
  mem_mapper_numa.block_adws_get_numa_segment
    65536 (block_adws_new 65536 (14 * 65536) 4 2) 0 (3 * 65536 + 5)
  = Some (mem_mapper_numa.mk_numa_segment 0 (2 * 65536) (4 * 65536)).
Proof.
  assert (Hf : block_adws_fits 65536 (14 * 65536) 4)
    by (unfold block_adws_fits; closed_arith).
  assert (Hfl : block_adws_fits 65536 (block_adws_local_size 65536
                  (block_adws_new 65536 (14 * 65536) 4 2) 0) 2)
    by (unfold block_adws_fits; closed_arith).
  refine (proj1 (block_adws_numa_segment 65536 (14 * 65536) 4 2 0
                   (3 * 65536 + 5) Hf _ Hfl _)).
  - lia.
  - vm_compute. split; [discriminate | reflexivity].
Defined.

(** * Further properties of the virtual-memory reservation *)
Import vm.

Section address_space.
Variable pagesize : Z.

Lemma mapped_app (s1 s2 : aspace) (x : Z) :
  mapped (s1 ++ s2) x = mapped s1 x || mapped s2 x.
Proof. unfold mapped. apply existsb_app. Qed.

Lemma mapped_cons (r : Z * Z) (s : aspace) (x : Z) :
  mapped (r :: s) x = within (fst r) (snd r) x || mapped s x.
Proof. reflexivity. Qed.

Lemma mapped_cut (b e : Z) (r : Z * Z) (x : Z) :
  mapped (cut b e r) x = within (fst r) (snd r) x && negb (within b e x).
Proof.
  unfold cut, within. destruct r as [rb re]. cbn [fst snd].
  rewrite mapped_app.
  destruct (Z.ltb_spec rb (Z.min re b)), (Z.ltb_spec (Z.max rb e) re);
    unfold mapped; cbn [existsb fst snd];
    destruct (Z.leb_spec rb x), (Z.ltb_spec x re), (Z.leb_spec b x),
      (Z.ltb_spec x e), (Z.ltb_spec x (Z.min re b)),
      (Z.leb_spec (Z.max rb e) x); simpl; try reflexivity; lia.
Qed.

(** unmapping [[b, e)] removes these addresses and no other *)
Lemma mapped_unmap (s : aspace) (b e x : Z) :
  mapped (unmap s b e) x = mapped s x && negb (within b e x).
Proof.
  unfold unmap. induction s as [|r s IH]; [reflexivity|].
  cbn [flat_map]. rewrite mapped_app, mapped_cons, mapped_cut, IH.
  destruct (within (fst r) (snd r) x), (mapped s x), (within b e x);
    reflexivity.
Qed.

Lemma is_free_not_mapped (s : aspace) (b e x : Z) :
  is_free s b e = true -> b <= x < e -> mapped s x = false.
Proof.
  intros Hfree Hx. unfold mapped.
  destruct (existsb _ s) eqn:Hex; [|reflexivity].
  apply existsb_exists in Hex. destruct Hex as (r & Hin & Hr).
  unfold is_free in Hfree. rewrite forallb_forall in Hfree.
  specialize (Hfree r Hin). unfold overlaps in Hfree.
  apply andb_prop in Hr. destruct Hr as [H1 H2].
  apply Z.leb_le in H1. apply Z.ltb_lt in H2.
  destruct (Z.ltb_spec (fst r) e), (Z.ltb_spec b (snd r));
    simpl in Hfree; try discriminate; lia.
Qed.



(** rounding a size up to whole pages *)
Lemma round_up_pages (x : Z) :
  0 < pagesize -> 0 <= x -> x + pagesize <= SIZE_MOD ->
  round_up_pow2 x pagesize = cdiv x pagesize * pagesize.
Proof.
  intros HP Hx Hsum. unfold round_up_pow2.
  rewrite ceil_code_small by assumption.
  pose proof (cdiv_interval x pagesize HP).
  pose proof (cdiv_nonneg x pagesize HP Hx).
  apply mulu_small. nia.
Qed.

Lemma cdiv_pos (x a : Z) : 0 < a -> 0 < x -> 0 < cdiv x a.
Proof. intros Ha Hx. apply (cdiv_above x a 0); lia. Qed.

(** what a successful fixed mapping is *)
Lemma vm_at_ok (addr size alignment : Z) (s : aspace) :
  addr <> 0 -> addr mod alignment = 0 -> addr mod pagesize = 0 -> 0 < size ->
  is_free s addr (addr + round_up_pow2 size pagesize) = true ->
  vm_at pagesize addr size alignment s
  = Ok (mk_virtual_mem addr size,
        (addr, addr + round_up_pow2 size pagesize) :: s).
Proof.
  intros Hne Hal HP Hsz Hfree. unfold vm_at, mmap_no_physical_mem.
  destruct (Z.eqb_spec addr 0) as [|_]; [contradiction|].
  rewrite Hal. cbn [Z.eqb]. unfold sys_mmap_fixed_noreplace.
  rewrite HP. destruct (Z.ltb_spec 0 size) as [_|]; [|lia].
  cbn [Z.eqb andb]. rewrite Hfree. cbn [and_then].
  rewrite Z.eqb_refl. reflexivity.
Qed.

Lemma vm_at_inv (addr size alignment : Z) (s s1 : aspace) (v : virtual_mem) :
  vm_at pagesize addr size alignment s = Ok (v, s1) ->
  addr <> 0 /\ addr mod alignment = 0 /\ addr mod pagesize = 0 /\ 0 < size /\
  is_free s addr (addr + round_up_pow2 size pagesize) = true /\
  v = mk_virtual_mem addr size /\
  s1 = (addr, addr + round_up_pow2 size pagesize) :: s.
Proof.
  unfold vm_at, mmap_no_physical_mem. intros H.
  destruct (Z.eqb_spec addr 0) as [->|Hne].
  - exfalso. unfold sys_mmap_anywhere in H. simpl in H. discriminate.
  - destruct (Z.eqb_spec (addr mod alignment) 0) as [Hal|]; [|discriminate].
    unfold sys_mmap_fixed_noreplace in H.
    destruct (Z.eqb_spec (addr mod pagesize) 0) as [HP|]; [|discriminate].
    destruct (Z.ltb_spec 0 size) as [Hsz|]; [|discriminate].
    cbn [andb] in H.
    destruct (is_free s addr (addr + round_up_pow2 size pagesize)) eqn:Hfree;
      [|discriminate].
    cbn [and_then] in H. rewrite Z.eqb_refl in H. injection H as <- <-.
    auto 10.
Qed.

Lemma munmap_ok (addr size : Z) (s : aspace) :
  0 < size -> addr mod pagesize = 0 ->
  munmap pagesize addr size s
  = Ok (unmap s addr (addr + round_up_pow2 size pagesize)).
Proof.
  intros Hsz HP. unfold munmap, sys_munmap. rewrite HP.
  destruct (Z.ltb_spec 0 size) as [_|]; [|lia]. reflexivity.
Qed.

End address_space.

(** ** The life of a [virtual_mem] *)



(** ** Anonymous reservations *)

Lemma cdiv_add_mul (k x P : Z) : 0 < P -> cdiv (k * P + x) P = k + cdiv x P.
Proof.
  intros HP. unfold cdiv.
  replace (- (k * P + x)) with (- x + - k * P) by ring.
  rewrite Z.div_add by lia. ring.
Qed.

Lemma multiple_of (x P : Z) : 0 < P -> x mod P = 0 -> exists k, x = k * P.
Proof.
  intros HP Hx. exists (x / P).
  rewrite (Z.div_mod x P) at 1 by lia. rewrite Hx. ring.
Qed.

Ltac cmp_cases :=
  repeat match goal with
         | |- context [?a <=? ?b] => destruct (Z.leb_spec a b)
         | |- context [?a <? ?b] => destruct (Z.ltb_spec a b)
         | H : context [?a <=? ?b] |- _ => destruct (Z.leb_spec a b)
         | H : context [?a <? ?b] |- _ => destruct (Z.ltb_spec a b)
         end.

Section anonymous.
Variables (P alignment pick size : Z) (s : aspace).
Hypothesis HP : 0 < P < 2 ^ 60.
Hypothesis Hal : 0 < alignment < 2 ^ 60.
Hypothesis Hsize : 0 < size < 2 ^ 60.
Hypothesis Hpick : 0 < pick < 2 ^ 60.
Hypothesis Hpage : pick mod P = 0.
Hypothesis Hfree :
  is_free s pick (pick + cdiv (size + alignment) P * P) = true.

(** what [virtual_mem(size, alignment)] returns: the grant rounded up to the
    alignment, when this address is page-aligned and the pages of the
    reservation end inside the [size + alignment] bytes that were asked
    for; in every other case an assertion fails *)
Lemma mmap_anywhere_cases :
  let ret := cdiv pick alignment * alignment in
  pick <= ret < pick + alignment /\
  if (ret mod P =? 0) && (ret + cdiv size P * P <=? pick + size + alignment)
  then exists s',
         mmap_no_physical_mem P pick 0 size false alignment s = Ok (ret, s') /\
         forall x, mapped s' x
                   = within ret (ret + cdiv size P * P) x || mapped s x
  else mmap_no_physical_mem P pick 0 size false alignment s = Fatal.
Proof.
  intros ret.
  assert (HP0 : 0 < P) by lia. assert (Hal0 : 0 < alignment) by lia.
  pose proof (cdiv_interval pick alignment Hal0) as Hret. fold ret in Hret.
  assert (Hrange : pick <= ret < pick + alignment) by lia.
  split; [exact Hrange|].
  assert (H60 : 2 ^ 60 * 16 = SIZE_MOD) by reflexivity.
  unfold mmap_no_physical_mem. cbn [Z.eqb].
  rewrite (addu_small size alignment) by lia.
  unfold sys_mmap_anywhere.
  rewrite (round_up_pages P (size + alignment)) by lia.
  rewrite Hpage, Hfree.
  destruct (Z.ltb_spec 0 pick) as [_|]; [|lia].
  destruct (Z.ltb_spec 0 (size + alignment)) as [_|]; [|lia].
  cbn [Z.eqb andb]. cbv zeta. rewrite Hpage. cbn [Z.eqb].
  rewrite (round_up_small pick alignment) by lia. fold ret.
  destruct (Z.eqb_spec (ret mod P) 0) as [Hrp|Hrp]; [|reflexivity].
  cbn [andb].
  destruct (Z.leb_spec pick ret) as [_|]; [|lia].
  rewrite (subu_small ret pick) by lia.
  destruct (multiple_of pick P HP0 Hpage) as [kp Hkp].
  destruct (multiple_of ret P HP0 Hrp) as [kr Hkr].
  assert (Hpages : 0 < cdiv size P) by (apply cdiv_pos; lia).
  pose proof (cdiv_interval size P HP0) as Hsz_pages.
  pose proof (cdiv_interval (size + alignment) P HP0) as Hall_pages.
  rewrite (addu_small pick (size + alignment)) by lia.
  rewrite (addu_small ret size) by lia.
  rewrite (round_up_pages P (ret + size)) by lia.
  assert (Hrpe : cdiv (ret + size) P * P = ret + cdiv size P * P).
  { rewrite Hkr, cdiv_add_mul by assumption. ring. }
  rewrite Hrpe.
  set (E := pick + cdiv (size + alignment) P * P) in *.
  set (rpe := ret + cdiv size P * P) in *.
  (* the head *)
  assert (Hhead : exists s2,
             (if 0 <? ret - pick
              then munmap P pick (ret - pick) ((pick, E) :: s)
              else @Ok aspace ((pick, E) :: s)) = Ok s2 /\
             forall x, mapped s2 x
                       = (within pick E x || mapped s x)
                         && negb (within pick ret x)).
  { destruct (Z.ltb_spec 0 (ret - pick)) as [Hgt|Hle].
    - rewrite munmap_ok by assumption. eexists. split; [reflexivity|].
      intros x. rewrite mapped_unmap, mapped_cons. cbn [fst snd].
      rewrite (round_up_pages P (ret - pick)) by lia.
      replace (ret - pick) with ((kr - kp) * P) by lia.
      rewrite cdiv_mul by assumption.
      replace (pick + (kr - kp) * P) with ret by lia. reflexivity.
    - eexists. split; [reflexivity|]. intros x. rewrite mapped_cons.
      cbn [fst snd]. assert (ret = pick) by lia.
      replace (within pick ret x) with false; [rewrite andb_true_r; reflexivity|].
      unfold within. destruct (Z.leb_spec pick x), (Z.ltb_spec x ret);
        simpl; try reflexivity; lia. }
  destruct Hhead as (s2 & -> & Hs2). cbn [and_then].
  destruct (Z.leb_spec rpe (pick + (size + alignment))) as [Hend|Hend].
  - destruct (Z.leb_spec rpe (pick + size + alignment)) as [_|]; [|lia].
    rewrite (subu_small (pick + (size + alignment)) rpe) by lia.
    assert (HE : rpe + cdiv (pick + (size + alignment) - rpe) P * P = E).
    { unfold rpe, E.
      replace (pick + (size + alignment) - (ret + cdiv size P * P))
        with ((kp - kr - cdiv size P) * P + (size + alignment)) by lia.
      rewrite cdiv_add_mul by assumption. lia. }
    assert (Htail : exists s3,
               (if 0 <? pick + (size + alignment) - rpe
                then munmap P rpe (pick + (size + alignment) - rpe) s2
                else Ok s2) = Ok s3 /\
               forall x, mapped s3 x = mapped s2 x && negb (within rpe E x)).
    { destruct (Z.ltb_spec 0 (pick + (size + alignment) - rpe)) as [Hgt|Hle].
      - assert (Hmod : rpe mod P = 0).
        { unfold rpe. rewrite Hkr.
          replace (kr * P + cdiv size P * P) with ((kr + cdiv size P) * P)
            by ring.
          apply Z.mod_mul. lia. }
        rewrite munmap_ok by assumption. eexists. split; [reflexivity|].
        intros x. rewrite mapped_unmap.
        rewrite (round_up_pages P) by lia. rewrite HE. reflexivity.
      - eexists. split; [reflexivity|]. intros x.
        assert (Heq : pick + (size + alignment) = rpe) by lia.
        assert (HEr : E = rpe).
        { rewrite <- HE, Heq, Z.sub_diag, cdiv_0. lia. }
        replace (within rpe E x) with false;
          [rewrite andb_true_r; reflexivity|].
        unfold within. rewrite HEr.
        destruct (Z.leb_spec rpe x), (Z.ltb_spec x rpe);
          simpl; try reflexivity; lia. }
    destruct Htail as (s3 & -> & Hs3). cbn [and_then].
    exists s3. split; [reflexivity|]. intros x. rewrite Hs3, Hs2.
    assert (HrpeE : rpe <= E) by (rewrite <- HE;
      pose proof (cdiv_nonneg (pick + (size + alignment) - rpe) P HP0); nia).
    destruct (within pick E x) eqn:Hw.
    + assert (Hm : mapped s x = false).
      { apply (is_free_not_mapped _ _ _ _ Hfree). fold E.
        unfold within in Hw. cmp_cases; simpl in Hw; try discriminate; lia. }
      rewrite Hm. unfold within in *.
      cmp_cases; simpl in *; try reflexivity; try discriminate; lia.
    + unfold within in *. destruct (mapped s x);
        cmp_cases; simpl in *; try reflexivity; try discriminate; lia.
  - destruct (Z.leb_spec rpe (pick + size + alignment)) as [|_]; [lia|].
    reflexivity.
Qed.

End anonymous.

(** [virtual_mem(size, alignment)].  The kernel grants the free, page-aligned
    range at [pick] for [size + alignment] bytes; [ret] is [pick] rounded up
    to the alignment.  If [ret] is page-aligned and the pages of
    [[ret, ret + size)] end inside the [size + alignment] bytes asked for,
    the object holds [ret], which is not null, aligned and less than
    [alignment] above [pick], and exactly the pages of [[ret, ret + size)]
    were added to the address space: head and tail of the grant are
    unmapped again.  Otherwise an assertion fails; this is the case for a
    size that is not a multiple of the page size when the alignment is
    smaller than the rest of its last page. *)
Theorem anonymous_reservation (P alignment pick size : Z) (s : aspace) :
  0 < P < 2 ^ 60 -> 0 < alignment < 2 ^ 60 -> 0 < size < 2 ^ 60 ->
  0 < pick < 2 ^ 60 -> pick mod P = 0 ->
  is_free s pick (pick + cdiv (size + alignment) P * P) = true ->
  let ret := cdiv pick alignment * alignment in
  (ret mod P = 0 -> ret + cdiv size P * P <= pick + size + alignment ->
   exists s',
     vm_anywhere P pick size alignment s = Ok (mk_virtual_mem ret size, s') /\
     ret <> 0 /\ ret mod alignment = 0 /\ pick <= ret < pick + alignment /\
     forall x, mapped s' x
               = within ret (ret + cdiv size P * P) x || mapped s x)
  /\ (ret mod P <> 0 \/ pick + size + alignment < ret + cdiv size P * P ->
      vm_anywhere P pick size alignment s = Fatal)
  /\ (pick mod alignment = 0 -> size + alignment < cdiv size P * P ->
      vm_anywhere P pick size alignment s = Fatal).
Proof.
  intros HP Hal Hsize Hpick Hpage Hfree ret.
  destruct (mmap_anywhere_cases P alignment pick size s
              HP Hal Hsize Hpick Hpage Hfree) as [Hrange Hcases].
  fold ret in Hrange, Hcases. unfold vm_anywhere.
  assert (Hfatal : ret mod P <> 0 \/
                   pick + size + alignment < ret + cdiv size P * P ->
                   and_then
                     (mmap_no_physical_mem P pick 0 size false alignment s)
                     (fun z => match z with
                               | (a, s') => Ok (mk_virtual_mem a size, s')
                               end) = Fatal).
  { intros Hbad.
    destruct (Z.eqb_spec (ret mod P) 0) as [Hrp|Hrp];
      [destruct (Z.leb_spec (ret + cdiv size P * P)
                            (pick + size + alignment)) as [Hend|Hend]|];
      cbn [andb] in Hcases; try (rewrite Hcases; reflexivity).
    exfalso. lia. }
  split; [|split].
  - intros Hrp Hend. rewrite Hrp in Hcases. cbn [Z.eqb andb] in Hcases.
    destruct (Z.leb_spec (ret + cdiv size P * P) (pick + size + alignment))
      as [_|]; [|lia].
    destruct Hcases as (s' & Hmap & Hs'). exists s'. rewrite Hmap.
    split; [reflexivity|]. split; [lia|]. split; [apply Z.mod_mul; lia|].
    split; assumption.
  - exact Hfatal.
  - intros Haligned Hshort. apply Hfatal. right.
    assert (ret = pick); [|lia]. unfold ret.
    destruct (multiple_of pick alignment ltac:(lia) Haligned) as [k ->].
    rewrite cdiv_mul by lia. reflexivity.
Qed.

Lemma anonymous_reservation_witness :
  exists s',
    vm_anywhere 4096 (1001 * 4096) (32 * 4096) 8192 []
    = Ok (mk_virtual_mem (1002 * 4096) (32 * 4096), s') /\
    forall x, mapped s' x = within (1002 * 4096) (1034 * 4096) x || mapped [] x.
Proof.
  destruct (proj1 (anonymous_reservation 4096 8192 (1001 * 4096) (32 * 4096) []
                     ltac:(lia) ltac:(lia) ltac:(lia) ltac:(lia)
                     eq_refl eq_refl) eq_refl ltac:(vm_compute; discriminate))
    as (s' & Hvm & _ & _ & _ & Hmapped).
  exists s'. split; [exact Hvm | exact Hmapped].
Defined.

(** a reservation of 100 bytes with the default alignment does not pass
    the assertions *)
Example anonymous_reservation_of_part_of_a_page :
  vm_anywhere 4096 (1000 * 4096) 100 16 [] = Fatal.
Proof. reflexivity. Qed.

(** ** Shrinking *)

(** what [shrink] returns, and the address space it leaves *)
Lemma vm_shrink_ok (P to_size : Z) (v : virtual_mem) (s : aspace) :
  0 < P -> 0 < addr_ v -> addr_ v mod P = 0 -> 0 <= to_size <= size_ v ->
  addr_ v + size_ v + P <= SIZE_MOD ->
  vm_shrink P to_size v s
  = Ok (mk_virtual_mem (addr_ v) to_size,
        if cdiv to_size P <? cdiv (size_ v) P
        then unmap s (addr_ v + cdiv to_size P * P)
                     (addr_ v + cdiv (size_ v) P * P)
        else s).
Proof.
  intros HP Ha Hpage Hto Hsum. destruct v as [a sz]. cbn [addr_ size_] in *.
  unfold vm_shrink. cbn [addr_ size_].
  destruct (Z.eqb_spec a 0) as [|_]; [lia|]. cbn [negb].
  destruct (Z.leb_spec to_size sz) as [_|]; [|lia].
  rewrite !(round_up_pages P) by lia.
  assert (Hmono : cdiv to_size P <= cdiv sz P) by (apply cdiv_mono; lia).
  assert (Hto0 : 0 <= cdiv to_size P) by (apply cdiv_nonneg; lia).
  pose proof (cdiv_interval sz P HP) as Hsz.
  destruct (Z.ltb_spec (cdiv to_size P) (cdiv sz P)) as [Hlt|Hge].
  - destruct (Z.ltb_spec (cdiv to_size P * P) (cdiv sz P * P)) as [_|]; [|nia].
    rewrite (addu_small a) by nia. rewrite subu_small by nia.
    destruct (multiple_of a P HP Hpage) as [k Hk].
    rewrite munmap_ok;
      [|nia|rewrite Hk;
            replace (k * P + cdiv to_size P * P)
              with ((k + cdiv to_size P) * P) by ring;
            apply Z.mod_mul; lia].
    cbn [and_then].
    assert (HaP : P <= a).
    { assert (1 <= k) by (destruct (Z.le_gt_cases k 0); [nia|lia]). nia. }
    assert (Hx : 0 <= cdiv sz P * P - cdiv to_size P * P <= sz + P) by nia.
    rewrite (round_up_pages P) by lia.
    replace (cdiv sz P * P - cdiv to_size P * P)
      with ((cdiv sz P - cdiv to_size P) * P) by ring.
    rewrite cdiv_mul by assumption.
    replace (a + cdiv to_size P * P + (cdiv sz P - cdiv to_size P) * P)
      with (a + cdiv sz P * P) by ring.
    reflexivity.
  - destruct (Z.ltb_spec (cdiv to_size P * P) (cdiv sz P * P)) as [|_]; [nia|].
    reflexivity.
Qed.

(** [virtual_mem::shrink].  For a reservation at a page-aligned address,
    [shrink(to_size)] with [to_size <= size()] keeps the address, sets the
    size, and unmaps exactly the pages between the page ends of [to_size]
    and of the old size; nothing is unmapped when both sizes need the same
    number of pages.  After [shrink(0)] the object is not null and holds no
    page: its destructor calls [munmap] with size 0, which fails the
    assertion. *)
Theorem shrink_unmaps_the_tail_pages (P to_size : Z) (v : virtual_mem)
        (s : aspace) :
  0 < P -> 0 < addr_ v -> addr_ v mod P = 0 -> 0 <= to_size <= size_ v ->
  addr_ v + size_ v + P <= SIZE_MOD ->
  exists s',
    vm_shrink P to_size v s = Ok (mk_virtual_mem (addr_ v) to_size, s') /\
    (forall x, mapped s' x
               = mapped s x &&
                 negb (within (addr_ v + cdiv to_size P * P)
                              (addr_ v + cdiv (size_ v) P * P) x)) /\
    (cdiv to_size P = cdiv (size_ v) P -> s' = s) /\
    (to_size = 0 ->
     vm_destroy P (mk_virtual_mem (addr_ v) to_size) s' = Fatal).
Proof.
  intros HP Ha Hpage Hto Hsum.
  rewrite (vm_shrink_ok P to_size v s HP Ha Hpage Hto Hsum).
  eexists. split; [reflexivity|].
  assert (Hmono : cdiv to_size P <= cdiv (size_ v) P)
    by (apply cdiv_mono; lia).
  split; [|split].
  - intros x.
    destruct (Z.ltb_spec (cdiv to_size P) (cdiv (size_ v) P)) as [Hlt|Hge].
    + apply mapped_unmap.
    + replace (within _ _ x) with false;
        [rewrite andb_true_r; reflexivity|].
      unfold within. cmp_cases; simpl; try reflexivity; nia.
  - intros ->. rewrite Z.ltb_irrefl. reflexivity.
  - intros ->. unfold vm_destroy. cbn [addr_ size_].
    destruct (Z.eqb_spec (addr_ v) 0) as [|_]; [lia|]. reflexivity.
Qed.

Lemma shrink_unmaps_the_tail_pages_witness :
  exists s',
    vm_shrink 4096 (4 * 4096) (mk_virtual_mem (1000 * 4096) (8 * 4096))
              [(1000 * 4096, 1008 * 4096)]
    = Ok (mk_virtual_mem (1000 * 4096) (4 * 4096), s') /\
    mapped s' (1003 * 4096) = true /\ mapped s' (1004 * 4096) = false.
Proof.
  destruct (shrink_unmaps_the_tail_pages
              4096 (4 * 4096) (mk_virtual_mem (1000 * 4096) (8 * 4096))
              [(1000 * 4096, 1008 * 4096)]
              ltac:(lia) ltac:(simpl; lia) eq_refl ltac:(simpl; lia)
              ltac:(rewrite SIZE_MOD_val; simpl; lia))
    as (s' & Hs & Hm & _).
  exists s'. split; [exact Hs|].
  rewrite !Hm. split; reflexivity.
Defined.

(** ** A round without a collision *)

Lemma all_ranks_build {A B : Type} (f : Z -> A -> outcome B) (g : A -> B)
      (ps : list A) :
  forall me,
    (forall i p, ps !! i = Some p -> f (me + Z.of_nat i) p = Ok (g p)) ->
    all_ranks f me ps = Ok (map g ps).
Proof.
  induction ps as [|p ps IH]; intros me H; [reflexivity|].
  cbn [all_ranks map]. pose proof (H O p eq_refl) as H0.
  cbn [Z.of_nat] in H0. rewrite Z.add_0_r in H0. rewrite H0.
  cbn [and_then].
  rewrite (IH (me + 1)); [reflexivity|].
  intros i q Hq. rewrite <- (H (S i) q Hq). f_equal. lia.
Qed.

Section first_round.
Variables (P size alignment : Z) (picks : Z -> Z).
Variables (s0 : aspace) (rest : list aspace).
Hypothesis HP : 0 < P < 2 ^ 59.
Hypothesis Hal : 0 < alignment < 2 ^ 60.
Hypothesis Hsize : 0 < size < 2 ^ 59.
Hypothesis Hpick : 0 < picks 0 < 2 ^ 60.
Hypothesis Hpage : picks 0 mod P = 0.

Let asz := cdiv size P * P.
Let a := cdiv (picks 0) alignment * alignment.

Hypothesis Ha_page : a mod P = 0.
Hypothesis Hfree0 :
  is_free s0 (picks 0) (picks 0 + cdiv (asz + alignment) P * P) = true.
Hypothesis Hfree : Forall (fun s => is_free s a (a + asz) = true) rest.

Lemma first_round_sizes :
  0 < asz < 2 ^ 60 /\ size <= asz /\ cdiv asz P = cdiv size P /\
  round_up_pow2 size P = asz /\ round_up_pow2 asz P = asz /\
  picks 0 <= a < picks 0 + alignment.
Proof.
  assert (HP0 : 0 < P) by lia.
  pose proof (cdiv_interval size P HP0) as Hi.
  pose proof (cdiv_pos size P HP0 ltac:(lia)) as Hpos.
  assert (H59 : 2 ^ 59 * 2 = 2 ^ 60) by reflexivity.
  assert (H60 : 2 ^ 60 * 16 = SIZE_MOD) by reflexivity.
  assert (Hasz : 0 < asz < 2 ^ 60) by (unfold asz; nia).
  assert (Hc : cdiv asz P = cdiv size P) by (apply cdiv_mul; assumption).
  split; [exact Hasz|]. split; [unfold asz; lia|]. split; [exact Hc|].
  split; [apply round_up_pages; lia|].
  split; [rewrite round_up_pages by lia; rewrite Hc; reflexivity|].
  pose proof (cdiv_interval (picks 0) alignment ltac:(lia)). unfold a. lia.
Qed.

Lemma first_round_leader :
  exists s0',
    leader_part P alignment (picks 0) asz (enter s0)
    = Ok (mk_proc s0' (mk_virtual_mem a asz) []) /\
    forall x, mapped s0' x = within a (a + asz) x || mapped s0 x.
Proof.
  destruct first_round_sizes as (Hasz & Hle & Hc & Hru & Hru' & Ha).
  destruct (mmap_anywhere_cases P alignment (picks 0) asz s0
              ltac:(lia) Hal Hasz Hpick Hpage Hfree0) as [_ Hcases].
  fold a in Hcases. rewrite Ha_page, Hc in Hcases. fold asz in Hcases.
  destruct (Z.leb_spec (a + asz) (picks 0 + asz + alignment)) as [_|]; [|lia].
  cbn [Z.eqb andb] in Hcases. destruct Hcases as (s0' & Hmap & Hs0').
  exists s0'. split; [|exact Hs0'].
  unfold leader_part, vm_anywhere, enter. cbn [sp vm prev_vms].
  rewrite Hmap. reflexivity.
Qed.

Lemma first_round_follower (me : Z) (s : aspace) :
  is_free s a (a + asz) = true ->
  follower_part P alignment a asz me (enter s)
  = Ok (mk_proc ((a, a + asz) :: s) (mk_virtual_mem a asz) [], -1).
Proof.
  intros Hs. destruct first_round_sizes as (Hasz & Hle & Hc & Hru & Hru' & Ha).
  unfold follower_part, enter. cbn [sp vm prev_vms unmap_overlapping and_then].
  rewrite (vm_at_ok P a asz alignment s); try rewrite Hru'; try assumption;
    [reflexivity | lia | apply Z.mod_mul; lia | lia].
Qed.

Lemma first_round_finish (s : aspace) :
  finish P size (mk_proc s (mk_virtual_mem a asz) [])
  = Ok (mk_proc s (mk_virtual_mem a size) []).
Proof.
  destruct first_round_sizes as (Hasz & Hle & Hc & Hru & Hru' & Ha).
  unfold finish, vm_shrink. cbn [sp vm prev_vms addr_ size_].
  destruct (Z.eqb_spec a 0) as [|_]; [lia|].
  destruct (Z.leb_spec size asz) as [_|]; [|lia].
  rewrite Hru, Hru', Z.ltb_irrefl. reflexivity.
Qed.

Lemma first_round_succeeds :
  exists s0',
    (forall x, mapped s0' x = within a (a + asz) x || mapped s0 x) /\
    reserve_same_vm_coll P size alignment picks (s0 :: rest)
    = Ok (mk_proc s0' (mk_virtual_mem a size) []
          :: map (fun s => mk_proc ((a, a + asz) :: s)
                                   (mk_virtual_mem a size) []) rest).
Proof.
  destruct first_round_sizes as (Hasz & Hle & Hc & Hru & Hru' & Ha).
  destruct first_round_leader as (s0' & Hlead & Hs0').
  exists s0'. split; [exact Hs0'|].
  unfold reserve_same_vm_coll.
  destruct (Z.ltb_spec 0 size) as [_|]; [|lia].
  change (Z.to_nat (max_trial + 1)) with (S 100). cbn [trials].
  unfold round, attempts, initial_job. cbn [procs leader_rank alloc_size map].
  rewrite Hru. change (Z.to_nat 0) with O. cbn [lookup list_lookup].
  rewrite Hlead. cbn [and_then vm addr_].
  cbn [all_ranks Z.eqb and_then].
  rewrite (all_ranks_build _
             (fun p => (mk_proc ((a, a + asz) :: sp p)
                                (mk_virtual_mem a asz) [], -1))).
  2:{ intros i p Hp. rewrite list_lookup_fmap in Hp.
      destruct (rest !! i) as [s|] eqn:Hs; [|discriminate].
      injection Hp as <-.
      destruct (Z.eqb_spec (0 + 1 + Z.of_nat i) 0) as [|_]; [lia|].
      apply first_round_follower.
      exact (Forall_lookup_1 _ _ _ _ Hfree Hs). }
  cbn [and_then map snd]. rewrite !map_map. cbn [snd sp enter].
  assert (Hmax : forall l : list aspace,
             allreduce_max (-1 :: map (fun _ => -1) l) = -1).
  { intros l. unfold allreduce_max. induction l as [|x l IH]; [reflexivity|].
    cbn [map fold_right] in *. lia. }
  rewrite Hmax. cbn [Z.eqb all_ranks fst].
  rewrite first_round_finish. cbn [and_then].
  rewrite (all_ranks_build _
             (fun pf => mk_proc (sp (fst pf)) (mk_virtual_mem a size) [])).
  2:{ intros i pf Hpf. rewrite list_lookup_fmap in Hpf.
      destruct (rest !! i) as [s|]; [|discriminate].
      injection Hpf as <-. cbn [fst sp]. apply first_round_finish. }
  cbn [and_then]. rewrite map_map. reflexivity.
Qed.

End first_round.

(** [reserve_same_vm_coll] returns in its first round when no follower
    collides.  Rank 0 is granted the free page-aligned range at [picks 0];
    [a] is this address rounded up to the alignment, and page-aligned.  If
    the pages of [[a, a + size)] are free on every other rank, then the call
    returns on every rank, each rank holds [a] with the size asked for and
    no earlier reservation, and on each rank exactly the pages of
    [[a, a + size)] were added to the address space. *)
Theorem reserve_succeeds_in_first_round
        (P size alignment : Z) (picks : Z -> Z)
        (s0 : aspace) (rest : list aspace) :
  0 < P < 2 ^ 59 -> 0 < alignment < 2 ^ 60 -> 0 < size < 2 ^ 59 ->
  0 < picks 0 < 2 ^ 60 -> picks 0 mod P = 0 ->
  let asz := cdiv size P * P in
  let a := cdiv (picks 0) alignment * alignment in
  a mod P = 0 ->
  is_free s0 (picks 0) (picks 0 + cdiv (asz + alignment) P * P) = true ->
  Forall (fun s => is_free s a (a + asz) = true) rest ->
  exists ps,
    reserve_same_vm_coll P size alignment picks (s0 :: rest) = Ok ps /\
    length ps = length (s0 :: rest) /\
    forall i p s,
      ps !! i = Some p -> (s0 :: rest) !! i = Some s ->
      vm p = mk_virtual_mem a size /\ prev_vms p = [] /\
      forall x, mapped (sp p) x = within a (a + asz) x || mapped s x.
Proof.
  intros HP Hal Hsize Hpick Hpage asz a Ha_page Hfree0 Hfree.
  destruct (first_round_succeeds P size alignment picks s0 rest
              HP Hal Hsize Hpick Hpage Ha_page Hfree0 Hfree)
    as (s0' & Hs0' & Hres).
  fold asz in Hs0', Hres. fold a in Hs0', Hres.
  eexists. split; [exact Hres|]. split; [cbn [length]; rewrite length_map; reflexivity|].
  unfold aspace in *.
  intros [|i] p s Hp Hs; rewrite lookup_cons in Hp; rewrite lookup_cons in Hs;
    cbv iota in Hp, Hs.
  - injection Hp as <-. injection Hs as <-. cbn [vm prev_vms sp]. auto.
  - apply list_lookup_fmap_Some in Hp. destruct Hp as (s' & -> & Hs').
    rewrite Hs in Hs'. injection Hs' as <-.
    cbn [vm prev_vms sp]. split; [reflexivity|]. split; [reflexivity|].
    intros x. rewrite mapped_cons. reflexivity.
Qed.

Lemma reserve_succeeds_in_first_round_witness :
  exists ps,
    reserve_same_vm_coll 4096 (4 * 4096) 16 (fun _ => 1000 * 4096)
                         [ []; [(0, 4096)]; [(1004 * 4096, 1005 * 4096)] ]
    = Ok ps /\ length ps = 3%nat.
Proof.
  destruct (reserve_succeeds_in_first_round
              4096 (4 * 4096) 16 (fun _ => 1000 * 4096)
              [] [ [(0, 4096)]; [(1004 * 4096, 1005 * 4096)] ]
              ltac:(lia) ltac:(lia) ltac:(lia) ltac:(lia)
              eq_refl eq_refl eq_refl
              ltac:(repeat constructor))
    as (ps & Hres & Hlen & _).
  exists ps. split; [exact Hres | exact Hlen].
Defined.

(** ** Every reservation is accounted for *)

Lemma b2z_range (b : bool) : 0 <= Z.b2z b <= 1.
Proof. destruct b; simpl; lia. Qed.

Lemma b2z_inj (b c : bool) : Z.b2z b = Z.b2z c -> b = c.
Proof. destruct b, c; simpl; congruence || lia. Qed.

Section accounting.
Variables (P size alignment : Z).
Hypothesis HP : 0 < P < 2 ^ 59.
Hypothesis Hal : 0 < alignment < 2 ^ 60.

Lemma holders_app (vs1 vs2 : list virtual_mem) (x : Z) :
  holders P (vs1 ++ vs2) x = holders P vs1 x + holders P vs2 x.
Proof.
  induction vs1 as [|v vs1 IH]; simpl; [reflexivity|]. rewrite IH. lia.
Qed.

Lemma holders_nonneg (vs : list virtual_mem) (x : Z) : 0 <= holders P vs x.
Proof.
  induction vs as [|v vs IH]; simpl; [lia|].
  pose proof (b2z_range (covers P v x)). lia.
Qed.

Lemma covers_null (v : virtual_mem) (x : Z) :
  addr_ v = 0 -> covers P v x = false.
Proof. intros H. unfold covers. rewrite H. reflexivity. Qed.

Lemma covers_at (a sz x : Z) :
  a <> 0 ->
  covers P (mk_virtual_mem a sz) x = within a (a + cdiv sz P * P) x.
Proof.
  intros H. unfold covers. cbn [addr_ size_].
  destruct (Z.eqb_spec a 0); [contradiction|]. reflexivity.
Qed.

Lemma vm_destroy_ok (v : virtual_mem) (s : aspace) :
  reservation_ok P v ->
  exists s', vm_destroy P v s = Ok s' /\
             forall x, mapped s' x = mapped s x && negb (covers P v x).
Proof.
  intros Hv. unfold vm_destroy.
  destruct (Z.eqb_spec (addr_ v) 0) as [H0|Hne].
  - exists s. split; [reflexivity|]. intros x.
    rewrite covers_null by assumption. symmetry. apply andb_true_r.
  - destruct Hv as [|(Ha & Hpage & Hsz)]; [contradiction|].
    rewrite munmap_ok by (assumption || lia).
    eexists. split; [reflexivity|]. intros x.
    rewrite mapped_unmap, round_up_pages
      by (rewrite ?SIZE_MOD_val; lia).
    unfold covers. destruct (Z.eqb_spec (addr_ v) 0); [contradiction|].
    reflexivity.
Qed.

(** the sweep of a follower *)
Lemma unmap_overlapping_ok (a asz : Z) (prevs : list virtual_mem) :
  Forall (reservation_ok P) prevs ->
  forall s, exists s',
    unmap_overlapping P a asz prevs s = Ok (swept a asz prevs, s') /\
    forall x c, 0 <= c ->
      Z.b2z (mapped s x) = c + holders P prevs x ->
      Z.b2z (mapped s' x) = c + holders P (swept a asz prevs) x.
Proof.
  induction 1 as [|v rest Hv Hrest IH]; intros s.
  - exists s. split; [reflexivity|]. intros x c _ H. exact H.
  - cbn [unmap_overlapping swept map].
    destruct (overlaps_range a asz v) eqn:Hov.
    + unfold vm_move_assign.
      destruct (vm_destroy_ok v s Hv) as (s1 & -> & Hs1). cbn [and_then].
      destruct (IH s1) as (s' & -> & Hs'). cbn [and_then].
      exists s'. split; [reflexivity|]. intros x c Hc H.
      cbn [holders fold_right] in *. fold (holders P rest x) in H.
      fold (holders P (swept a asz rest) x).
      rewrite (covers_null vm_empty) by reflexivity. cbn [Z.b2z].
      rewrite Z.add_0_l. apply Hs'; [assumption|]. rewrite Hs1.
      pose proof (holders_nonneg rest x).
      pose proof (b2z_range (mapped s x)).
      destruct (covers P v x), (mapped s x); cbn in *; lia.
    + cbn [and_then].
      destruct (IH s) as (s' & -> & Hs'). cbn [and_then].
      exists s'. split; [reflexivity|]. intros x c Hc H.
      cbn [holders fold_right] in *. fold (holders P rest x) in H.
      fold (holders P (swept a asz rest) x).
      rewrite Z.add_assoc. apply Hs'.
      * pose proof (b2z_range (covers P v x)). lia.
      * lia.
Qed.

Lemma swept_ok (a asz : Z) (prevs : list virtual_mem) :
  Forall (reservation_ok P) prevs ->
  Forall (reservation_ok P) (swept a asz prevs).
Proof.
  induction 1 as [|v rest Hv Hrest IH]; [constructor|].
  cbn [swept map]. constructor; [|exact IH].
  destruct (overlaps_range a asz v); [left; reflexivity | exact Hv].
Qed.

Lemma destroy_all_ok (prevs : list virtual_mem) :
  Forall (reservation_ok P) prevs ->
  forall s, exists s',
    destroy_all P prevs s = Ok s' /\
    forall x c, 0 <= c ->
      Z.b2z (mapped s x) = c + holders P prevs x ->
      Z.b2z (mapped s' x) = c.
Proof.
  induction 1 as [|v rest Hv Hrest IH]; intros s.
  - exists s. split; [reflexivity|]. intros x c _ H. cbn in H. lia.
  - cbn [destroy_all].
    destruct (vm_destroy_ok v s Hv) as (s1 & -> & Hs1). cbn [and_then].
    destruct (IH s1) as (s' & -> & Hs'). exists s'. split; [reflexivity|].
    intros x c Hc H. cbn [holders fold_right] in H.
    fold (holders P rest x) in H. apply Hs'; [assumption|]. rewrite Hs1.
    pose proof (holders_nonneg rest x).
    destruct (covers P v x), (mapped s x); cbn in *; lia.
Qed.


Lemma mmap_anywhere_inv (pick sz : Z) (s s1 : aspace) (a : Z) :
  mmap_no_physical_mem P pick 0 sz false alignment s = Ok (a, s1) ->
  0 < pick /\ pick mod P = 0 /\
  is_free s pick (pick + round_up_pow2 (addu sz alignment) P) = true.
Proof.
  unfold mmap_no_physical_mem. cbn [Z.eqb]. unfold sys_mmap_anywhere.
  intros H.
  destruct (Z.ltb_spec 0 pick); [|discriminate].
  destruct (Z.eqb_spec (pick mod P) 0); [|discriminate].
  destruct (0 <? addu sz alignment); [|discriminate].
  destruct (is_free s pick (pick + round_up_pow2 (addu sz alignment) P));
    [|discriminate].
  auto.
Qed.

Lemma b2z_orb_disjoint (b c : bool) :
  (b = true -> c = false) -> Z.b2z (b || c) = Z.b2z b + Z.b2z c.
Proof. destruct b, c; simpl; intros H; try reflexivity. discriminate (H eq_refl). Qed.

(** the leader of a round *)
Lemma leader_part_accounted (s0 : aspace) (pick asz : Z) (p p' : proc) :
  accounted P s0 p -> addr_ (vm p) = 0 -> pick < 2 ^ 60 -> 0 < asz < 2 ^ 60 ->
  leader_part P alignment pick asz p = Ok p' ->
  accounted P s0 p' /\ vm p' = mk_virtual_mem (addr_ (vm p')) asz /\
  0 < addr_ (vm p') < 2 ^ 61 /\ addr_ (vm p') mod alignment = 0.
Proof.
  intros [Hok Hacc] Hnull Hpick Hasz H.
  unfold leader_part in H. ok_inv H. destruct a as [tmp s1].
  rename Hcall into Hany. ok_inv H. destruct a as [v s2].
  rename Hcall into Hmove. injection H as <-. cbn [vm sp prev_vms].
  unfold vm_move_assign, vm_destroy in Hmove. rewrite Hnull in Hmove.
  cbn [Z.eqb and_then] in Hmove. injection Hmove as <- <-.
  unfold vm_anywhere in Hany. ok_inv Hany. destruct a as [a0 s1'].
  injection Hany as <- <-. rename Hcall into Hmap. cbn [addr_ size_].
  destruct (mmap_anywhere_inv _ _ _ _ _ Hmap) as (Hpick0 & Hpage & Hfree).
  assert (H60 : 2 ^ 60 * 16 = SIZE_MOD) by reflexivity.
  rewrite (addu_small asz alignment) in Hfree by lia.
  rewrite round_up_pages in Hfree by lia.
  destruct (mmap_anywhere_cases P alignment pick asz (sp p)
              ltac:(lia) Hal Hasz ltac:(lia) Hpage Hfree) as [Hrange Hcases].
  set (ret := cdiv pick alignment * alignment) in *.
  destruct ((ret mod P =? 0) &&
            (ret + cdiv asz P * P <=? pick + asz + alignment)) eqn:Hcond;
    [|rewrite Hcases in Hmap; discriminate].
  destruct Hcases as (s' & Hmap' & Hs'). rewrite Hmap' in Hmap.
  injection Hmap as <- <-.
  apply andb_prop in Hcond. destruct Hcond as [Hrp Hend].
  apply Z.eqb_eq in Hrp. apply Z.leb_le in Hend.
  assert (Hret61 : 0 < ret < 2 ^ 61)
    by (assert (2 ^ 60 * 2 = 2 ^ 61) by reflexivity; lia).
  split; [|split; [reflexivity|split; [exact Hret61|apply Z.mod_mul; lia]]].
  split.
  - inversion Hok as [|? ? _ Hprevs]; subst. constructor; [|exact Hprevs].
    right. cbn [addr_ size_]. auto.
  - intros x. specialize (Hacc x).
    cbn [vm sp prev_vms holders fold_right] in *.
    fold (holders P (prev_vms p) x) in *.
    rewrite (covers_null (vm p)) in Hacc by assumption. cbn [Z.b2z] in Hacc.
    rewrite covers_at by lia. rewrite Hs'.
    rewrite b2z_orb_disjoint; [lia|].
    intros Hw. apply (is_free_not_mapped _ _ _ _ Hfree).
    pose proof (cdiv_interval (asz + alignment) P ltac:(lia)).
    unfold within in Hw. cmp_cases; simpl in Hw; try discriminate; lia.
Qed.

(** a follower of a round *)
Lemma follower_part_accounted (s0 : aspace) (a asz me : Z) (p p' : proc)
      (f : Z) :
  accounted P s0 p -> addr_ (vm p) = 0 -> 0 < a < 2 ^ 61 -> 0 < asz < 2 ^ 60 ->
  0 <= me ->
  follower_part P alignment a asz me p = Ok (p', f) ->
  accounted P s0 p' /\
  ((f = -1 /\ vm p' = mk_virtual_mem a asz) \/
   (0 <= f /\ addr_ (vm p') = 0)).
Proof.
  intros [Hok Hacc] Hnull Ha Hasz Hme H.
  inversion Hok as [|? ? Hvm Hprevs]; subst.
  unfold follower_part in H.
  destruct (unmap_overlapping_ok a asz (prev_vms p) Hprevs (sp p))
    as (s1 & Hsweep & Hs1).
  rewrite Hsweep in H. cbn [and_then] in H.
  assert (Hacc1 : forall x, Z.b2z (mapped s1 x)
                            = Z.b2z (mapped s0 x)
                              + holders P (swept a asz (prev_vms p)) x).
  { intros x. apply Hs1; [apply b2z_range|].
    rewrite (Hacc x). cbn [holders fold_right].
    rewrite (covers_null (vm p)) by assumption. reflexivity. }
  destruct (vm_at P a asz alignment s1) as [[tmp s2]| |] eqn:Hat;
    try discriminate.
  - ok_inv H. destruct a0 as [v s3]. injection H as <- <-.
    unfold vm_move_assign, vm_destroy in Hcall. rewrite Hnull in Hcall.
    cbn [Z.eqb and_then] in Hcall. injection Hcall as <- <-.
    apply vm_at_inv in Hat.
    destruct Hat as (Hne & Hmod & Hpage & Hsz & Hfree & -> & ->).
    cbn [addr_ size_ vm sp prev_vms].
    split; [|left; auto]. split.
    + constructor; [right; cbn [addr_ size_]; auto|].
      apply swept_ok. exact Hprevs.
    + intros x. cbn [vm sp prev_vms holders fold_right].
      fold (holders P (swept a asz (prev_vms p)) x).
      rewrite covers_at by assumption. rewrite mapped_cons. cbn [fst snd].
      rewrite round_up_pages in * by (rewrite ?SIZE_MOD_val; lia).
      rewrite b2z_orb_disjoint; [rewrite Hacc1; lia|].
      intros Hw. apply (is_free_not_mapped _ _ _ _ Hfree).
      unfold within in Hw. cmp_cases; simpl in Hw; try discriminate; lia.
  - injection H as <- <-. cbn [vm sp prev_vms].
    split; [|right; split; [lia|assumption]]. split.
    + constructor; [exact Hvm|]. apply swept_ok. exact Hprevs.
    + intros x. cbn [vm sp prev_vms holders fold_right].
      fold (holders P (swept a asz (prev_vms p)) x).
      rewrite (covers_null (vm p)) by assumption. apply Hacc1.
Qed.

(** what is kept after a failed round *)
Lemma keep_accounted (s0 : aspace) (p : proc) (f : Z) :
  accounted P s0 p -> (f <> -1 -> addr_ (vm p) = 0) ->
  accounted P s0 (keep (p, f)) /\ addr_ (vm (keep (p, f))) = 0.
Proof.
  intros [Hok Hacc] Hnull. unfold keep.
  destruct (Z.eqb_spec f (-1)) as [Hf|Hf]; [|split; [split|]; auto].
  cbn [vm sp prev_vms addr_]. split; [|reflexivity].
  inversion Hok as [|? ? Hvm Hprevs]; subst. split.
  - constructor; [left; reflexivity|].
    apply Forall_app. split; [exact Hprevs|]. constructor; [exact Hvm|constructor].
  - intros x. cbn [vm sp prev_vms]. rewrite (Hacc x). cbn [holders fold_right].
    fold (holders P (prev_vms p) x). fold (holders P (prev_vms p ++ [vm p]) x).
    rewrite holders_app. cbn [holders fold_right].
    rewrite (covers_null (mk_virtual_mem 0 _)) by reflexivity.
    cbn [Z.b2z]. lia.
Qed.

(** the end of a successful round *)
Lemma finish_accounted (s0 : aspace) (a asz : Z) (p p' : proc) :
  accounted P s0 p -> vm p = mk_virtual_mem a asz -> a <> 0 -> 0 < size ->
  finish P size p = Ok p' ->
  forall x,
    mapped (sp p') x = mapped s0 x || within a (a + cdiv size P * P) x /\
    (within a (a + cdiv size P * P) x = true -> mapped s0 x = false).
Proof.
  intros [Hok Hacc] Hvm Hne Hsize H.
  inversion Hok as [|? ? Hv Hprevs]; subst. rewrite Hvm in Hv.
  destruct Hv as [|(Ha & Hpage & Hasz)]; [contradiction|].
  cbn [addr_ size_] in *.
  unfold finish in H. ok_inv H. destruct a0 as [v s1]. rename Hcall into Hsh.
  ok_inv H. rename Hcall into Hdes. injection H as <-. cbn [sp].
  assert (Hle : size <= asz).
  { unfold vm_shrink in Hsh. rewrite Hvm in Hsh. cbn [addr_ size_] in Hsh.
    destruct (negb (a =? 0)); [|discriminate].
    destruct (Z.leb_spec size asz); [assumption|discriminate]. }
  assert (Hmono : cdiv size P <= cdiv asz P) by (apply cdiv_mono; lia).
  rewrite vm_shrink_ok in Hsh
    by (rewrite ?Hvm; cbn [addr_ size_]; rewrite ?SIZE_MOD_val; lia).
  injection Hsh as <- <-. rewrite Hvm in *. cbn [addr_ size_] in *.
  set (s1' := if cdiv size P <? cdiv asz P
              then unmap (sp p) (a + cdiv size P * P) (a + cdiv asz P * P)
              else sp p) in *.
  assert (Hs1 : forall x,
             mapped s1' x
             = mapped (sp p) x &&
               negb (within (a + cdiv size P * P) (a + cdiv asz P * P) x)).
  { intros x. unfold s1'.
    destruct (Z.ltb_spec (cdiv size P) (cdiv asz P)) as [Hlt|Hge].
    - apply mapped_unmap.
    - replace (within _ _ x) with false;
        [rewrite andb_true_r; reflexivity|].
      unfold within. cmp_cases; simpl; try reflexivity; nia. }
  destruct (destroy_all_ok (prev_vms p) Hprevs s1') as (s2 & Hdes' & Hs2).
  rewrite Hdes' in Hdes. injection Hdes as <-.
  intros x.
  assert (Hpos : 0 < cdiv size P) by (apply cdiv_pos; lia).
  assert (Hfin : Z.b2z (mapped s2 x)
                 = Z.b2z (mapped s0 x)
                   + Z.b2z (within a (a + cdiv size P * P) x)).
  { apply Hs2.
    - pose proof (b2z_range (mapped s0 x)).
      pose proof (b2z_range (within a (a + cdiv size P * P) x)). lia.
    - rewrite Hs1. specialize (Hacc x).
      cbn [holders fold_right] in Hacc. fold (holders P (prev_vms p) x) in Hacc.
      rewrite covers_at in Hacc by assumption.
      pose proof (holders_nonneg (prev_vms p) x).
      pose proof (b2z_range (mapped s0 x)).
      unfold within in *.
      destruct (mapped (sp p) x); cmp_cases; cbn in *; nia. }
  pose proof (b2z_range (mapped s2 x)).
  destruct (mapped s2 x), (mapped s0 x), (within a (a + cdiv size P * P) x);
    cbn in *; try lia; auto.
Qed.

End accounting.

Section accounting_rounds.
Variables (P size alignment : Z) (spaces : list aspace).
Hypothesis HP : 0 < P < 2 ^ 59.
Hypothesis Hal : 0 < alignment < 2 ^ 60.
Hypothesis Hsize : 0 < size < 2 ^ 59.

Lemma attempts_accounted (pick : Z) (g : job) (a : Z)
      (rs : list (proc * Z)) :
  job_ok P spaces g -> pick < 2 ^ 60 ->
  attempts P alignment pick g = Ok (a, rs) ->
  (0 < a < 2 ^ 61 /\ a mod alignment = 0) /\
  forall i s0 p' f,
    spaces !! i = Some s0 -> rs !! i = Some (p', f) ->
    accounted P s0 p' /\
    ((f = -1 /\ vm p' = mk_virtual_mem a (alloc_size g)) \/
     (0 <= f /\ addr_ (vm p') = 0)).
Proof.
  intros (Hlen & Hprocs & Hasz & Hcap) Hpick Hatt.
  apply attempts_inv in Hatt.
  destruct Hatt as (pl & pl' & Hpl & Hlead & -> & Hall).
  assert (Hs0l : exists s0l, spaces !! Z.to_nat (leader_rank g) = Some s0l).
  { apply lookup_lt_is_Some. rewrite <- Hlen.
    apply lookup_lt_is_Some. eauto. }
  destruct Hs0l as (s0l & Hs0l).
  destruct (Hprocs _ _ _ Hs0l Hpl) as [Haccl Hnulll].
  destruct (leader_part_accounted P alignment HP Hal s0l pick (alloc_size g)
              pl pl' Haccl Hnulll Hpick ltac:(lia) Hlead)
    as (Haccl' & Hvml & Ha & Hmod).
  split; [auto|]. intros i s0 p' f Hs0 Hrs.
  destruct (all_ranks_at _ _ _ _ _ Hall Hrs) as (p & Hp & Hf).
  destruct (Z.eqb_spec (Z.of_nat i) (leader_rank g)) as [Heq|Hne].
  - injection Hf as <- <-.
    assert (Hi : Z.to_nat (leader_rank g) = i) by lia.
    rewrite Hi in Hs0l. rewrite Hs0 in Hs0l. injection Hs0l as <-.
    split; [exact Haccl'|]. left. auto.
  - destruct (Hprocs _ _ _ Hs0 Hp) as [Hacc Hnull].
    eapply follower_part_accounted with (p := p) (me := Z.of_nat i);
      try eassumption; lia.
Qed.

Lemma round_retry_accounted (pick : Z) (g g' : job) :
  job_ok P spaces g -> pick < 2 ^ 60 ->
  round P size alignment pick g = RRetry g' ->
  job_ok P spaces g'.
Proof.
  intros Hg Hpick Hr. apply round_retry_inv in Hr.
  destruct Hr as (a & rs & Hatt & Hmax & ->).
  destruct (attempts_accounted pick g a rs Hg Hpick Hatt) as [_ Hrs].
  pose proof (attempts_length _ _ _ _ _ _ Hatt) as Hlen'.
  destruct Hg as (Hlen & Hprocs & Hasz & Hcap).
  unfold job_ok. cbn [procs alloc_size alloc_size_max].
  split; [rewrite length_map; lia|]. split.
  - intros i s0 q Hs0 Hq.
    apply list_lookup_fmap_Some in Hq. destruct Hq as ([p' f] & -> & Hpf).
    destruct (Hrs _ _ _ _ Hs0 Hpf) as [Hacc Hcases].
    apply (keep_accounted P); [exact Hacc|].
    intros Hf. destruct Hcases as [[? _]|[_ ?]]; [contradiction|assumption].
  - rewrite mulu_small by (rewrite SIZE_MOD_val; lia). lia.
Qed.

Lemma round_success_accounted (pick : Z) (g : job) (ps : list proc) :
  job_ok P spaces g -> pick < 2 ^ 60 ->
  round P size alignment pick g = RSuccess ps ->
  exists a,
    (0 < a < 2 ^ 61 /\ a mod alignment = 0) /\
    forall i s0 p,
      spaces !! i = Some s0 -> ps !! i = Some p ->
      vm p = mk_virtual_mem a size /\ prev_vms p = [] /\
      forall x,
        mapped (sp p) x = mapped s0 x || within a (a + cdiv size P * P) x /\
        (within a (a + cdiv size P * P) x = true -> mapped s0 x = false).
Proof.
  intros Hg Hpick Hr. apply round_success_inv in Hr.
  destruct Hr as (a & rs & Hatt & Hmax & Hfin).
  destruct (attempts_accounted pick g a rs Hg Hpick Hatt) as [Ha Hrs].
  exists a. split; [exact Ha|]. intros i s0 p Hs0 Hp.
  destruct (all_ranks_at _ _ _ _ _ Hfin Hp) as ([p0 f] & Hp0 & Hfinish).
  cbn [fst] in Hfinish.
  destruct (Hrs _ _ _ _ Hs0 Hp0) as [Hacc Hcases].
  assert (Hf : f <= -1).
  { rewrite <- Hmax. apply (allreduce_max_ge _ i).
    rewrite list_lookup_fmap, Hp0. reflexivity. }
  destruct Hcases as [[_ Hvm]|[? _]]; [|lia].
  destruct (finish_vm _ _ _ _ Hfinish) as [Hvm' Hprev].
  rewrite Hvm in Hvm'. cbn [addr_] in Hvm'.
  split; [exact Hvm'|]. split; [exact Hprev|].
  apply (finish_accounted P size HP s0 a (alloc_size g) p0 p);
    try assumption; lia.
Qed.

Lemma retries_accounted (picks : Z -> Z) (k : nat) :
  (forall n, picks n < 2 ^ 60) ->
  forall t g gk,
    job_ok P spaces g ->
    retries P size alignment picks k t g = Some gk ->
    job_ok P spaces gk.
Proof.
  intros Hpicks. induction k as [|k IH]; intros t g gk Hg H; simpl in H.
  - injection H as <-. exact Hg.
  - destruct (round P size alignment (picks t) g) as [ps'|g'|] eqn:Hr;
      try discriminate.
    apply (IH (t + 1) g' gk); [|exact H].
    eapply round_retry_accounted; [exact Hg|apply Hpicks|exact Hr].
Qed.

Lemma initial_job_ok :
  job_ok P spaces (initial_job P size (map enter spaces)).
Proof.
  unfold job_ok, initial_job. cbn [procs alloc_size alloc_size_max].
  split; [apply length_map|]. split.
  - intros i s0 p Hs0 Hp.
    apply list_lookup_fmap_Some in Hp. destruct Hp as (s & -> & Hs).
    rewrite Hs0 in Hs. injection Hs as <-. unfold enter, accounted.
    cbn [vm sp prev_vms]. split; [|reflexivity]. split.
    + constructor; [left; reflexivity|constructor].
    + intros x. cbn. lia.
  - rewrite round_up_pages by (rewrite ?SIZE_MOD_val; lia).
    pose proof (cdiv_interval size P ltac:(lia)).
    pose proof (cdiv_pos size P ltac:(lia) ltac:(lia)).
    assert (H59 : 2 ^ 59 * 2 = 2 ^ 60) by reflexivity.
    change (Z.shiftl 1 40) with (2 ^ 40).
    assert (2 ^ 40 < 2 ^ 60) by reflexivity. nia.
Qed.

End accounting_rounds.

(** On return from [reserve_same_vm_coll] the address space of every rank
    is what it was before the call, plus exactly the pages of the
    reservation returned: whatever the number of failed rounds, every
    reservation made on the way has been unmapped again, nothing that was
    mapped before the call has been unmapped, and the range returned was
    free on every rank before the call.  The address returned is the same
    on all ranks, not null, and aligned. *)
Theorem reserve_same_vm_coll_accounts_for_every_page
        (P size alignment : Z) (picks : Z -> Z) (spaces : list aspace)
        (ps : list proc) :
  0 < P < 2 ^ 59 -> 0 < alignment < 2 ^ 60 -> 0 < size < 2 ^ 59 ->
  (forall n, picks n < 2 ^ 60) ->
  reserve_same_vm_coll P size alignment picks spaces = Ok ps ->
  exists a,
    (0 < a /\ a mod alignment = 0) /\
    forall i s0 p,
      spaces !! i = Some s0 -> ps !! i = Some p ->
      vm p = mk_virtual_mem a size /\ prev_vms p = [] /\
      forall x,
        mapped (sp p) x = mapped s0 x || within a (a + cdiv size P * P) x /\
        (within a (a + cdiv size P * P) x = true -> mapped s0 x = false).
Proof.
  intros HP Hal Hsize Hpicks H. unfold reserve_same_vm_coll in H.
  destruct (0 <? size); [|discriminate].
  apply trials_ok in H. destruct H as (k & gk & _ & Hret & Hround).
  pose proof (retries_accounted P size alignment spaces HP Hal picks k Hpicks
                _ _ _ (initial_job_ok P size spaces HP Hsize) Hret) as Hgk.
  destruct (round_success_accounted P size alignment spaces HP Hal Hsize
              _ _ _ Hgk (Hpicks _) Hround) as (a & [Ha Hmod] & Hall).
  exists a. split; [split; [lia|exact Hmod]|exact Hall].
Qed.

Lemma reserve_same_vm_coll_accounts_for_every_page_witness :
  let X := 1000 * 4096 in
  let Y := 2000 * 4096 in
  let picks := fun n : Z => if n =? 0 then X else Y in
  let spaces := [ []; []; [(X + 4096, X + 2 * 4096)]; [] ] in
  exists ps a,
    reserve_same_vm_coll 4096 (4 * 4096) 16 picks spaces = Ok ps /\
    forall i s0 p,
      spaces !! i = Some s0 -> ps !! i = Some p ->
      forall x, mapped (sp p) x = mapped s0 x || within a (a + 4 * 4096) x.
Proof.
  intros X Y picks spaces.
  destruct (reserve_same_vm_coll 4096 (4 * 4096) 16 picks spaces)
    as [ps| |] eqn:Hres;
    [|vm_compute in Hres; discriminate|vm_compute in Hres; discriminate].
  assert (Hpicks : forall n, picks n < 2 ^ 60).
  { intros n. unfold picks. destruct (n =? 0); reflexivity. }
  destruct (reserve_same_vm_coll_accounts_for_every_page
              4096 (4 * 4096) 16 picks spaces ps
              ltac:(lia) ltac:(lia) ltac:(lia) Hpicks Hres)
    as (a & _ & Hall).
  exists ps, a. split; [reflexivity|].
  intros i s0 p Hs0 Hp x.
  destruct (Hall i s0 p Hs0 Hp) as (_ & _ & Hx).
  exact (proj1 (Hx x)).
Defined.

(** * Properties of the serial loop and of the values of the reduction *)
Import serial_loop.

Section serial_loop_facts.
Context {Acc Elem : Type}.
Variable op : Acc -> Elem -> Acc.
Variable xs : list Elem.

Lemma fold_left_chunk (d len : nat) (acc : Acc) :
  fold_left op (skipn (d + len) xs)
            (fold_left op (firstn len (skipn d xs)) acc)
  = fold_left op (skipn d xs) acc.
Proof.
  rewrite <- fold_left_app. f_equal.
  rewrite Nat.add_comm, <- skipn_skipn. apply firstn_skipn.
Qed.

(** the loop over global iterators, from the position [d] *)
Lemma for_each_aux_loop_spec (c : Z) :
  let n := Z.of_nat (length xs) in
  0 < c -> n + c <= SIZE_MOD ->
  forall fuel d acc cos0,
    0 <= d <= n -> (Z.to_nat (n - d) < fuel)%nat ->
    exists cos,
      for_each_aux_loop op xs fuel n c d d acc cos0
      = Done (fold_left op (skipn (Z.to_nat d) xs) acc, cos0 ++ cos) /\
      tiles d n cos /\
      Forall (fun r => 0 < snd r <= c) cos /\
      Z.of_nat (length cos) = cdiv (n - d) c /\
      (forall i r, cos !! i = Some r -> (S i < length cos)%nat -> snd r = c).
Proof.
  intros n Hc Hsum fuel.
  induction fuel as [|fuel IH]; intros d acc cos0 Hd Hfuel; [lia|].
  cbn [for_each_aux_loop].
  destruct (Z.ltb_spec d n) as [Hlt|Hge].
  - rewrite (subu_small n d) by lia. rewrite (addu_small d c) by lia.
    destruct (Z.le_gt_cases (n - d) c) as [Hlast|Hmore].
    + (* the last chunk *)
      rewrite Z.min_l by lia.
      destruct (Z.ltb_spec 0 (n - d)) as [_|]; [|lia].
      destruct fuel as [|fuel]; [lia|]. cbn [for_each_aux_loop].
      destruct (Z.ltb_spec (d + c) n) as [|_]; [lia|].
      exists [(d, n - d)]. split; [|split; [|split; [|split]]].
      * f_equal. f_equal. unfold apply_iterators.
        rewrite firstn_all2; [reflexivity|].
        rewrite length_skipn. lia.
      * apply tiles_next; [lia|]. replace (d + (n - d)) with n by ring.
        apply tiles_done.
      * constructor; [cbn; lia|constructor].
      * cbn [length]. symmetry. apply cdiv_from_interval; lia.
      * intros i r _ Hi. cbn in Hi. lia.
    + (* a whole chunk *)
      rewrite Z.min_r by lia.
      destruct (Z.ltb_spec 0 c) as [_|]; [|lia].
      destruct (IH (d + c) (apply_iterators op xs c d acc) (cos0 ++ [(d, c)]))
        as (cos & Hloop & Htiles & Hall & Hlen & Hfull); [lia|lia|].
      exists ((d, c) :: cos). split; [|split; [|split; [|split]]].
      * rewrite Hloop. f_equal. f_equal.
        -- unfold apply_iterators.
           replace (Z.to_nat (d + c)) with (Z.to_nat d + Z.to_nat c)%nat by lia.
           apply fold_left_chunk.
        -- rewrite <- app_assoc. reflexivity.
      * apply tiles_next; assumption.
      * constructor; [cbn; lia|assumption].
      * cbn [length]. rewrite Nat2Z.inj_succ, Hlen.
        replace (n - d) with (1 * c + (n - (d + c))) by ring.
        rewrite cdiv_add_mul by assumption. lia.
      * intros [|i] r Hr Hi; cbn in Hr.
        -- injection Hr as <-. reflexivity.
        -- apply (Hfull i r Hr). cbn in Hi. lia.
  - assert (d = n) by lia. subst d.
    exists []. rewrite app_nil_r. split; [|split; [|split; [|split]]].
    + replace (Z.to_nat n) with (length xs) by (unfold n; lia).
      rewrite skipn_all. reflexivity.
    + apply tiles_done.
    + constructor.
    + rewrite Z.sub_diag, cdiv_0. reflexivity.
    + intros i r Hr. discriminate.
Qed.

(** [for_each_aux] over global iterators.  With a positive
    [checkout_count] [c] the [n] elements are checked out in
    [ceil(n / c)] chunks that follow one another from the first element to
    the last; no chunk is empty, so that the assertion of
    [checkout_global_iterators_aux] holds, none is longer than [c], and
    all but the last have [c] elements; [op] has run on every element once,
    in order, as in the loop over ordinary iterators.  With
    [checkout_count = 0] the assertion fails at the first chunk. *)
Theorem for_each_aux_checks_out_in_chunks
        (policy : sequenced_policy.t) (fuel : nat) (acc : Acc) :
  let n := Z.of_nat (length xs) in
  let c := sequenced_policy.checkout_count policy in
  (0 < c -> n + c <= SIZE_MOD -> (length xs < fuel)%nat ->
   exists cos,
     for_each_aux op xs fuel true policy acc
     = Done (fold_left op xs acc, cos) /\
     tiles 0 n cos /\
     Forall (fun r => 0 < snd r <= c) cos /\
     Z.of_nat (length cos) = cdiv n c /\
     (forall i r, cos !! i = Some r -> (S i < length cos)%nat -> snd r = c) /\
     for_each_aux op xs fuel false policy acc = Done (fold_left op xs acc, []))
  /\ (c = 0 -> 0 < n -> (0 < fuel)%nat ->
      for_each_aux op xs fuel true policy acc = CheckFailed).
Proof.
  intros n c. split.
  - intros Hc Hsum Hfuel.
    destruct (for_each_aux_loop_spec c Hc Hsum fuel 0 acc [])
      as (cos & Hloop & Htiles & Hall & Hlen & Hfull); [lia|lia|].
    exists cos. unfold for_each_aux. fold n. fold c.
    rewrite Z.sub_0_r in Hlen. auto 10.
  - intros Hc Hn Hfuel. unfold for_each_aux. fold n. fold c. rewrite Hc.
    destruct fuel as [|fuel]; [lia|]. cbn [for_each_aux_loop].
    destruct (Z.ltb_spec 0 n) as [_|]; [|lia].
    rewrite Z.min_r; [reflexivity|].
    unfold subu, wrap. pose proof (Z.mod_pos_bound (n - 0) SIZE_MOD).
    rewrite SIZE_MOD_val in *. lia.
Qed.

End serial_loop_facts.

Lemma for_each_aux_checks_out_in_chunks_witness :
  exists cos,
    for_each_aux Z.add [1; 2; 3; 4; 5; 6; 7] 8 true (sequenced_policy.mk 3) 0
    = Done (28, cos) /\
    Z.of_nat (length cos) = 3.
Proof.
  destruct (proj1 (for_each_aux_checks_out_in_chunks
                     Z.add [1; 2; 3; 4; 5; 6; 7] (sequenced_policy.mk 3) 8 0)
                  ltac:(simpl; lia)
                  ltac:(rewrite SIZE_MOD_val; simpl; lia)
                  ltac:(simpl; lia))
    as (cos & Hres & _ & _ & Hlen & _).
  exists cos. split; [exact Hres | exact Hlen].
Defined.

(** ** The values of the reduction *)
Import reduce_values.

Section reduce_value_facts.
Context {Acc Elem : Type}.
Variable serialized : list bool -> bool.
Variable accumulate_op : Acc -> Elem -> Acc.
Variable combine_op : Acc -> Acc -> list Elem -> list Elem -> Acc.
Variable identity : Acc.
Variable global : bool.
Variable policy : parallel_policy.t.

(** what [assert_policy] checks *)
Hypothesis Hpolicy :
  0 < parallel_policy.checkout_count policy
      <= parallel_policy.cutoff_count policy.
(** [combine_op] adds an accumulator that was started from the identity *)
Hypothesis Hcombine :
  forall acc ys l r,
    combine_op acc (fold_left accumulate_op ys identity) l r
    = fold_left accumulate_op ys acc.

Lemma leaf_value (fuel : nat) (acc : Acc) (xs : list Elem) :
  (length xs < fuel)%nat ->
  Z.of_nat (length xs) + parallel_policy.checkout_count policy <= SIZE_MOD ->
  leaf (for_each_aux accumulate_op xs fuel global
                     (to_sequenced_policy policy) acc)
  = Done (fold_left accumulate_op xs acc).
Proof.
  intros Hfuel Hsum. unfold for_each_aux. destruct global; [|reflexivity].
  cbn [to_sequenced_policy sequenced_policy.checkout_count].
  destruct (for_each_aux_loop_spec accumulate_op xs
              (parallel_policy.checkout_count policy)
              ltac:(lia) Hsum fuel 0 acc [])
    as (cos & -> & _); [lia|lia|]. reflexivity.
Qed.

Lemma parallel_reduce_generic_value (fuel : nat) :
  forall path acc xs,
    (length xs < fuel)%nat ->
    Z.of_nat (length xs) + parallel_policy.checkout_count policy
    <= SIZE_MOD ->
    parallel_reduce_generic serialized accumulate_op combine_op identity
                            global policy fuel path acc xs
    = Done (fold_left accumulate_op xs acc).
Proof.
  induction fuel as [|fuel IH]; intros path acc xs Hfuel Hsum; [lia|].
  cbn [parallel_reduce_generic].
  rewrite wrap_small by lia.
  destruct (Z.leb_spec (Z.of_nat (length xs))
                       (parallel_policy.cutoff_count policy)) as [Hleaf|Hsplit].
  - apply leaf_value; assumption.
  - rewrite Z.quot_div_nonneg by lia.
    set (mid := Z.to_nat (Z.of_nat (length xs) / 2)).
    assert (Hmid : (1 <= mid < length xs)%nat).
    { unfold mid. pose proof (div_interval (Z.of_nat (length xs)) 2). lia. }
    rewrite IH by (rewrite ?length_firstn; lia).
    pose proof (firstn_skipn mid xs) as Hxs.
    assert (Hfold : forall a,
               fold_left accumulate_op (skipn mid xs)
                         (fold_left accumulate_op (firstn mid xs) a)
               = fold_left accumulate_op xs a).
    { intros a. rewrite <- fold_left_app, Hxs. reflexivity. }
    destruct (serialized path).
    + rewrite IH by (rewrite ?length_skipn; lia). rewrite Hfold. reflexivity.
    + rewrite IH by (rewrite ?length_skipn; lia).
      rewrite Hcombine, Hfold. reflexivity.
Qed.

End reduce_value_facts.

(** [parallel_reduce_generic] returns the accumulator of the serial loop.
    With a policy that passes [assert_policy] and a [combine_op] that adds
    an accumulator started from [reducer.identity()], the call returns
    [acc] with [accumulate_op] applied to the elements from first to last,
    whichever threads the scheduler serialises and wherever the range is
    split: it returns, no assertion fails, and the schedule does not show
    in the value. *)
Theorem parallel_reduce_value_is_sequential
        {Acc Elem : Type} (serialized : list bool -> bool)
        (accumulate_op : Acc -> Elem -> Acc)
        (combine_op : Acc -> Acc -> list Elem -> list Elem -> Acc)
        (identity : Acc) (global : bool) (policy : parallel_policy.t)
        (fuel : nat) (path : list bool) (acc : Acc) (xs : list Elem) :
  0 < parallel_policy.checkout_count policy
      <= parallel_policy.cutoff_count policy ->
  (forall acc ys l r,
     combine_op acc (fold_left accumulate_op ys identity) l r
     = fold_left accumulate_op ys acc) ->
  (length xs < fuel)%nat ->
  Z.of_nat (length xs) + parallel_policy.checkout_count policy <= SIZE_MOD ->
  parallel_reduce_generic serialized accumulate_op combine_op identity
                          global policy fuel path acc xs
  = Done (fold_left accumulate_op xs acc)
  /\ reduce_generic_par serialized accumulate_op combine_op identity
                        global policy fuel acc xs
     = reduce_generic_seq accumulate_op global (to_sequenced_policy policy)
                          fuel acc xs.
Proof.
  intros Hpolicy Hcombine Hfuel Hsum.
  pose proof (parallel_reduce_generic_value serialized accumulate_op
                combine_op identity global policy Hpolicy Hcombine fuel)
    as Hvalue.
  split; [apply Hvalue; assumption|].
  unfold reduce_generic_par, reduce_generic_seq, assert_policy_par,
    assert_policy_seq.
  cbn [to_sequenced_policy sequenced_policy.checkout_count].
  destruct (Z.ltb_spec 0 (parallel_policy.checkout_count policy)) as [_|];
    [|lia].
  destruct (Z.leb_spec (parallel_policy.checkout_count policy)
                       (parallel_policy.cutoff_count policy)) as [_|]; [|lia].
  rewrite Hvalue by assumption. symmetry.
  apply (leaf_value accumulate_op global policy Hpolicy); assumption.
Qed.

Lemma parallel_reduce_value_is_sequential_witness :
  parallel_reduce_generic
    (fun path => match path with [] => false | _ => true end)
    Z.add (fun a b _ _ => a + b) 0 true (parallel_policy.mk 2 2)
    8 [] 100 [1; 2; 3; 4; 5; 6; 7]
  = Done 128.
Proof.
  refine (proj1 (parallel_reduce_value_is_sequential
                   (fun path => match path with [] => false | _ => true end)
                   Z.add (fun a b _ _ => a + b) 0 true (parallel_policy.mk 2 2)
                   8 [] 100 [1; 2; 3; 4; 5; 6; 7] _ _ _ _)).
  - simpl. lia.
  - intros acc ys _ _.
    assert (H : forall e a, a + fold_left Z.add ys e
                            = fold_left Z.add ys (a + e)).
    { induction ys as [|y ys IH]; intros e a; cbn [fold_left]; [reflexivity|].
      rewrite IH. f_equal. lia. }
    rewrite H. f_equal. lia.
  - simpl. lia.
  - rewrite SIZE_MOD_val. simpl. lia.
Defined.

Section transform_reduce_facts.
Context {Acc Elem T : Type}.
Variable foldl : Acc -> T -> Acc.
Variable foldl_acc : Acc -> Acc -> Acc.
Variable identity : Acc.
Variable unary_transform_op : Elem -> T.

(** the two [foldl] of the reducer are associative with one another, and
    the identity is a right identity *)
Hypothesis Hassoc :
  forall a b t, foldl_acc a (foldl b t) = foldl (foldl_acc a b) t.
Hypothesis Hidentity : forall a, foldl_acc a identity = a.

Lemma combine_op_adds (acc : Acc) (ys l r : list Elem) :
  combine_op foldl_acc acc
    (fold_left (accumulate_op foldl unary_transform_op) ys identity) l r
  = fold_left (accumulate_op foldl unary_transform_op) ys acc.
Proof.
  unfold combine_op. rewrite <- (Hidentity acc) at 2.
  generalize identity. induction ys as [|y ys IH]; intros e; [reflexivity|].
  cbn [fold_left]. rewrite IH. unfold accumulate_op at 2 4.
  rewrite Hassoc. reflexivity.
Qed.

End transform_reduce_facts.

(** [transform_reduce] with a parallel policy returns what it returns with
    a sequenced policy.  For a reducer whose [foldl] is associative and
    whose identity is a right identity, and a policy that passes
    [assert_policy], the parallel call returns [reducer.identity()] with
    the transformed elements folded in from first to last, whatever the
    scheduler serialises; this is the value of the sequenced call.  A
    policy with [checkout_count = 0], or with
    [checkout_count > cutoff_count], fails the assertion. *)
Theorem transform_reduce_par_is_seq
        {Acc Elem T : Type} (serialized : list bool -> bool)
        (foldl : Acc -> T -> Acc) (foldl_acc : Acc -> Acc -> Acc)
        (identity : Acc) (unary_transform_op : Elem -> T) (global : bool)
        (policy : parallel_policy.t) (fuel : nat) (xs : list Elem) :
  (forall a b t, foldl_acc a (foldl b t) = foldl (foldl_acc a b) t) ->
  (forall a, foldl_acc a identity = a) ->
  (length xs < fuel)%nat ->
  Z.of_nat (length xs) + parallel_policy.checkout_count policy <= SIZE_MOD ->
  (0 < parallel_policy.checkout_count policy
       <= parallel_policy.cutoff_count policy ->
   transform_reduce_par serialized foldl foldl_acc identity
                        unary_transform_op global policy fuel xs
   = Done (fold_left (fun acc r => foldl acc (unary_transform_op r))
                     xs identity) /\
   transform_reduce_seq foldl identity unary_transform_op global
                        (to_sequenced_policy policy) fuel xs
   = Done (fold_left (fun acc r => foldl acc (unary_transform_op r))
                     xs identity))
  /\ (parallel_policy.checkout_count policy <= 0 \/
      parallel_policy.cutoff_count policy
      < parallel_policy.checkout_count policy ->
      transform_reduce_par serialized foldl foldl_acc identity
                           unary_transform_op global policy fuel xs
      = CheckFailed).
Proof.
  intros Hassoc Hidentity Hfuel Hsum. split.
  - intros Hpolicy.
    assert (Hpar : transform_reduce_par serialized foldl foldl_acc identity
                     unary_transform_op global policy fuel xs
                   = Done (fold_left (accumulate_op foldl unary_transform_op)
                                     xs identity)).
    { unfold transform_reduce_par, reduce_generic_par, assert_policy_par.
      destruct (Z.ltb_spec 0 (parallel_policy.checkout_count policy)) as [_|];
        [|lia].
      destruct (Z.leb_spec (parallel_policy.checkout_count policy)
                           (parallel_policy.cutoff_count policy)) as [_|];
        [|lia].
      apply parallel_reduce_generic_value; try assumption.
      intros acc ys l r. apply combine_op_adds; assumption. }
    split; [exact Hpar|].
    unfold transform_reduce_seq, reduce_generic_seq, assert_policy_seq.
    cbn [to_sequenced_policy sequenced_policy.checkout_count].
    destruct (Z.ltb_spec 0 (parallel_policy.checkout_count policy)) as [_|];
      [|lia].
    apply (leaf_value (accumulate_op foldl unary_transform_op) global policy
                      Hpolicy); assumption.
  - intros Hbad.
    unfold transform_reduce_par, reduce_generic_par, assert_policy_par.
    destruct (Z.ltb_spec 0 (parallel_policy.checkout_count policy)) as [Hpos|];
      [|reflexivity].
    destruct (Z.leb_spec (parallel_policy.checkout_count policy)
                         (parallel_policy.cutoff_count policy)) as [Hle|];
      [lia|reflexivity].
Qed.

Lemma transform_reduce_par_is_seq_witness :
  transform_reduce_par
    (fun path => match path with [] => false | _ => true end)
    Z.add Z.add 0 (fun x => x * x) true (parallel_policy.mk 2 1) 8
    [1; 2; 3; 4; 5]
  = Done 55.
Proof.
  refine (proj1 (proj1 (transform_reduce_par_is_seq
                   (fun path => match path with [] => false | _ => true end)
                   Z.add Z.add 0 (fun x => x * x) true (parallel_policy.mk 2 1)
                   8 [1; 2; 3; 4; 5] _ _ _ _) _)).
  - intros a b t. lia.
  - intros a. lia.
  - simpl. lia.
  - rewrite SIZE_MOD_val. simpl. lia.
  - simpl. lia.
Defined.

(** without associativity the schedule shows: subtraction as [foldl], on
    [1, 2, 3, 4] with the root thread migrated or serialised *)
Example transform_reduce_of_a_non_associative_reducer :
  transform_reduce_par (fun _ => false) Z.sub Z.sub 0 (fun x => x) false
                       (parallel_policy.mk 2 1) 8 [1; 2; 3; 4] = Done 4 /\
  transform_reduce_par (fun _ => true) Z.sub Z.sub 0 (fun x => x) false
                       (parallel_policy.mk 2 1) 8 [1; 2; 3; 4] = Done (-10).
Proof. split; reflexivity. Qed.

(** * Properties of the topology *)
Import topology.

Section topology_facts.
Variable q : process_map_entry.t -> bool.

Lemma count_before_S (e : process_map_entry.t)
      (pm : list process_map_entry.t) (j : nat) :
  count_before q (e :: pm) (S j)
  = ((if q e then 1 else 0) + count_before q pm j)%nat.
Proof. unfold count_before. cbn. destruct (q e); reflexivity. Qed.

Lemma count_before_mono (pm : list process_map_entry.t) (j1 j2 : nat) :
  (j1 <= j2)%nat -> (count_before q pm j1 <= count_before q pm j2)%nat.
Proof.
  revert j1 j2. induction pm as [|e pm IH]; intros j1 j2 H.
  - unfold count_before. rewrite !firstn_nil. lia.
  - destruct j1 as [|j1]; [unfold count_before at 1; cbn; lia|].
    destruct j2 as [|j2]; [lia|].
    rewrite !count_before_S. specialize (IH j1 j2). lia.
Qed.

(** the [k]-th position is the rank of the entry that satisfies [q] and
    has [k] such entries before it *)
Lemma positions_lookup (pm : list process_map_entry.t) :
  forall i k g,
    positions q pm i !! k = Some g ->
    exists j e, g = i + Z.of_nat j /\ pm !! j = Some e /\ q e = true /\
                k = count_before q pm j.
Proof.
  induction pm as [|e pm IH]; intros i k g H; [discriminate|].
  cbn [positions] in H. destruct (q e) eqn:Hq.
  - destruct k as [|k]; cbn in H.
    + injection H as <-. exists O, e. cbn. rewrite Z.add_0_r. auto.
    + destruct (IH _ _ _ H) as (j & e' & -> & Hj & Hq' & ->).
      exists (S j), e'. rewrite count_before_S, Hq.
      split; [lia|]. auto.
  - cbn in H. destruct (IH _ _ _ H) as (j & e' & -> & Hj & Hq' & ->).
    exists (S j), e'. rewrite count_before_S, Hq.
    split; [lia|]. auto.
Qed.

Lemma positions_complete (pm : list process_map_entry.t) :
  forall i j e,
    pm !! j = Some e -> q e = true ->
    positions q pm i !! count_before q pm j = Some (i + Z.of_nat j).
Proof.
  induction pm as [|e0 pm IH]; intros i j e Hj Hq; [discriminate|].
  destruct j as [|j].
  - injection Hj as ->. cbn [positions]. rewrite Hq. cbn.
    rewrite Z.add_0_r. reflexivity.
  - cbn in Hj. rewrite count_before_S. cbn [positions].
    specialize (IH (i + 1) j e Hj Hq).
    replace (i + Z.of_nat (S j)) with (i + 1 + Z.of_nat j) by lia.
    destruct (q e0); exact IH.
Qed.

Lemma positions_length (pm : list process_map_entry.t) (i : Z) :
  length (positions q pm i) = count_before q pm (length pm).
Proof.
  revert i. induction pm as [|e pm IH]; intros i; [reflexivity|].
  cbn [positions length]. rewrite count_before_S, length_app, IH.
  destruct (q e); reflexivity.
Qed.

Lemma positions_increasing (pm : list process_map_entry.t) (i : Z)
      (k1 k2 : nat) (g1 g2 : Z) :
  positions q pm i !! k1 = Some g1 -> positions q pm i !! k2 = Some g2 ->
  (k1 < k2)%nat -> g1 < g2.
Proof.
  intros H1 H2 Hk.
  destruct (positions_lookup _ _ _ _ H1) as (j1 & e1 & -> & _ & _ & ->).
  destruct (positions_lookup _ _ _ _ H2) as (j2 & e2 & -> & _ & _ & ->).
  destruct (Nat.lt_ge_cases j1 j2) as [|Hge]; [lia|].
  pose proof (count_before_mono pm j2 j1 Hge). lia.
Qed.

End topology_facts.

Section create_facts.
Variables (intra_my intra_n inter_my inter_n : Z).

Lemma intra2global_loop_positions (pm : list process_map_entry.t) :
  forall i ret,
    intra2global_loop inter_my pm i ret
    = ret ++ positions (local_entry inter_my) pm i.
Proof.
  induction pm as [|e pm IH]; intros i ret; cbn [intra2global_loop positions].
  - rewrite app_nil_r. reflexivity.
  - rewrite IH. unfold local_entry at 2.
    destruct (process_map_entry.inter_rank e =? inter_my);
      [rewrite <- app_assoc|]; reflexivity.
Qed.

Lemma inter2global_loop_positions (pm : list process_map_entry.t) :
  forall i ret ret',
    inter2global_loop intra_my pm i ret = Some ret' ->
    ret' = ret ++ positions (peer_entry intra_my) pm i /\
    forall j e, pm !! j = Some e -> peer_entry intra_my e = true ->
                of_int (process_map_entry.inter_rank e)
                = Z.of_nat (length ret
                            + count_before (peer_entry intra_my) pm j).
Proof.
  induction pm as [|e pm IH]; intros i ret ret' H;
    cbn [inter2global_loop positions] in *.
  - injection H as <-. rewrite app_nil_r. split; [reflexivity|].
    intros j e Hj. discriminate.
  - unfold peer_entry at 1 3.
    destruct (process_map_entry.intra_rank e =? intra_my) eqn:Hq.
    + destruct (Z.eqb_spec (of_int (process_map_entry.inter_rank e))
                           (Z.of_nat (length ret))) as [Hchk|];
        [|discriminate].
      destruct (IH _ _ _ H) as [-> Hrest]. rewrite <- app_assoc.
      split; [reflexivity|]. intros [|j] e' Hj Hq'.
      * injection Hj as <-. unfold count_before. cbn. lia.
      * cbn in Hj. rewrite (Hrest j e' Hj Hq'), count_before_S.
        unfold peer_entry at 2. rewrite Hq, length_app. cbn. lia.
    + destruct (IH _ _ _ H) as [-> Hrest].
      split; [reflexivity|]. intros [|j] e' Hj Hq'.
      * injection Hj as <-. unfold peer_entry in Hq'. congruence.
      * cbn in Hj. rewrite (Hrest j e' Hj Hq'), count_before_S.
        unfold peer_entry at 2. rewrite Hq. reflexivity.
Qed.

End create_facts.

Lemma at_Some {A : Type} (l : list A) (i : Z) (x : A) :
  at_ l i = Some x <-> 0 <= i /\ l !! Z.to_nat i = Some x.
Proof.
  unfold at_. destruct (Z.ltb_spec i 0); split.
  - discriminate.
  - intros [? _]. lia.
  - auto.
  - tauto.
Qed.

Lemma of_int_int (r k : Z) :
  - 2 ^ 31 <= r <= INT_MAX -> 0 <= k <= INT_MAX -> of_int r = k -> r = k.
Proof.
  rewrite INT_MAX_val. intros Hr Hk H. unfold of_int, wrap in H.
  rewrite SIZE_MOD_val in H.
  destruct (Z.le_gt_cases 0 r) as [Hpos|Hneg].
  - rewrite Z.mod_small in H by lia. exact H.
  - exfalso.
    assert (Hm : r mod 18446744073709551616 = r + 18446744073709551616).
    { symmetry. apply (Z.mod_unique _ _ (-1)); lia. }
    lia.
Qed.

Section accessors.
Variables (intra_my intra_n inter_my inter_n : Z).
Variable pm : list process_map_entry.t.
Variable t : topology.
Hypothesis Hint : Forall int_entry pm.
Hypothesis Hsize : Z.of_nat (length pm) <= INT_MAX.
Hypothesis Hnew : topology_new intra_my intra_n inter_my inter_n pm = Some t.

Lemma topology_new_inv :
  t = mk_topology (Z.of_nat (length pm)) intra_my intra_n inter_my inter_n pm
                  (positions (local_entry inter_my) pm 0)
                  (positions (peer_entry intra_my) pm 0) /\
  Z.of_nat (length (positions (local_entry inter_my) pm 0)) = of_int intra_n /\
  Z.of_nat (length (positions (peer_entry intra_my) pm 0)) = of_int inter_n /\
  forall j e, pm !! j = Some e -> peer_entry intra_my e = true ->
              process_map_entry.inter_rank e
              = Z.of_nat (count_before (peer_entry intra_my) pm j).
Proof.
  unfold topology_new, create_intra2global_rank, create_inter2global_rank
    in Hnew.
  rewrite intra2global_loop_positions in Hnew. cbn [app] in Hnew.
  destruct (Z.eqb_spec
              (Z.of_nat (length (positions (local_entry inter_my) pm 0)))
              (of_int intra_n)) as [Hi|]; [|discriminate].
  destruct (inter2global_loop intra_my pm 0 []) as [ret|] eqn:Hloop;
    [|discriminate].
  apply inter2global_loop_positions in Hloop. cbn [app length] in Hloop.
  destruct Hloop as [-> Hchk].
  destruct (Z.eqb_spec
              (Z.of_nat (length (positions (peer_entry intra_my) pm 0)))
              (of_int inter_n)) as [He|]; [|discriminate].
  injection Hnew as <-. split; [reflexivity|]. split; [exact Hi|].
  split; [exact He|]. intros j e Hj Hq.
  specialize (Hchk j e Hj Hq). cbn [Nat.add] in Hchk.
  apply of_int_int; [|split; [lia|]|exact Hchk].
  - exact (proj2 (Forall_lookup_1 _ _ _ _ Hint Hj)).
  - pose proof (count_before_mono (peer_entry intra_my) pm j (length pm)).
    pose proof (lookup_lt_Some _ _ _ Hj).
    unfold count_before in *.
    pose proof (filter_length_le (peer_entry intra_my) (firstn (length pm) pm)).
    rewrite length_firstn in *. lia.
Qed.

End accessors.

(** [create_inter2global_rank] and the accessors.  In a topology whose
    constructor passed its assertions, [inter2global_rank] and
    [inter_rank] are inverse to one another on the processes that have my
    rank within their node: [inter2global_rank(k)] is defined for every
    [k] below [inter_n_ranks()] and is a process with intra-node rank
    [intra_my_rank()] and inter-node rank [k]; every such process is
    [inter2global_rank] of its inter-node rank; and [inter2global_rank] is
    increasing. *)
Theorem inter2global_rank_inverts_inter_rank
        (intra_my intra_n inter_my inter_n : Z)
        (pm : list process_map_entry.t) (t : topology) :
  Forall int_entry pm -> Z.of_nat (length pm) <= INT_MAX ->
  - 2 ^ 31 <= inter_n <= INT_MAX ->
  topology_new intra_my intra_n inter_my inter_n pm = Some t ->
  (forall k, 0 <= k < inter_n_ranks t ->
     exists g, inter2global_rank t k = Some g /\
               intra_rank t g = Some (intra_my_rank t) /\
               inter_rank t g = Some k)
  /\ (forall g k, intra_rank t g = Some (intra_my_rank t) ->
                  inter_rank t g = Some k ->
                  inter2global_rank t k = Some g)
  /\ (forall k1 k2 g1 g2,
        inter2global_rank t k1 = Some g1 ->
        inter2global_rank t k2 = Some g2 -> k1 < k2 -> g1 < g2).
Proof.
  intros Hint Hsize Hn Hnew.
  destruct (topology_new_inv intra_my intra_n inter_my inter_n pm t
              Hint Hsize Hnew) as (-> & _ & Hlen & Hchk).
  set (q := peer_entry intra_my) in *.
  assert (Hn0 : 0 <= inter_n /\ Z.of_nat (length (positions q pm 0)) = inter_n).
  { assert (inter_n = Z.of_nat (length (positions q pm 0))); [|lia].
    apply of_int_int; [exact Hn| |symmetry; exact Hlen].
    rewrite positions_length. unfold count_before.
    pose proof (filter_length_le q (firstn (length pm) pm)).
    rewrite length_firstn in *. lia. }
  destruct Hn0 as [Hn0 Hlen'].
  unfold inter2global_rank, intra_rank, inter_rank.
  cbn [inter_n_ranks n_ranks process_map_ inter2global_rank_ intra_my_rank].
  split; [|split].
  - intros k Hk.
    destruct (Z.leb_spec 0 k) as [_|]; [|lia].
    destruct (Z.ltb_spec k inter_n) as [_|]; [|lia].
    destruct (lookup_lt_is_Some_2 (positions q pm 0) (Z.to_nat k)) as [g Hg];
      [lia|].
    exists g. split; [apply at_Some; split; [lia|exact Hg]|].
    destruct (positions_lookup q pm 0 _ _ Hg) as (j & e & -> & Hj & Hq & Hcnt).
    pose proof (lookup_lt_Some _ _ _ Hj) as Hjlt.
    rewrite Z.add_0_l.
    destruct (Z.leb_spec 0 (Z.of_nat j)) as [_|]; [|lia].
    destruct (Z.ltb_spec (Z.of_nat j) (Z.of_nat (length pm))) as [_|]; [|lia].
    assert (Hat : at_ pm (Z.of_nat j) = Some e)
      by (apply at_Some; rewrite Nat2Z.id; split; [lia|exact Hj]).
    rewrite Hat. cbn [option_map]. split.
    + f_equal. unfold q, peer_entry in Hq. apply Z.eqb_eq in Hq. exact Hq.
    + f_equal. rewrite (Hchk j e Hj Hq). lia.
  - intros g k Hintra Hinter.
    destruct (Z.leb_spec 0 g) as [Hg0|]; [|discriminate].
    destruct (Z.ltb_spec g (Z.of_nat (length pm))) as [Hglt|]; [|discriminate].
    destruct (at_ pm g) as [e|] eqn:Hat; [|discriminate].
    cbn [option_map] in Hintra, Hinter.
    injection Hintra as Hintra. injection Hinter as Hinter.
    apply at_Some in Hat. destruct Hat as [_ Hj].
    assert (Hq : q e = true) by (unfold q, peer_entry; apply Z.eqb_eq; exact Hintra).
    pose proof (positions_complete q pm 0 _ _ Hj Hq) as Hpos.
    pose proof (lookup_lt_Some _ _ _ Hpos) as Hklt.
    rewrite (Hchk _ e Hj Hq) in Hinter. subst k.
    destruct (Z.leb_spec 0 (Z.of_nat (count_before q pm (Z.to_nat g))))
      as [_|]; [|lia].
    destruct (Z.ltb_spec (Z.of_nat (count_before q pm (Z.to_nat g))) inter_n)
      as [_|]; [|lia].
    apply at_Some. split; [lia|]. rewrite Nat2Z.id, Hpos. f_equal. lia.
  - intros k1 k2 g1 g2 H1 H2 Hk.
    destruct (0 <=? k1); [|discriminate].
    destruct (k1 <? inter_n); [|discriminate].
    destruct (0 <=? k2); [|discriminate].
    destruct (k2 <? inter_n); [|discriminate].
    apply at_Some in H1. apply at_Some in H2.
    destruct H1 as [Hk1 H1]. destruct H2 as [Hk2 H2].
    apply (positions_increasing q pm 0 _ _ _ _ H1 H2). lia.
Qed.

Lemma inter2global_rank_inverts_inter_rank_witness :
  let pm := [process_map_entry.mk 0 0; process_map_entry.mk 1 0;
             process_map_entry.mk 0 1; process_map_entry.mk 1 1] in
  exists t,
    topology_new 1 2 1 2 pm = Some t /\
    inter2global_rank t 0 = Some 1 /\ inter2global_rank t 1 = Some 3.
Proof.
  intros pm.
  destruct (topology_new 1 2 1 2 pm) as [t|] eqn:Hnew;
    [|vm_compute in Hnew; discriminate].
  exists t. split; [reflexivity|].
  assert (Hint : Forall int_entry pm)
    by (repeat constructor; vm_compute; discriminate).
  assert (Hsize : Z.of_nat (length pm) <= INT_MAX) by (vm_compute; discriminate).
  destruct (inter2global_rank_inverts_inter_rank 1 2 1 2 pm t Hint Hsize
              ltac:(vm_compute; split; discriminate) Hnew)
    as (_ & Hinv & _).
  split; apply Hinv; vm_compute in Hnew; injection Hnew as <-; reflexivity.
Defined.

(** [create_intra2global_rank] and the accessors.  In a topology whose
    constructor passed its assertions, the processes that
    [intra2global_rank] lists are the processes of my node, those for
    which [is_locally_accessible] answers true, in increasing order.  The
    constructor does not compare their intra-node ranks with their places
    in the list: [intra_rank(intra2global_rank(k)) = k] holds when the
    processes of my node are numbered in the order of their global ranks. *)
Theorem intra2global_rank_lists_my_node
        (intra_my intra_n inter_my inter_n : Z)
        (pm : list process_map_entry.t) (t : topology) :
  Forall int_entry pm -> Z.of_nat (length pm) <= INT_MAX ->
  - 2 ^ 31 <= intra_n <= INT_MAX ->
  topology_new intra_my intra_n inter_my inter_n pm = Some t ->
  (forall g, (exists k, intra2global_rank t k = Some g) <->
             is_locally_accessible t g = Some true)
  /\ (forall k1 k2 g1 g2,
        intra2global_rank t k1 = Some g1 ->
        intra2global_rank t k2 = Some g2 -> k1 < k2 -> g1 < g2)
  /\ ((forall j e, pm !! j = Some e -> local_entry inter_my e = true ->
                   process_map_entry.intra_rank e
                   = Z.of_nat (count_before (local_entry inter_my) pm j)) ->
      forall k g, intra2global_rank t k = Some g -> intra_rank t g = Some k).
Proof.
  intros Hint Hsize Hn Hnew.
  destruct (topology_new_inv intra_my intra_n inter_my inter_n pm t
              Hint Hsize Hnew) as (-> & Hlen & _ & _).
  set (q := local_entry inter_my) in *.
  assert (Hn0 : 0 <= intra_n /\ Z.of_nat (length (positions q pm 0)) = intra_n).
  { assert (intra_n = Z.of_nat (length (positions q pm 0))); [|lia].
    apply of_int_int; [exact Hn| |symmetry; exact Hlen].
    rewrite positions_length. unfold count_before.
    pose proof (filter_length_le q (firstn (length pm) pm)).
    rewrite length_firstn in *. lia. }
  destruct Hn0 as [Hn0 Hlen'].
  unfold intra2global_rank, is_locally_accessible, intra_rank, inter_rank.
  cbn [intra_n_ranks n_ranks process_map_ intra2global_rank_ inter_my_rank].
  assert (Hlisted : forall k g,
             (if 0 <=? k
              then if k <? intra_n then at_ (positions q pm 0) k else None
              else None) = Some g ->
             0 <= k /\ exists j e,
               g = Z.of_nat j /\ pm !! j = Some e /\ q e = true /\
               Z.to_nat k = count_before q pm j).
  { intros k g H. destruct (Z.leb_spec 0 k); [|discriminate].
    destruct (k <? intra_n); [|discriminate].
    apply at_Some in H. destruct H as [_ H]. split; [assumption|].
    destruct (positions_lookup q pm 0 _ _ H) as (j & e & -> & Hj & Hq & Hc).
    exists j, e. auto. }
  split; [|split].
  - intros g. split.
    + intros [k Hk]. destruct (Hlisted k g Hk) as (_ & j & e & -> & Hj & Hq & _).
      pose proof (lookup_lt_Some _ _ _ Hj).
      destruct (Z.leb_spec 0 (Z.of_nat j)) as [_|]; [|lia].
      destruct (Z.ltb_spec (Z.of_nat j) (Z.of_nat (length pm))) as [_|]; [|lia].
      assert (Hat : at_ pm (Z.of_nat j) = Some e)
        by (apply at_Some; rewrite Nat2Z.id; split; [lia|exact Hj]).
      rewrite Hat. cbn [option_map]. f_equal. exact Hq.
    + intros H.
      destruct (Z.leb_spec 0 g) as [Hg0|]; [|discriminate].
      destruct (Z.ltb_spec g (Z.of_nat (length pm))) as [Hglt|];
        [|discriminate].
      destruct (at_ pm g) as [e|] eqn:Hat; [|discriminate].
      cbn [option_map] in H. injection H as Hq.
      apply at_Some in Hat. destruct Hat as [_ Hj].
      pose proof (positions_complete q pm 0 _ _ Hj Hq) as Hpos.
      pose proof (lookup_lt_Some _ _ _ Hpos) as Hklt.
      exists (Z.of_nat (count_before q pm (Z.to_nat g))).
      destruct (Z.leb_spec 0 (Z.of_nat (count_before q pm (Z.to_nat g))))
        as [_|]; [|lia].
      destruct (Z.ltb_spec (Z.of_nat (count_before q pm (Z.to_nat g))) intra_n)
        as [_|]; [|lia].
      apply at_Some. split; [lia|]. rewrite Nat2Z.id, Hpos. f_equal. lia.
  - intros k1 k2 g1 g2 H1 H2 Hk.
    destruct (0 <=? k1); [|discriminate].
    destruct (k1 <? intra_n); [|discriminate].
    destruct (0 <=? k2); [|discriminate].
    destruct (k2 <? intra_n); [|discriminate].
    apply at_Some in H1. apply at_Some in H2.
    destruct H1 as [Hk1 H1]. destruct H2 as [Hk2 H2].
    apply (positions_increasing q pm 0 _ _ _ _ H1 H2). lia.
  - intros Hnum k g Hk.
    destruct (Hlisted k g Hk) as (Hk0 & j & e & -> & Hj & Hq & Hc).
    pose proof (lookup_lt_Some _ _ _ Hj).
    destruct (Z.leb_spec 0 (Z.of_nat j)) as [_|]; [|lia].
    destruct (Z.ltb_spec (Z.of_nat j) (Z.of_nat (length pm))) as [_|]; [|lia].
    assert (Hat : at_ pm (Z.of_nat j) = Some e)
      by (apply at_Some; rewrite Nat2Z.id; split; [lia|exact Hj]).
    rewrite Hat. cbn [option_map]. f_equal.
    rewrite (Hnum j e Hj Hq). lia.
Qed.

Lemma intra2global_rank_lists_my_node_witness :
  let pm := [process_map_entry.mk 0 0; process_map_entry.mk 1 0;
             process_map_entry.mk 0 1; process_map_entry.mk 1 1] in
  exists t,
    topology_new 1 2 1 2 pm = Some t /\
    forall k g, intra2global_rank t k = Some g -> intra_rank t g = Some k.
Proof.
  intros pm.
  destruct (topology_new 1 2 1 2 pm) as [t|] eqn:Hnew;
    [|vm_compute in Hnew; discriminate].
  exists t. split; [reflexivity|].
  assert (Hint : Forall int_entry pm)
    by (repeat constructor; vm_compute; discriminate).
  assert (Hsize : Z.of_nat (length pm) <= INT_MAX) by (vm_compute; discriminate).
  destruct (intra2global_rank_lists_my_node 1 2 1 2 pm t Hint Hsize
              ltac:(vm_compute; split; discriminate) Hnew)
    as (_ & _ & Hinv).
  apply Hinv. intros [|[|[|[|j]]]] e Hj Hq; cbn in Hj; try discriminate;
    injection Hj as <-; try discriminate; reflexivity.
Defined.

(** * Properties of [make_checkouts] and of global spans *)
Import checkouts.

Section making_facts.
Variables (ori_checkout ori_checkout_nb : Z -> Z -> Z).

(** the span and the event of a request *)
Let span_of (r : request) : span.checkout_span :=
  span.mk_span (ori_checkout_nb (req_ptr r) (req_n r)) (req_n r).
Let event_of (r : request) : span.ori_event :=
  span.ev_checkout_nb (req_ptr r) (req_n r)
                      (ori_checkout_nb (req_ptr r) (req_n r)).

Lemma make_checkouts_aux_spec (reqs : list request) :
  forall tr,
    make_checkouts_aux ori_checkout_nb reqs tr
    = (map span_of reqs, tr ++ map event_of reqs).
Proof.
  induction reqs as [|r reqs IH]; intros tr; cbn [make_checkouts_aux map].
  - rewrite app_nil_r. reflexivity.
  - destruct r as [gptr n|gspan];
      unfold span.checkout_nb, span.checkin, span.span_default;
      cbn [span.ptr_ Z.eqb negb]; rewrite IH, <- app_assoc; reflexivity.
Qed.

Lemma checked_out_requests (reqs : list request) :
  span.checked_out (map event_of reqs)
  = flat_map span.holding (map span_of reqs).
Proof.
  induction reqs as [|r reqs IH]; [reflexivity|].
  cbn [map flat_map span.checked_out]. fold (span.checked_out (map event_of reqs)).
  rewrite IH. reflexivity.
Qed.

Lemma destroy_all_counts (k : Z * Z) (css : list span.checkout_span) :
  forall tr,
    span.count k (span.checked_in (destroy_all css tr))
    = (span.count k (span.checked_in tr)
       + span.count k (flat_map span.holding css))%nat
    /\ span.checked_out (destroy_all css tr) = span.checked_out tr.
Proof.
  induction css as [|cs css IH]; intros tr; cbn [destroy_all fold_left flat_map].
  - unfold span.count at 3. cbn. split; [lia|reflexivity].
  - fold (destroy_all css (span.destroy cs tr)).
    destruct (IH (span.destroy cs tr)) as [Hin Hout].
    destruct (destroy_counts k cs tr) as [Hin1 Hout1].
    rewrite Hin, Hin1, Hout, Hout1, count_app. split; [lia|reflexivity].
Qed.

Lemma count_holding_perm (k : Z * Z) (css css' : list span.checkout_span) :
  Permutation css' css ->
  span.count k (flat_map span.holding css')
  = span.count k (flat_map span.holding css).
Proof.
  induction 1 as [|cs l l' _ IH|a b l|l1 l2 l3 _ IH1 _ IH2];
    cbn [flat_map]; rewrite ?count_app; lia.
Qed.

End making_facts.

(** [make_checkouts].  Every request is passed to [ori::checkout_nb], in
    the order of the arguments and whatever its pointer and length (no
    request is skipped, and nothing is asserted, unlike in the
    constructor of a span); [ori::checkout_complete] is called once, at the
    end; the [i]-th span holds the pointer returned for the [i]-th request
    and its length.  The regions checked out are those the spans hold, and
    when the spans are destroyed, in whatever order, each of them is
    checked in once. *)
Theorem make_checkouts_issues_every_request
        (ori_checkout_nb : Z -> Z -> Z) (reqs : list request) :
  let css := map (fun r => span.mk_span
                             (ori_checkout_nb (req_ptr r) (req_n r))
                             (req_n r)) reqs in
  let tr := map (fun r => span.ev_checkout_nb
                            (req_ptr r) (req_n r)
                            (ori_checkout_nb (req_ptr r) (req_n r))) reqs in
  make_checkouts ori_checkout_nb reqs
  = (css, map span_call tr ++ [checkout_complete])
  /\ span.checked_out tr = flat_map span.holding css
  /\ span.checked_in tr = []
  /\ forall css' k,
       Permutation css' css ->
       span.count k (span.checked_in (destroy_all css' tr))
       = span.count k (span.checked_out (destroy_all css' tr)).
Proof.
  intros css tr. unfold make_checkouts.
  rewrite make_checkouts_aux_spec. cbn [app].
  split; [reflexivity|]. split; [apply checked_out_requests|].
  assert (Hin : span.checked_in tr = []).
  { unfold tr. induction reqs as [|r l IH]; [reflexivity|exact IH]. }
  split; [exact Hin|]. intros css' k Hperm.
  destruct (destroy_all_counts k css' tr) as [Hi Ho].
  rewrite Hi, Ho, Hin, (count_holding_perm k css css' Hperm).
  unfold tr, css. rewrite checked_out_requests. reflexivity.
Qed.

(** ** Global spans *)

(** [global_span::subspan] and the converting constructor.  When
    [offset + count] does not leave [std::size_t], the assertion of
    [subspan] holds exactly when the range ends inside the span, and a
    subspan of a subspan is the subspan at the sum of the offsets.  When
    [offset + count] wraps around, the assertion compares the wrapped sum
    and lets a range pass that ends outside the span.  A span converted
    from elements of [sizeof_U] bytes to elements of [sizeof_T] bytes
    starts at the same address and covers the bytes of the original span
    but for less than one element at the end. *)
Theorem global_span_subspan_and_conversion
        (ptr_add : Z -> Z -> Z) (s : global_span.global_span)
        (offset count : Z) :
  0 <= offset < SIZE_MOD -> 0 <= count < SIZE_MOD ->
  0 <= global_span.n_ s < SIZE_MOD ->
  (offset + count < SIZE_MOD ->
   (offset + count <= global_span.n_ s ->
    global_span.subspan ptr_add s offset count
    = Some (global_span.mk_global_span
              (ptr_add (global_span.ptr_ s) offset) count)) /\
   (global_span.n_ s < offset + count ->
    global_span.subspan ptr_add s offset count = None) /\
   ((forall p a b, ptr_add (ptr_add p a) b = ptr_add p (a + b)) ->
    forall s1 s2 offset2 count2,
      0 <= offset2 -> 0 <= count2 -> offset2 + count2 < SIZE_MOD ->
      global_span.subspan ptr_add s offset count = Some s1 ->
      global_span.subspan ptr_add s1 offset2 count2 = Some s2 ->
      global_span.subspan ptr_add s (offset + offset2) count2 = Some s2))
  /\ (SIZE_MOD <= offset + count ->
      offset + count - SIZE_MOD <= global_span.n_ s ->
      global_span.subspan ptr_add s offset count
      = Some (global_span.mk_global_span
                (ptr_add (global_span.ptr_ s) offset) count) /\
      global_span.n_ s < offset + count)
  /\ (forall sizeof_U sizeof_T,
        0 < sizeof_T -> 0 <= sizeof_U ->
        global_span.n_ s * sizeof_U < SIZE_MOD ->
        let s' := global_span.convert sizeof_U sizeof_T s in
        global_span.ptr_ s' = global_span.ptr_ s /\
        global_span.n_ s' * sizeof_T <= global_span.n_ s * sizeof_U
        < (global_span.n_ s' + 1) * sizeof_T).
Proof.
  intros Hoff Hcount Hn. unfold global_span.subspan. split; [|split].
  - intros Hsum. rewrite addu_small by lia. split; [|split].
    + intros Hle. destruct (Z.leb_spec (offset + count) (global_span.n_ s));
        [reflexivity|lia].
    + intros Hgt. destruct (Z.leb_spec (offset + count) (global_span.n_ s));
        [lia|reflexivity].
    + intros Hadd s1 s2 offset2 count2 Ho2 Hc2 Hsum2 H1 H2.
      destruct (Z.leb_spec (offset + count) (global_span.n_ s)); [|discriminate].
      injection H1 as <-. unfold global_span.subspan in H2.
      cbn [global_span.n_ global_span.ptr_] in H2.
      rewrite addu_small in H2 by lia.
      destruct (Z.leb_spec (offset2 + count2) count); [|discriminate].
      injection H2 as <-. rewrite addu_small by lia.
      destruct (Z.leb_spec (offset + offset2 + count2) (global_span.n_ s));
        [|lia].
      rewrite Hadd. reflexivity.
  - intros Hwrap Hle.
    assert (Hw : addu offset count = offset + count - SIZE_MOD).
    { unfold addu, wrap. symmetry. apply (Z.mod_unique _ _ 1); lia. }
    rewrite Hw. destruct (Z.leb_spec (offset + count - SIZE_MOD)
                                     (global_span.n_ s)); [|lia].
    split; [reflexivity|lia].
  - intros sizeof_U sizeof_T HT HU Hprod. unfold global_span.convert.
    cbn [global_span.ptr_ global_span.n_]. split; [reflexivity|].
    rewrite mulu_small by nia. unfold divu.
    pose proof (div_interval (global_span.n_ s * sizeof_U) sizeof_T HT). nia.
Qed.

Lemma global_span_subspan_and_conversion_witness :
  global_span.subspan Z.add (global_span.mk_global_span 4096 10) 2 5
  = Some (global_span.mk_global_span 4098 5) /\
  global_span.subspan Z.add (global_span.mk_global_span 4096 10)
                      (SIZE_MOD - 1) 3
  = Some (global_span.mk_global_span (4096 + (SIZE_MOD - 1)) 3).
Proof.
  destruct (global_span_subspan_and_conversion
              Z.add (global_span.mk_global_span 4096 10) 2 5
              ltac:(rewrite SIZE_MOD_val; lia)
              ltac:(rewrite SIZE_MOD_val; lia)
              ltac:(rewrite SIZE_MOD_val; simpl; lia))
    as (Hin & _ & _).
  destruct (global_span_subspan_and_conversion
              Z.add (global_span.mk_global_span 4096 10) (SIZE_MOD - 1) 3
              ltac:(rewrite SIZE_MOD_val; lia)
              ltac:(rewrite SIZE_MOD_val; lia)
              ltac:(rewrite SIZE_MOD_val; simpl; lia))
    as (_ & Hwrap & _).
  split.
  - exact (proj1 (Hin ltac:(rewrite SIZE_MOD_val; lia)) ltac:(simpl; lia)).
  - exact (proj1 (Hwrap ltac:(rewrite SIZE_MOD_val; lia)
                        ltac:(rewrite SIZE_MOD_val; simpl; lia))).
Defined.
